(** * chebpy.core.algorithms: a shallow embedding and its verified properties

    The module [chebpy/core/algorithms.py] is written against numpy arrays
    and is generic in the scalar type held by the arrays.  The embedding
    keeps that genericity: every function of the module is a Rocq function
    over a scalar interface [Scalar], and two instances give the interface
    a meaning:

    - [binary64]: IEEE 754 double precision, the kernel's primitive floats
      (the semantics numpy's [float64] really has: rounding, signed zeros,
      infinities and NaN);
    - [exactR]: the real numbers, the exact arithmetic that the rounding of
      [binary64] approximates.

    Arrays are lists; a complex array is a list of pairs (real part,
    imaginary part).  A Python exception is the result [None].  What the
    module imports from outside its own file is a parameter of the function
    that uses it ([Interval], [numpy.linalg.eigvals], the class and the
    callable handed to [adaptive] and [newtonroots], the C library behind
    [numpy.log] and [numpy.cos] in binary64) or is written out from its
    documentation ([numpy.linspace], [numpy.argmin], [numpy.sort], the
    discrete Fourier transform).  The order in which [ndarray.sum] and
    [numpy.dot] add the entries of an array is a parameter too.

    The first half of the file is the embedding, the second half the
    properties: those that turn on rounding, NaN or a division by zero are
    stated and proved on [binary64], the algebraic ones on [exactR], and
    those that only depend on the control flow for every [Scalar]. *)

From Stdlib Require Import List Arith ZArith Lia Bool Permutation.
From Stdlib Require Import Reals Lra.
From Stdlib Require Import Floats.
Import ListNotations.

(** ** The scalar interface *)

Class Scalar (F : Type) : Type := {
  fzero : F;
  fone : F;
  add : F -> F -> F;
  sub : F -> F -> F;
  mul : F -> F -> F;
  div : F -> F -> F;
  neg : F -> F;
  fabs : F -> F;
  feqb : F -> F -> bool;          (* x == y *)
  fltb : F -> F -> bool;          (* x < y *)
  fleb : F -> F -> bool;          (* x <= y *)
  isnan : F -> bool;
  ofZ : Z -> F;                   (* an integer literal or an integer converted *)
  flog : F -> F;                  (* numpy.log *)
  flog10 : F -> F;                (* numpy.log10 *)
  fpow : F -> F -> F;             (* x ** y *)
  fcos : F -> F;                  (* numpy.cos *)
  fsin : F -> F;
  fpi : F                         (* numpy.pi *)
}.

Declare Scope num_scope.
Delimit Scope num_scope with num.
Notation "x + y" := (add x y) : num_scope.
Notation "x - y" := (sub x y) : num_scope.
Notation "x * y" := (mul x y) : num_scope.
Notation "x / y" := (div x y) : num_scope.
Notation "- x" := (neg x) : num_scope.
Notation "x == y" := (feqb x y) (at level 70, no associativity) : num_scope.
Notation "x <? y" := (fltb x y) : num_scope.
Notation "x <=? y" := (fleb x y) : num_scope.
Notation "x >? y" := (fltb y x) : num_scope.
Notation "x >=? y" := (fleb y x) : num_scope.

(** *** IEEE 754 binary64

    The kernel's floats have no logarithm, power or cosine; the C library
    functions numpy calls for them are a parameter of the instance. *)

Record Libm : Type := {
  m_log : float -> float;
  m_log10 : float -> float;
  m_pow : float -> float -> float;
  m_cos : float -> float;
  m_sin : float -> float;
  m_pi : float
}.

Definition float_of_Z (z : Z) : float :=
  match z with
  | Z0 => PrimFloat.zero
  | Zpos _ => PrimFloat.of_uint63 (Uint63.of_Z z)
  | Zneg p => PrimFloat.opp (PrimFloat.of_uint63 (Uint63.of_Z (Zpos p)))
  end.

#[export] Instance binary64 (L : Libm) : Scalar float := {
  fzero := PrimFloat.zero;
  fone := PrimFloat.one;
  add := PrimFloat.add;
  sub := PrimFloat.sub;
  mul := PrimFloat.mul;
  div := PrimFloat.div;
  neg := PrimFloat.opp;
  fabs := PrimFloat.abs;
  feqb := PrimFloat.eqb;
  fltb := PrimFloat.ltb;
  fleb := PrimFloat.leb;
  isnan := PrimFloat.is_nan;
  ofZ := float_of_Z;
  flog := m_log L;
  flog10 := m_log10 L;
  fpow := m_pow L;
  fcos := m_cos L;
  fsin := m_sin L;
  fpi := m_pi L
}.

(** *** Exact real arithmetic

    There is neither NaN nor infinity here.  The functions of the standard
    library are total: a quotient by zero and the logarithm of zero have a
    conventional value ([ln 0 = 0]) where binary64 gives an infinity or a
    NaN, so the properties that turn on a division by zero or on a NaN are
    stated on [binary64], and the properties stated on this instance are
    proved without reading a logarithm at zero or a quotient by zero. *)

Definition Reqb (x y : R) : bool := if Req_dec_T x y then true else false.
Definition Rltb (x y : R) : bool := if Rlt_dec x y then true else false.
Definition Rleb (x y : R) : bool := if Rle_dec x y then true else false.

#[export] Instance exactR : Scalar R := {
  fzero := 0%R;
  fone := 1%R;
  add := Rplus;
  sub := Rminus;
  mul := Rmult;
  div := Rdiv;
  neg := Ropp;
  fabs := Rabs;
  feqb := Reqb;
  fltb := Rltb;
  fleb := Rleb;
  isnan := fun _ => false;
  ofZ := IZR;
  flog := ln;
  flog10 := fun x => (ln x / ln 10)%R;
  fpow := Rpower;
  fcos := cos;
  fsin := sin;
  fpi := PI
}.

(** ** Arrays: the numpy operations the module uses, on lists *)

Section Arrays.
Context {A : Type}.

(** [a[i] = v] on a copy; out of range the list is returned as it is (the
    callers below only write inside the array). *)
Fixpoint set_nth (i : nat) (l : list A) (v : A) : list A :=
  match l, i with
  | [], _ => []
  | _ :: t, O => v :: t
  | x :: t, S i' => x :: set_nth i' t v
  end.

(** [a[-1] = v]. *)
Definition set_last (l : list A) (v : A) : list A :=
  set_nth (length l - 1) l v.

(** [a[i:j]] for [0 <= i], [0 <= j]. *)
Definition slice (i j : nat) (l : list A) : list A :=
  firstn (j - i) (skipn i l).

(** Elementwise binary operation on two arrays of the same length. *)
Fixpoint map2 (f : A -> A -> A) (l1 l2 : list A) : list A :=
  match l1, l2 with
  | x :: t1, y :: t2 => f x y :: map2 f t1 t2
  | _, _ => []
  end.
End Arrays.

(** ** The order of the additions in a sum

    [ndarray.sum] and [numpy.dot] add the entries of an array in an order
    that the module does not choose: numpy sums an array in blocks, with
    eight partial sums from eight entries on, and [dot] accumulates in the
    BLAS kernel numpy is linked with.  In binary64 the result depends on
    that order, so the order is a parameter of the embedding: a tree of
    additions over the indices of the array. *)

Inductive sumtree : Type :=
| SZero                         (* the 0 an accumulator starts from *)
| SLeaf (i : nat)               (* the entry [i] *)
| SNode (l r : sumtree).        (* one addition, [l + r] *)

Fixpoint leaves (t : sumtree) : list nat :=
  match t with
  | SZero => []
  | SLeaf i => [i]
  | SNode l r => leaves l ++ leaves r
  end.

(** An order of additions for [n] entries adds each entry once. *)
Definition adds_each_once (t : sumtree) (n : nat) : Prop :=
  Permutation (leaves t) (seq 0 n).

(** An accumulator that starts as [t0] and adds the entries [idx] one
    after the other. *)
Definition chain (t0 : sumtree) (idx : list nat) : sumtree :=
  fold_left (fun t i => SNode t (SLeaf i)) idx t0.

(** The order of numpy's pairwise summation of the [n] entries from the
    index [off] on: below 8 entries one accumulator that starts at 0; up
    to 128 entries eight accumulators [r[0..7]] that start with the first
    eight entries and each take every eighth entry, added as
    [((r0+r1)+(r2+r3))+((r4+r5)+(r6+r7))], and then the [n mod 8] entries
    left, one after the other; above 128 entries the two halves, the first
    one a multiple of 8 long.  [fuel] bounds the halvings. *)
Fixpoint pairwise_order (fuel off n : nat) : sumtree :=
  if (n <? 8)%nat then chain SZero (seq off n)
  else if (n <=? 128)%nat then
    let full := (n - n mod 8)%nat in
    let r := fun k =>
      chain (SLeaf (off + k))
            (map (fun b => off + 8 * b + k)%nat (seq 1 (full / 8 - 1))) in
    let res := SNode (SNode (SNode (r 0%nat) (r 1%nat)) (SNode (r 2%nat) (r 3%nat)))
                     (SNode (SNode (r 4%nat) (r 5%nat)) (SNode (r 6%nat) (r 7%nat))) in
    chain res (seq (off + full) (n mod 8))
  else
    match fuel with
    | O => SZero
    | S fuel' =>
        let n2 := (n / 2 - (n / 2) mod 8)%nat in
        SNode (pairwise_order fuel' off n2)
              (pairwise_order fuel' (off + n2) (n - n2))
    end.

(** [a.sum()] in numpy: the reduction starts from the identity 0 of the
    addition and adds the pairwise sum of the array. *)
Definition numpy_sum_order (n : nat) : sumtree :=
  SNode SZero (pairwise_order n 0 n).

(** One accumulator from 0, entry after entry: the order of a plain loop. *)
Definition loop_order (n : nat) : sumtree := chain SZero (seq 0 n).

(** ** The algorithms, generic in the scalar *)

Section Algorithms.
Context {F : Type} {SF : Scalar F}.
Local Open Scope num_scope.

(** A decimal literal [p/q] with [p] and [q] below 2^53: both are exact
    in binary64 and the division rounds correctly, so the quotient is the
    double Python reads the literal as. *)
Definition lit (p q : Z) : F := ofZ p / ofZ q.

(** Modelled from the spec: [DefaultPrefs.eps] of [chebpy.core.settings],
    which is not among the sources; the spec names it machine epsilon,
    2^-52 in double precision. *)
Definition eps : F := fone / ofZ (2 ^ 52)%Z.

Definition SPLITPOINT : F := - lit 4849834917525%Z (10 ^ 15)%Z.

(** Python's [max((a, b))] and [min((a, b))]: the first item wins unless
    the second is strictly larger (smaller), so a NaN in second place is
    never selected. *)
Definition pymax2 (a b : F) : F := if b >? a then b else a.
Definition pymin2 (a b : F) : F := if b <? a then b else a.

(** *** standard_chop *)

(** Step 1: [m = b[-1]*ones(n)], then [m[j] = max((b[j], m[j+1]))] for
    [j = n-2 .. 0]. *)
Fixpoint running_max (b : list F) : list F :=
  match b with
  | [] => []
  | x :: rest =>
      match rest with
      | [] => [x * fone]
      | _ :: _ => let m := running_max rest in pymax2 x (hd fzero m) :: m
      end
  end.

(** [round(1.25*j+5)] of Python 2 (the module uses [xrange]): halves are
    rounded away from zero.  [1.25*j+5 = (5j+20)/4] is exact in binary64
    for every array index, so the result is [floor((5j+22)/4)]. *)
Definition lookahead (j : nat) : nat := (5 * j + 22) / 4.

Inductive scan : Type :=
| NoPlateau                    (* the [return cutoff] inside the loop *)
| Plateau (j j2 : nat)         (* the [break] *)
| Exhausted.                   (* the loop ends: [plateauPoint] is unbound *)

(** The test [plateau = (e1==0.) | (e2/e1>r)] at the index [j] with the
    lookahead index [j2]. *)
Definition plateau (envelope : list F) (tol : F) (j j2 : nat) : bool :=
  let e1 := nth j envelope fzero in
  let e2 := nth j2 envelope fzero in
  let r := ofZ 3%Z * (fone - flog e1 / flog tol) in
  (e1 == fzero) || (e2 / e1 >? r).

(** Step 2: the loop [for j in arange(1, n)]. *)
Fixpoint plateau_scan (envelope : list F) (tol : F) (n : nat)
         (js : list nat) : scan :=
  match js with
  | [] => Exhausted
  | j :: rest =>
      let j2 := lookahead j in
      if (n - 1 <? j2)%nat then NoPlateau
      else if plateau envelope tol j j2 then Plateau j j2
           else plateau_scan envelope tol n rest
  end.

(** [sum(envelope >= t)]. *)
Definition count_ge (l : list F) (t : F) : nat :=
  length (filter (fun e => e >=? t) l).

(** [numpy.linspace(start, stop, num)]: [num] evenly spaced samples, the
    last one set to [stop]. *)
Definition linspace (start stop : F) (num : nat) : list F :=
  match num with
  | O => []
  | S O => [start]
  | _ =>
      let step := (stop - start) / ofZ (Z.of_nat (num - 1)) in
      set_last
        (map (fun i => ofZ (Z.of_nat i) * step + start) (seq 0 num)) stop
  end.

(** [numpy.argmin]: the first index of the minimum, and the index of the
    first NaN when there is one. *)
Fixpoint argmin_from (best : F) (bi i : nat) (l : list F) : nat :=
  match l with
  | [] => bi
  | x :: rest =>
      if isnan best then bi
      else if negb (x >=? best) then argmin_from x i (S i) rest
      else argmin_from best bi (S i) rest
  end.

Definition argmin (l : list F) : option nat :=
  match l with
  | [] => None                 (* ValueError: empty sequence *)
  | x :: rest => Some (argmin_from x 0 1 rest)
  end.

(** Step 3, the branch where the envelope is not zero at the plateau. *)
Definition chop_point (envelope : list F) (tol : F) (j2 : nat) : option nat :=
  let thr := fpow tol (ofZ 7%Z / ofZ 6%Z) in
  let j3 := count_ge envelope thr in
  let '(j2, envelope) :=
    if (j3 <? j2)%nat then (j3 + 1, set_nth (j3 + 1) envelope thr)%nat
    else (j2, envelope) in
  let cc := map flog10 (firstn j2 envelope) in
  let cc := map2 add cc (linspace fzero (- fone / ofZ 3%Z * flog10 tol) j2) in
  argmin cc.

(** [None] stands for a Python exception. *)
Definition standard_chop (coeffs : list F) (tol : F) : option nat :=
  let n := length coeffs in
  if (n <? 17)%nat then Some n
  else
    let b := map fabs coeffs in
    let m := running_max b in
    if nth 0 m fzero == fzero then Some 1%nat
    else
      let envelope := map (fun x => x / nth 0 m fzero) m in
      match plateau_scan envelope tol n (seq 1 (n - 1)) with
      | NoPlateau => Some n
      | Exhausted => None
      | Plateau plateauPoint j2 =>
          match
            (if nth plateauPoint envelope fzero == fzero
             then Some plateauPoint
             else chop_point envelope tol j2)
          with
          | Some cutoff => Some (Nat.min cutoff (n - 1))
          | None => None
          end
      end.

(** *** Complex scalars and complex arrays *)

Definition cplx : Type := (F * F)%type.
Definition creal (z : cplx) : F := fst z.
Definition cimag (z : cplx) : F := snd z.
Definition cofR (x : F) : cplx := (x, fzero).
Definition czero : cplx := (fzero, fzero).
Definition cI : cplx := (fzero, fone).                       (* 1j *)
Definition cadd (z w : cplx) : cplx := (fst z + fst w, snd z + snd w).
Definition cmul (z w : cplx) : cplx :=
  (fst z * fst w - snd z * snd w, fst z * snd w + snd z * fst w).

(** [isreal(a).all()]: every imaginary part compares equal to zero. *)
Definition isreal (z : cplx) : bool := cimag z == fzero.
Definition isreal_all (a : list cplx) : bool := forallb isreal a.

Definition csum (l : list cplx) : cplx := fold_right cadd czero l.

(** Modelled from the spec: [fft] and [ifft] of [chebpy.core.ffts], which
    is not among the sources.  The spec calls them "a forward/inverse
    discrete-Fourier-transform pair operating on complex sequences"; they
    are given here by the defining sums of the discrete Fourier transform
    in numpy's convention, [A_k = sum_j a_j exp(-2 pi i j k / N)] forward
    and [a_j = (1/N) sum_k A_k exp(+2 pi i j k / N)] backward. *)
Definition twiddle (sgn : Z) (N j k : nat) : cplx :=
  let theta :=
    ofZ sgn * (ofZ 2%Z * fpi) * ofZ (Z.of_nat (j * k)) / ofZ (Z.of_nat N) in
  (fcos theta, fsin theta).

Definition dft (sgn : Z) (a : list cplx) : list cplx :=
  let N := length a in
  map (fun k =>
         csum (map (fun j => cmul (nth j a czero) (twiddle sgn N j k))
                   (seq 0 N)))
      (seq 0 N).

Definition fft (a : list cplx) : list cplx := dft (-1) a.

Definition ifft (a : list cplx) : list cplx :=
  map (fun z => cmul (cofR (fone / ofZ (Z.of_nat (length a)))) z) (dft 1 a).

(** [a[1:n-1] = c * a[1:n-1]], in place. *)
Definition scale_interior (c : cplx) (n : nat) (a : list cplx) : list cplx :=
  map (fun i =>
         let z := nth i a czero in
         if ((1 <=? i) && (i <? n - 1))%nat then cmul c z else z)
      (seq 0 (length a)).

(** *** vals2coeffs2 and coeffs2vals2 *)

Definition vals2coeffs2 (vals : list cplx) : list cplx :=
  let n := length vals in
  if (n <=? 1)%nat then vals
  else
    let tmp := rev vals ++ slice 1 (n - 1) vals in
    let coeffs :=
      if isreal_all vals then
        map (fun z => cofR (creal z)) (ifft tmp)
      else if isreal_all (map (cmul cI) vals) then
        map (fun z => cmul cI (cofR (creal z)))
            (ifft (map (fun z => cofR (cimag z)) tmp))
      else ifft tmp in
    let coeffs := firstn n coeffs in
    scale_interior (cofR (ofZ 2%Z)) n coeffs.

Definition coeffs2vals2 (coeffs : list cplx) : list cplx :=
  let n := length coeffs in
  if (n <=? 1)%nat then coeffs
  else
    let coeffs := scale_interior (cofR (lit 5 10)) n coeffs in
    let tmp := coeffs ++ rev (slice 1 (n - 1) coeffs) in
    let vals :=
      if isreal_all coeffs then
        map (fun z => cofR (creal z)) (fft tmp)
      else if isreal_all (map (cmul cI) coeffs) then
        map (fun z => cmul cI (cofR (creal z)))
            (fft (map (fun z => cofR (cimag z)) tmp))
      else fft tmp in
    rev (firstn n vals).

(** *** coeffmult *)

Definition coeffmult (fc gc : list cplx) : list cplx :=
  let Fc := map (cmul (cofR (ofZ 2%Z))) (firstn 1 fc)
                ++ skipn 1 fc ++ rev (skipn 1 fc) in
  let Gc := map (cmul (cofR (ofZ 2%Z))) (firstn 1 gc)
                ++ skipn 1 gc ++ rev (skipn 1 gc) in
  let ak := ifft (map2 cmul (fft Fc) (fft Gc)) in
  let ak := map (fun z => cmul z (cofR (lit 25 100)))
                (firstn 1 ak ++ map2 cadd (skipn 1 ak) (rev (skipn 1 ak))) in
  let ak := firstn (length fc) ak in
  let inputcfs := fc ++ gc in
  if isreal_all inputcfs then map (fun z => cofR (creal z)) ak else ak.

(** *** chebpts2 and clenshaw *)

Definition chebpts2 (n : nat) : list F :=
  if (n =? 1)%nat then [fzero]
  else
    map (fun k => fcos (ofZ (Z.of_nat k) * fpi / ofZ (Z.of_nat n - 1)))
        (rev (seq 0 n)).

(** The indices [idx[ak.size:1:-2]]: [n-1, n-3, ...], those above 1. *)
Definition clenshaw_ks (n : nat) : list nat :=
  map (fun i => n - 1 - 2 * i)%nat (seq 0 ((n - 1) / 2)).

(** Modelled from the spec: the decorator [preandpostprocess] of
    [chebpy.core.decorators] is not among the sources; by the spec it
    only turns a scalar argument into a one-point array and back, so on
    an array argument the decorated function is the function as written.
    [clenshaw1] is the body at one point of the array [xx]. *)
Definition clenshaw1 (ak : list F) (x : F) : F :=
  let bk1 := ofZ 0%Z * x in
  let bk2 := ofZ 0%Z * x in
  let xx := ofZ 2%Z * x in
  let '(bk1, bk2) :=
    fold_left
      (fun '(bk1, bk2) k =>
         let bk2 := nth k ak fzero + xx * bk1 - bk2 in
         let bk1 := nth (k - 1) ak fzero + xx * bk2 - bk1 in
         (bk1, bk2))
      (clenshaw_ks (length ak)) (bk1, bk2) in
  let '(bk1, bk2) :=
    if ((length ak - 1) mod 2 =? 1)%nat
    then (nth 1 ak fzero + xx * bk1 - bk2, bk1)
    else (bk1, bk2) in
  nth 0 ak fzero + lit 5 10 * xx * bk1 - bk2.

Definition clenshaw (xx ak : list F) : list F := map (clenshaw1 ak) xx.

(** *** bary *)

(** The sum of the entries of [a] in the order [t]. *)
Fixpoint tree_sum (t : sumtree) (a : list F) : F :=
  match t with
  | SZero => fzero
  | SLeaf i => nth i a fzero
  | SNode l r => tree_sum l a + tree_sum r a
  end.

Section Bary.
(** The orders in which [sum] and [dot] add the entries of an array of [n]
    entries. *)
Variable sum_order : nat -> sumtree.
Variable dot_order : nat -> sumtree.

(** [a.sum()] and [dot(a, b)]: the entries of [a], and the rounded
    products [a[i] * b[i]], added in the order of the library (a fused
    multiply-add in the BLAS kernel is not modelled). *)
Definition vsum (a : list F) : F := tree_sum (sum_order (length a)) a.
Definition dot (a b : list F) : F :=
  tree_sum (dot_order (length a)) (map2 mul a b).

(** The loop over the evaluation points:
    [tt = vk / (xx[i] - xk)], [out[i] = dot(tt, fk) / tt.sum()]. *)
Definition bary_point_outer (xx fk xk vk : list F) : list F :=
  map (fun x =>
         let tt := map2 div vk (map (fun xj => x - xj) xk) in
         dot tt fk / vsum tt)
      xx.

(** The loop over the nodes: [temp = vk[j] / (xx - xk[j])],
    [numer = numer + temp * fk[j]], [denom = denom + temp], and at the
    end [out = numer / denom]: here the module itself adds, node after
    node. *)
Definition bary_node_outer (xx fk xk vk : list F) : list F :=
  let zeros := map (fun _ => fzero) xx in
  let '(numer, denom) :=
    fold_left
      (fun '(numer, denom) j =>
         let temp := map (fun x => nth j vk fzero / (x - nth j xk fzero)) xx in
         (map2 add numer (map (fun t => t * nth j fk fzero) temp),
          map2 add denom temp))
      (seq 0 (length xk)) (zeros, zeros) in
  map2 div numer denom.

(** [find(x == xk)]: the indices of the nodes equal to [x]. *)
Definition find_eq (x : F) (xk : list F) : list nat :=
  filter (fun j => x == nth j xk fzero) (seq 0 (length xk)).

(** The loop [for k in find(isnan(out))]: the NaN entries of [out] are
    looked up among the nodes. *)
Definition replace_nans (out xx fk xk : list F) : list F :=
  map (fun k =>
         let o := nth k out fzero in
         if isnan o then
           match find_eq (nth k xx fzero) xk with
           | idx0 :: _ => nth idx0 fk fzero
           | [] => o
           end
         else o)
      (seq 0 (length out)).

(** [bary(xx, fk, xk, vk)] for arrays [fk], [xk], [vk] of one length;
    the decorator is the one of [clenshaw]. *)
Definition bary (xx fk xk vk : list F) : list F :=
  let out :=
    if (length xx <? 4 * length xk)%nat
    then bary_point_outer xx fk xk vk
    else bary_node_outer xx fk xk vk in
  replace_nans out xx fk xk.
End Bary.

(** *** adaptive *)

Inductive warning : Type :=
| DidNotConverge (points : nat).   (* "... did not converge: using n points" *)

Section Adaptive.
(** The class [cls] gives [_chebpts] and [_vals2coeffs]; [fun_] is the
    function sampled. *)
Variable cls_chebpts : nat -> list F.
Variable cls_vals2coeffs : list F -> list F.
Variable fun_ : list F -> list F.

(** The loop [for k in xrange(4, maxpow2+1)] over the values of [k] that
    remain; [coeffs] is the variable of that name, unbound before the
    first pass.  The result is the array returned and the warnings
    emitted; [None] is a Python exception. *)
Fixpoint adaptive_loop (maxpow2 : nat) (ks : list nat)
         (coeffs : option (list F)) : option (list F * list warning) :=
  match ks with
  | [] =>
      match coeffs with
      | Some c => Some (c, [])
      | None => None                 (* UnboundLocalError *)
      end
  | k :: rest =>
      let n := (2 ^ k + 1)%nat in
      let points := cls_chebpts n in
      let values := fun_ points in
      let coeffs := cls_vals2coeffs values in
      match standard_chop coeffs eps with
      | None => None
      | Some chplen =>
          if (chplen <? length coeffs)%nat
          then Some (firstn chplen coeffs, [])
          else if (k =? maxpow2)%nat
               then Some (coeffs, [DidNotConverge n])
               else adaptive_loop maxpow2 rest (Some coeffs)
      end
  end.

Definition adaptive (maxpow2 : nat) : option (list F * list warning) :=
  adaptive_loop maxpow2 (seq 4 (maxpow2 + 1 - 4)) None.
End Adaptive.

(** *** newtonroots *)

(** [norm(x, inf)]: the largest absolute value, a NaN if there is one;
    numpy raises on an empty array. *)
Definition npmax (a b : F) : F :=
  if isnan a then a else if isnan b then b else if a <? b then b else a.

Definition norm_inf (x : list F) : option F :=
  match map fabs x with
  | [] => None
  | a :: rest => Some (fold_left npmax rest a)
  end.

(** The defaults [tol=2*eps] and [maxiter=10]. *)
Definition newton_tol_default : F := ofZ 2%Z * eps.
Definition newton_maxiter_default : nat := 10.

Section Newton.
(** [fun_] is the callable, [dfun] the callable [fun.diff()] returns,
    [inf] numpy's [inf]. *)
Variable fun_ : list F -> list F.
Variable dfun : list F -> list F.
Variable inf : F.

(** The [while] loop, unrolled at most [fuel] times; the result is the
    final [rts] with the final [count], [None] when the fuel runs out
    or numpy raises. *)
Fixpoint newton_while (fuel : nat) (tol : F) (maxiter : nat)
         (rts prv : list F) (count : nat) : option (list F * nat) :=
  match norm_inf (map2 sub rts prv) with
  | None => None
  | Some nrm =>
      if (nrm >? tol) && (count <=? maxiter)%nat then
        match fuel with
        | O => None
        | S fuel' =>
            newton_while fuel' tol maxiter
              (map2 sub rts (map2 div (fun_ rts) (dfun rts)))
              rts (S count)
        end
      else Some (rts, count)
  end.

(** [count] is only bound when [rts] is not empty; an empty [rts] is
    returned with no step made. *)
Definition newtonroots (fuel : nat) (rts : list F) (tol : F)
           (maxiter : nat) : option (list F * nat) :=
  if (0 <? length rts)%nat
  then newton_while fuel tol maxiter rts (map (mul inf) rts) 0
  else Some (rts, 0%nat).
End Newton.

(** *** rootsunit *)

(** [numpy.sort] on an array without NaN: ascending. *)
Fixpoint insert_sorted (x : F) (l : list F) : list F :=
  match l with
  | [] => [x]
  | y :: t => if x <=? y then x :: y :: t else y :: insert_sorted x t
  end.

Definition sort (l : list F) : list F := fold_right insert_sorted [] l.

(** The factor [.5 * 1./ak[-1]] of the colleague matrix, a division by
    the last of the [n] coefficients. *)
Definition colleague_factor (n : nat) (ak : list F) : F :=
  lit 5 10 * fone / nth (n - 1) ak fzero.

(** The colleague matrix [E = C - .5 * 1./ak[-1] * D] of the [n]
    coefficients [ak], [n-1] rows of [n-1] entries. *)
Definition colleague (n : nat) (ak : list F) : list (list F) :=
  let v := lit 5 10 * fone in
  let factor := colleague_factor n ak in
  map (fun i =>
         map (fun j =>
                let c :=
                  if ((i =? 0) && (j =? 1))%nat then fone
                  else (if (i =? j + 1)%nat then v else fzero)
                       + (if (j =? i + 1)%nat then v else fzero) in
                let d := if (i =? n - 2)%nat then nth j ak fzero else fzero in
                c - factor * d)
             (seq 0 (n - 1)))
      (seq 0 (n - 1)).

(** The tail of [rootsunit]: values with a large imaginary part are
    discarded, the real parts within [1 + htol] of the origin are kept and
    sorted, and the first and last are clamped when at least two remain. *)
Definition select_roots (htol : F) (rts : list cplx) : list F :=
  let rts := map creal (filter (fun z => fabs (cimag z) <? htol) rts) in
  let rts := filter (fun r => fabs r <=? fone + htol) rts in
  let rts := sort rts in
  if (2 <=? length rts)%nat then
    let rts := set_nth 0 rts (pymax2 (nth 0 rts fzero) (ofZ (-1)%Z)) in
    set_last rts (pymin2 (last rts fzero) (ofZ 1%Z))
  else rts.

(** The default [htol = 1e2*eps]. *)
Definition htol_default : F := ofZ 100%Z * eps.

Section Rootsunit.
(** [Interval a b] is the map [Interval(a, b)] of [chebpy.core.utilities]
    applied to a point, [eigvals] is [numpy.linalg.eigvals] ([None] when it
    raises [LinAlgError]); neither is among the sources. *)
Variable Interval : F -> F -> F -> F.
Variable eigvals : list (list F) -> option (list cplx).

(** The recursion is cut after [fuel] nested calls; [None] is a Python
    exception or the fuel running out. *)
Fixpoint rootsunit (fuel : nat) (ak : list F) (htol : F) : option (list F) :=
  match fuel with
  | O => None
  | S fuel' =>
      match standard_chop ak eps with
      | None => None
      | Some n =>
          let ak := firstn n ak in
          if (50 <? n)%nat then
            let chebpts := chebpts2 (length ak) in
            let lmap := Interval (ofZ (-1)%Z) SPLITPOINT in
            let rmap := Interval SPLITPOINT (ofZ 1%Z) in
            let lpts := map lmap chebpts in
            let rpts := map rmap chebpts in
            let lval := clenshaw lpts ak in
            let rval := clenshaw rpts ak in
            let lcfs := map creal (vals2coeffs2 (map cofR lval)) in
            let rcfs := map creal (vals2coeffs2 (map cofR rval)) in
            match rootsunit fuel' lcfs (ofZ 2%Z * htol) with
            | None => None
            | Some lrts =>
                match rootsunit fuel' rcfs (ofZ 2%Z * htol) with
                | None => None
                | Some rrts => Some (map lmap lrts ++ map rmap rrts)
                end
            end
          else if (n <=? 1)%nat then Some []
          else
            match
              (if (n =? 2)%nat
               then Some [cofR (- nth 0 ak fzero / nth 1 ak fzero)]
               else eigvals (colleague n ak))
            with
            | None => None
            | Some rts => Some (select_roots htol rts)
            end
      end
  end.
End Rootsunit.

End Algorithms.


(** ** Auxiliary notions used to state the properties *)

(** An infinity or a NaN, on the specification side of binary64. *)
Definition sf_nonfinite (x : spec_float) : bool :=
  match x with S754_infinity _ | S754_nan => true | _ => false end.

(** The coefficients [adaptive] computes at the power [k], and whether the
    chop at that power is strictly shorter than they are. *)
Definition coeffs_at {F : Type} (cls_chebpts : nat -> list F)
           (cls_vals2coeffs fun_ : list F -> list F) (k : nat) : list F :=
  cls_vals2coeffs (fun_ (cls_chebpts (2 ^ k + 1))).

Definition chop_is_shorter {F : Type} {SF : Scalar F} (cls_chebpts : nat -> list F)
           (cls_vals2coeffs fun_ : list F -> list F) (k : nat) : bool :=
  match standard_chop (coeffs_at cls_chebpts cls_vals2coeffs fun_ k) eps with
  | Some chplen =>
      chplen <? length (coeffs_at cls_chebpts cls_vals2coeffs fun_ k)
  | None => false
  end.

(** Exact complex arithmetic: one, opposite, difference and conjugate (the
    module itself only adds and multiplies), the point [exp(i t)] of the
    unit circle, and the angle [2 pi d / N]. *)
Definition cone : @cplx R := (1%R, 0%R).
Definition copp (z : @cplx R) : @cplx R := (- fst z, - snd z)%R.
Definition csub (z w : @cplx R) : @cplx R := @cadd R exactR z (copp w).
Definition cconj (z : @cplx R) : @cplx R := (fst z, - snd z)%R.
Definition cis (t : R) : @cplx R := (cos t, sin t).
Definition ang (N : nat) (d : Z) : R := (2 * PI * IZR d / IZR (Z.of_nat N))%R.

(** An array that reads the same from index 1 backwards from its end:
    [a[N - m] = a[m]] for [1 <= m < N]; the arrays [tmp] of [vals2coeffs2]
    and [coeffs2vals2] are of this kind. *)
Definition mirrored (a : list (@cplx R)) : Prop :=
  forall m, 1 <= m < length a ->
            nth (length a - m) a (@czero R exactR) = nth m a (@czero R exactR).

(** The C library at the arguments that the transforms of one and of two
    points reach: the cosine and the sine of 0 and of plus and minus the
    binary64 number pi, as the correctly rounded functions give them. *)
Definition libm_half_turns : Libm :=
  {| m_log := fun _ => nan;
     m_log10 := fun _ => nan;
     m_pow := fun _ _ => nan;
     m_cos := fun x =>
       if (x =? 0)%float then 1%float
       else if (abs x =? 0x1.921fb54442d18p+1)%float then (-1)%float
       else nan;
     m_sin := fun x =>
       if (x =? 0)%float then x
       else if (x =? 0x1.921fb54442d18p+1)%float then 0x1.1a62633145c07p-53%float
       else if (x =? -0x1.921fb54442d18p+1)%float then (-0x1.1a62633145c07p-53)%float
       else nan;
     m_pi := 0x1.921fb54442d18p+1%float |}.

(** The C library at the two arguments that [standard_chop] at the default
    tolerance passes to [log] on an envelope of ones: [log(1) = 0] and the
    correctly rounded [log(2^-52)]. *)
Definition libm_logs : Libm :=
  {| m_log := fun x =>
       if (x =? 1)%float then 0%float
       else if (x =? 0x1p-52)%float then (-0x1.205966f2b4f12p+5)%float
       else nan;
     m_log10 := fun _ => nan; m_pow := fun _ _ => nan;
     m_cos := fun _ => nan; m_sin := fun _ => nan;
     m_pi := 0x1.921fb54442d18p+1%float |}.

(** A C library for the runs of the binary64 instance on explicit inputs:
    none of those runs reaches a call to it. *)
Definition no_libm : Libm :=
  {| m_log := fun _ => nan;
     m_log10 := fun _ => nan;
     m_pow := fun _ _ => nan;
     m_cos := fun _ => nan;
     m_sin := fun _ => nan;
     m_pi := nan |}.


(** ** The remaining function of the module, and the notions used to state
    what the evaluation and the root finder compute *)

Section Weights.
Context {F : Type} {SF : Scalar F}.
Local Open Scope num_scope.

(** *** barywts2 *)

(** The indices of the slice [a[start::-2]]: [start, start-2, ...], down
    to 0 or 1. *)
Definition stride_down (start : nat) : list nat :=
  map (fun i => start - 2 * i)%nat (seq 0 (start / 2 + 1)).

(** [barywts2(n)]: [array([])], [array([1])], or [n-1] ones followed by
    [.5], with [-1] written on the slice [wts[n-2::-2]] and the first entry
    halved. *)
Definition barywts2 (n : nat) : list F :=
  if (n =? 0)%nat then []
  else if (n =? 1)%nat then [ofZ 1%Z]
  else
    let wts := repeat fone (n - 1) ++ [lit 5 10] in
    let wts :=
      fold_left (fun w i => set_nth i w (ofZ (-1)%Z)) (stride_down (n - 2)) wts in
    set_nth 0 wts (lit 5 10 * nth 0 wts fzero).

End Weights.

(** The sum of a list of reals. *)
Definition rsum (l : list R) : R := fold_right Rplus 0%R l.

(** The Chebyshev polynomials of the first kind, by their recurrence
    [T0 = 1], [T1 = x], [T(k+2) = 2 x T(k+1) - T(k)]: [Tcheb_pair k x] is
    the pair of [T(k)] and [T(k+1)] at [x]. *)
Fixpoint Tcheb_pair (k : nat) (x : R) : R * R :=
  match k with
  | O => (1%R, x)
  | S k' => let '(a, b) := Tcheb_pair k' x in (b, (2 * x * b - a)%R)
  end.

Definition Tcheb (k : nat) (x : R) : R := fst (Tcheb_pair k x).

(** The value at [x] of the Chebyshev series with the coefficients [ak]:
    the sum of [ak[k] * T(k)(x)]. *)
Definition cheb_series (ak : list R) (x : R) : R :=
  rsum (map (fun k => (nth k ak 0 * Tcheb k x)%R) (seq 0 (length ak))).

(** The backward recurrence of Clenshaw, one coefficient at a time:
    for the coefficients [l] the pair of [b0] and [b1], where
    [b(k) = l[k] + 2 x b(k+1) - b(k+2)]. *)
Fixpoint clen_pair (l : list R) (x : R) : R * R :=
  match l with
  | [] => (0%R, 0%R)
  | a :: t => let '(b1, b2) := clen_pair t x in ((a + 2 * x * b1 - b2)%R, b1)
  end.

(** The product of a matrix, given by its rows, and a vector. *)
Definition matvec (M : list (list R)) (v : list R) : list R :=
  map (fun row => rsum (map2 Rmult row v)) M.

(** The binary64 number +0. *)
Definition is_pos_zero (x : float) : Prop := Prim2SF x = S754_zero false.

(** All the terms [b(0)], [b(1)], ... of the backward recurrence on [l]. *)
Fixpoint clen_list (l : list R) (x : R) : list R :=
  match l with
  | [] => []
  | a :: t => fst (clen_pair l x) :: clen_list t x
  end.

(** The sum of [l[k] * U(k)] for a sequence [U]. *)
Definition useries (l : list R) (U : nat -> R) : R :=
  rsum (map (fun k => (nth k l 0 * U k)%R) (seq 0 (length l))).

(** The weighted sum of a function over the [n] Chebyshev points, with
    the barycentric weights. *)
Definition wsum (n : nat) (f : R -> R) : R :=
  rsum (map (fun i => (nth i (@barywts2 R exactR n) 0
                       * f (nth i (@chebpts2 R exactR n) 0))%R)
            (seq 0 n)).



(** * Properties *)

(** ** Facts about arrays *)

Section ArrayFacts.
Context {A : Type}.

Lemma map2_length (f : A -> A -> A) (l1 l2 : list A) :
  length (map2 f l1 l2) = Nat.min (length l1) (length l2).
Proof.
  revert l2; induction l1 as [|x t IH]; intros [|y t2]; simpl; auto.
Qed.

Lemma nth_map2 (f : A -> A -> A) (l1 l2 : list A) (i : nat) (d : A) :
  i < length l1 -> i < length l2 ->
  nth i (map2 f l1 l2) d = f (nth i l1 d) (nth i l2 d).
Proof.
  revert l2 i; induction l1 as [|x t IH]; intros [|y t2] [|i]; simpl;
    intros H1 H2; try lia; auto.
  apply IH; lia.
Qed.

Lemma map2_map_map {B : Type} (f : A -> A -> A) (g h : B -> A) (l : list B) :
  map2 f (map g l) (map h l) = map (fun x => f (g x) (h x)) l.
Proof. induction l as [|x t IH]; simpl; congruence. Qed.

Lemma list_as_map_nth (l : list A) (d : A) :
  l = map (fun j => nth j l d) (seq 0 (length l)).
Proof.
  induction l as [|x t IH]; simpl; [reflexivity|].
  f_equal. rewrite <- seq_shift, map_map. exact IH.
Qed.

Lemma set_nth_length (i : nat) (l : list A) (v : A) :
  length (set_nth i l v) = length l.
Proof. revert i; induction l as [|x t IH]; intros [|i]; simpl; auto. Qed.

Lemma nth_set_nth_other (i j : nat) (l : list A) (v d : A) :
  i <> j -> nth j (set_nth i l v) d = nth j l d.
Proof.
  revert i j; induction l as [|x t IH]; intros [|i] [|j] Hij; simpl; auto; try lia.
Qed.

Lemma nth_set_nth_same (i : nat) (l : list A) (v d : A) :
  i < length l -> nth i (set_nth i l v) d = v.
Proof.
  revert i; induction l as [|x t IH]; intros [|i] Hi; simpl in *; auto; try lia.
  apply IH; lia.
Qed.

Lemma firstn_set_nth (i : nat) (l : list A) (v : A) :
  firstn i (set_nth i l v) = firstn i l.
Proof.
  revert i; induction l as [|x t IH]; intros [|i]; simpl; auto. now rewrite IH.
Qed.

(** The head of a filtered range is the first index that passes the test. *)
Lemma filter_seq_head (p : nat -> bool) (a n j0 : nat) (rest : list nat) :
  filter p (seq a n) = j0 :: rest ->
  p j0 = true /\ a <= j0 < a + n /\ forall i, a <= i < j0 -> p i = false.
Proof.
  revert a; induction n as [|n IH]; intros a; simpl; [discriminate|].
  destruct (p a) eqn:Hpa.
  - intros Heq; injection Heq as <- _. repeat split; auto; lia.
  - intros Heq. destruct (IH _ Heq) as (Hp & Hr & Hlt).
    repeat split; auto; try lia.
    intros i Hi. destruct (Nat.eq_dec i a) as [->|Hne]; auto. apply Hlt; lia.
Qed.

Lemma filter_seq_nonempty (p : nat -> bool) (a n j : nat) :
  a <= j < a + n -> p j = true -> filter p (seq a n) <> [].
Proof.
  intros Hj Hp Hnil.
  assert (Hin : In j (filter p (seq a n))).
  { apply filter_In; split; auto. apply in_seq; lia. }
  rewrite Hnil in Hin; contradiction.
Qed.
End ArrayFacts.

Lemma nth_map_in {A B : Type} (f : A -> B) (l : list A) (d : B) (d' : A) (i : nat) :
  i < length l -> nth i (map f l) d = f (nth i l d').
Proof.
  intros Hi. rewrite (nth_indep _ d (f d')) by (rewrite length_map; exact Hi).
  apply map_nth.
Qed.


(** ** Facts about binary64 arithmetic *)

Lemma is_nan_SF (x : float) :
  is_nan x = match Prim2SF x with S754_nan => true | _ => false end.
Proof.
  unfold is_nan. rewrite eqb_spec. unfold SFeqb.
  destruct (Prim2SF x) as [s|s| |s m e]; simpl; try reflexivity.
  - destruct s; reflexivity.
  - destruct s; rewrite Z.compare_refl, Pos.compare_cont_refl; reflexivity.
Qed.

Lemma is_infinity_SF (x : float) :
  is_infinity x = match Prim2SF x with S754_infinity _ => true | _ => false end.
Proof.
  unfold is_infinity. rewrite eqb_spec, abs_spec. unfold SFeqb.
  replace (Prim2SF infinity) with (S754_infinity false) by reflexivity.
  destruct (Prim2SF x) as [s|s| |s m e]; reflexivity.
Qed.


Lemma is_finite_SF (x : float) : is_finite x = negb (sf_nonfinite (Prim2SF x)).
Proof.
  unfold is_finite. rewrite is_nan_SF, is_infinity_SF.
  destruct (Prim2SF x); reflexivity.
Qed.

Lemma add_nonfinite_l (a b : float) :
  is_finite a = false -> is_finite (a + b) = false.
Proof.
  rewrite !is_finite_SF, add_spec. unfold SF64add, SFadd.
  destruct (Prim2SF a) as [s|s| |s m e], (Prim2SF b) as [s'|s'| |s' m' e'];
    simpl; try discriminate; try reflexivity; destruct s, s'; reflexivity.
Qed.

Lemma add_nonfinite_r (a b : float) :
  is_finite b = false -> is_finite (a + b) = false.
Proof.
  rewrite !is_finite_SF, add_spec. unfold SF64add, SFadd.
  destruct (Prim2SF a) as [s|s| |s m e], (Prim2SF b) as [s'|s'| |s' m' e'];
    simpl; try discriminate; try reflexivity; destruct s, s'; reflexivity.
Qed.

Lemma mul_nonfinite_l (a b : float) :
  is_finite a = false -> is_finite (a * b) = false.
Proof.
  rewrite !is_finite_SF, mul_spec. unfold SF64mul, SFmul.
  destruct (Prim2SF a) as [s|s| |s m e], (Prim2SF b) as [s'|s'| |s' m' e'];
    simpl; try discriminate; reflexivity.
Qed.

Lemma div_nonfinite_nan (a b : float) :
  is_finite a = false -> is_finite b = false -> is_nan (a / b) = true.
Proof.
  rewrite !is_finite_SF, is_nan_SF, div_spec. unfold SF64div, SFdiv.
  destruct (Prim2SF a) as [s|s| |s m e], (Prim2SF b) as [s'|s'| |s' m' e'];
    simpl; try discriminate; reflexivity.
Qed.

Lemma sub_eqb_zero_or_nan (x y : float) :
  (x =? y)%float = true ->
  match Prim2SF (x - y) with S754_zero _ | S754_nan => True | _ => False end.
Proof.
  rewrite eqb_spec, sub_spec. unfold SFeqb, SF64sub, SFsub.
  destruct (Prim2SF x) as [s|s| |s m e], (Prim2SF y) as [s'|s'| |s' m' e'];
    simpl; try discriminate;
    try (destruct s, s'; simpl; (discriminate || (intros _; exact I)); fail).
  destruct s, s'; try discriminate;
    destruct (Z.compare_spec e e') as [He|He|He]; try discriminate;
    rewrite Pos.compare_cont_spec; simpl;
    destruct (Pos.compare_spec m m') as [Hm|Hm|Hm]; try discriminate;
    intros _; subst; rewrite Z.pos_sub_diag; exact I.
Qed.

Lemma div_by_zero_nonfinite (v d : float) :
  match Prim2SF d with S754_zero _ | S754_nan => True | _ => False end ->
  is_finite (v / d) = false.
Proof.
  rewrite is_finite_SF, div_spec. unfold SF64div, SFdiv.
  destruct (Prim2SF v) as [s|s| |s m e], (Prim2SF d) as [s'|s'| |s' m' e'];
    simpl; try contradiction; reflexivity.
Qed.
(** ** The orders of summation *)

(** An order that adds each of [n] entries once reaches every index
    below [n], and no other. *)
Lemma adds_each_once_In (t : sumtree) (n j : nat) :
  adds_each_once t n -> (In j (leaves t) <-> j < n).
Proof.
  intros H. split.
  - intros Hin. apply (Permutation_in _ H) in Hin. apply in_seq in Hin. lia.
  - intros Hj. apply (Permutation_in _ (Permutation_sym H)). apply in_seq. lia.
Qed.

Lemma leaves_chain (t0 : sumtree) (idx : list nat) :
  leaves (chain t0 idx) = leaves t0 ++ idx.
Proof.
  unfold chain. revert t0. induction idx as [|i idx IH]; intros t0; cbn [fold_left].
  - now rewrite app_nil_r.
  - rewrite IH. cbn [leaves]. now rewrite <- app_assoc.
Qed.

Lemma loop_order_adds_each_once (n : nat) : adds_each_once (loop_order n) n.
Proof.
  unfold adds_each_once, loop_order. rewrite leaves_chain. apply Permutation_refl.
Qed.

(** The eight accumulators of numpy's unrolled loop take the entries
    [k], [8 + k], [16 + k], ... of a block of [8 m] entries; together they
    add each entry of the block once. *)
Lemma count_occ_lanes (off m x : nat) :
  count_occ Nat.eq_dec
    (concat (map (fun k => map (fun b => off + 8 * b + k) (seq 0 m)) (seq 0 8))) x
  = count_occ Nat.eq_dec (seq off (8 * m)) x.
Proof.
  induction m as [|m IH].
  - reflexivity.
  - replace (8 * S m) with (8 * m + 8) by lia.
    rewrite seq_app, count_occ_app, <- IH.
    replace (seq (off + 8 * m) 8)
      with ([off + 8 * m + 0] ++ [off + 8 * m + 1] ++ [off + 8 * m + 2]
            ++ [off + 8 * m + 3] ++ [off + 8 * m + 4] ++ [off + 8 * m + 5]
            ++ [off + 8 * m + 6] ++ [off + 8 * m + 7])
      by (cbn [seq app]; repeat (apply f_equal2; [lia|]); reflexivity).
    rewrite (seq_S m 0).
    cbn [seq map concat]. rewrite !map_app. cbn [map Nat.add].
    rewrite !app_nil_r, !count_occ_app. lia.
Qed.

Lemma lane_leaves (off k m : nat) :
  leaves (chain (SLeaf (off + k))
            (map (fun b => off + 8 * b + k) (seq 1 (S m - 1))))
  = map (fun b => off + 8 * b + k) (seq 0 (S m)).
Proof.
  rewrite leaves_chain. cbn [leaves seq map app].
  replace (S m - 1) with m by lia.
  f_equal. lia.
Qed.

Lemma pairwise_order_leaves (fuel off n : nat) :
  n <= fuel -> Permutation (leaves (pairwise_order fuel off n)) (seq off n).
Proof.
  revert off n. induction fuel as [|fuel IH]; intros off n Hn.
  - replace n with 0 by lia. apply Permutation_refl.
  - cbn [pairwise_order].
    destruct (Nat.ltb_spec n 8) as [H8|H8].
    { rewrite leaves_chain. apply Permutation_refl. }
    destruct (Nat.leb_spec n 128) as [H128|H128].
    + cbv zeta. rewrite leaves_chain. cbn [leaves].
      pose proof (Nat.div_mod_eq n 8) as Hdiv.
      pose proof (Nat.mod_upper_bound n 8 ltac:(lia)) as Hmod.
      replace (n - n mod 8) with (8 * (n / 8)) by lia.
      replace (8 * (n / 8) / 8) with (n / 8)
        by (rewrite Nat.mul_comm, Nat.div_mul; lia).
      destruct (n / 8) as [|m] eqn:Em; [lia|].
      rewrite !lane_leaves.
      replace (seq off n) with (seq off (8 * S m) ++ seq (off + 8 * S m) (n mod 8))
        by (rewrite <- seq_app; f_equal; lia).
      apply Permutation_app_tail.
      apply (Permutation_count_occ Nat.eq_dec). intros x.
      rewrite <- count_occ_lanes.
      cbn [seq map concat]. rewrite app_nil_r, <- !app_assoc. reflexivity.
    + pose proof (Nat.div_mod_eq n 2) as Hdiv.
      pose proof (Nat.mod_upper_bound n 2 ltac:(lia)) as Hmod.
      pose proof (Nat.mod_upper_bound (n / 2) 8 ltac:(lia)) as Hmod8.
      cbv zeta. cbn [leaves].
      set (n2 := n / 2 - (n / 2) mod 8).
      replace (seq off n) with (seq off n2 ++ seq (off + n2) (n - n2))
        by (rewrite <- seq_app; f_equal; unfold n2; lia).
      apply Permutation_app; apply IH; unfold n2; lia.
Qed.

(** [ndarray.sum] adds each entry once. *)
Lemma numpy_sum_order_adds_each_once (n : nat) :
  adds_each_once (numpy_sum_order n) n.
Proof.
  unfold adds_each_once, numpy_sum_order. cbn [leaves app].
  apply pairwise_order_leaves. lia.
Qed.


(** ** bary: the two loops *)

Section BaryGeneric.
Context {F : Type} {SF : Scalar F}.
Local Open Scope num_scope.

(** After the nodes [js] the loop over the nodes holds, for each point,
    the two sums of the barycentric formula accumulated from the left. *)
Lemma node_loop_state (xx fk xk vk : list F) (js : list nat) (N D : F -> F) :
  fold_left
    (fun '(numer, denom) j =>
       let temp := map (fun x => nth j vk fzero / (x - nth j xk fzero)) xx in
       (map2 add numer (map (fun t => t * nth j fk fzero) temp),
        map2 add denom temp))
    js (map N xx, map D xx)
  = (map (fun x =>
            fold_left
              (fun acc j => acc + nth j vk fzero / (x - nth j xk fzero) * nth j fk fzero)
              js (N x)) xx,
     map (fun x =>
            fold_left
              (fun acc j => acc + nth j vk fzero / (x - nth j xk fzero))
              js (D x)) xx).
Proof.
  revert N D; induction js as [|j js IH]; intros N D; simpl.
  - reflexivity.
  - rewrite map_map, !map2_map_map. apply IH.
Qed.

Lemma point_weights (x : F) (xk vk : list F) :
  length vk = length xk ->
  map2 div vk (map (fun xj => x - xj) xk)
  = map (fun j => nth j vk fzero / (x - nth j xk fzero)) (seq 0 (length xk)).
Proof.
  intros Hlen.
  rewrite (list_as_map_nth (map2 div vk (map (fun xj => x - xj) xk)) fzero).
  rewrite map2_length, length_map, Hlen, Nat.min_id.
  apply map_ext_in. intros j Hj. apply in_seq in Hj.
  rewrite nth_map2 by (rewrite ?length_map; lia).
  f_equal. rewrite (nth_indep _ fzero (x - fzero)) by (rewrite length_map; lia).
  rewrite (map_nth (fun xj => x - xj)). reflexivity.
Qed.

Lemma fold_left_map {B C : Type} (f : C -> B -> C) (g : nat -> B) (l : list nat) (a : C) :
  fold_left f (map g l) a = fold_left (fun acc j => f acc (g j)) l a.
Proof. revert a; induction l as [|x t IH]; intros a; simpl; auto. Qed.

Lemma bary_point_outer_length (so do : nat -> sumtree) (xx fk xk vk : list F) :
  length (bary_point_outer so do xx fk xk vk) = length xx.
Proof. unfold bary_point_outer. apply length_map. Qed.

Lemma bary_node_outer_nth (xx fk xk vk : list F) (k : nat) :
  k < length xx ->
  nth k (bary_node_outer xx fk xk vk) fzero
  = fold_left
      (fun acc j => acc + nth j vk fzero / (nth k xx fzero - nth j xk fzero)
                          * nth j fk fzero)
      (seq 0 (length xk)) fzero
    / fold_left
        (fun acc j => acc + nth j vk fzero / (nth k xx fzero - nth j xk fzero))
        (seq 0 (length xk)) fzero.
Proof.
  intros Hk. unfold bary_node_outer.
  rewrite (node_loop_state xx fk xk vk (seq 0 (length xk))
             (fun _ => fzero) (fun _ => fzero)).
  rewrite map2_map_map.
  rewrite (nth_map_in _ _ fzero fzero) by exact Hk. reflexivity.
Qed.

Lemma bary_node_outer_length (xx fk xk vk : list F) :
  length (bary_node_outer xx fk xk vk) = length xx.
Proof.
  unfold bary_node_outer.
  rewrite (node_loop_state xx fk xk vk (seq 0 (length xk))
             (fun _ => fzero) (fun _ => fzero)).
  rewrite map2_map_map. apply length_map.
Qed.
(** The sequential order is the loop's left fold. *)
Lemma tree_sum_chain (t0 : sumtree) (idx : list nat) (a : list F) :
  tree_sum (chain t0 idx) a
  = fold_left (fun acc i => acc + nth i a fzero) idx (tree_sum t0 a).
Proof.
  unfold chain. revert t0. induction idx as [|i idx IH]; intros t0; cbn [fold_left].
  - reflexivity.
  - rewrite IH. reflexivity.
Qed.

Lemma tree_sum_loop_order (a : list F) :
  tree_sum (loop_order (length a)) a = fold_left add a fzero.
Proof.
  unfold loop_order. rewrite tree_sum_chain. cbn [tree_sum].
  transitivity (fold_left add (map (fun j => nth j a fzero) (seq 0 (length a))) fzero).
  - now rewrite fold_left_map.
  - now rewrite <- list_as_map_nth.
Qed.

(** Were [sum] and [dot] to add from the left, as the loop over the nodes
    does, the two sums of the loop over the points would be those of the
    loop over the nodes. *)
Lemma point_sums (x : F) (fk xk vk : list F) :
  length fk = length xk -> length vk = length xk ->
  let tt := map2 div vk (map (fun xj => x - xj) xk) in
  dot loop_order tt fk =
    fold_left (fun acc j => acc + nth j vk fzero / (x - nth j xk fzero) * nth j fk fzero)
              (seq 0 (length xk)) fzero
  /\ vsum loop_order tt =
    fold_left (fun acc j => acc + nth j vk fzero / (x - nth j xk fzero))
              (seq 0 (length xk)) fzero.
Proof.
  intros Hf Hv tt.
  assert (Hlen : length tt = length xk).
  { unfold tt. rewrite map2_length, length_map, Hv. apply Nat.min_id. }
  unfold dot, vsum. split.
  - replace (length tt) with (length (map2 mul tt fk))
      by (rewrite map2_length, Hlen, Hf; apply Nat.min_id).
    rewrite tree_sum_loop_order.
    subst tt. rewrite point_weights by assumption.
    rewrite (list_as_map_nth fk fzero) at 1. rewrite Hf, map2_map_map.
    apply fold_left_map.
  - rewrite tree_sum_loop_order.
    subst tt. rewrite point_weights by assumption.
    apply fold_left_map.
Qed.

Lemma bary_loops_agree_sequential (xx fk xk vk : list F) :
  length fk = length xk -> length vk = length xk ->
  bary_node_outer xx fk xk vk = bary_point_outer loop_order loop_order xx fk xk vk.
Proof.
  intros Hf Hv. unfold bary_node_outer, bary_point_outer.
  rewrite (node_loop_state xx fk xk vk (seq 0 (length xk))
             (fun _ => fzero) (fun _ => fzero)).
  rewrite map2_map_map. apply map_ext. intros x.
  destruct (point_sums x fk xk vk Hf Hv) as [-> ->]. reflexivity.
Qed.
End BaryGeneric.

(** ** bary at a node, in binary64 *)

Section BaryBinary64.
Variable L : Libm.

Lemma fold_add_nonfinite (g : nat -> float) (js : list nat) (acc : float) :
  is_finite acc = false \/ (exists j, In j js /\ is_finite (g j) = false) ->
  is_finite (fold_left (fun a j => @add float (binary64 L) a (g j)) js acc) = false.
Proof.
  revert acc; induction js as [|i js IH]; intros acc [Hacc|(j & Hin & Hj)]; simpl.
  - exact Hacc.
  - contradiction.
  - apply IH. left. now apply add_nonfinite_l.
  - apply IH. destruct Hin as [->|Hin].
    + left. now apply add_nonfinite_r.
    + right. exists j; auto.
Qed.

(** The weight of a node that the evaluation point hits is an infinity or
    a NaN. *)
Lemma hit_weight_nonfinite (x xj v : float) :
  (x =? xj)%float = true -> is_finite (v / (x - xj)) = false.
Proof.
  intros Heq. apply div_by_zero_nonfinite. now apply sub_eqb_zero_or_nan.
Qed.

(** A sum with a term that is an infinity or a NaN is one, in whatever
    order the terms are added. *)
Lemma tree_sum_nonfinite (t : sumtree) (a : list float) (j : nat) :
  In j (leaves t) -> is_finite (nth j a 0%float) = false ->
  is_finite (@tree_sum float (binary64 L) t a) = false.
Proof.
  intros Hin Hj. induction t as [|i|l IHl r IHr]; cbn [leaves tree_sum] in *.
  - contradiction.
  - destruct Hin as [->|[]]. exact Hj.
  - apply in_app_or in Hin. destruct Hin as [Hin|Hin].
    + apply add_nonfinite_l. now apply IHl.
    + apply add_nonfinite_r. now apply IHr.
Qed.

Section Orders.
(** The orders in which [sum] and [dot] add; each entry is added once. *)
Variable sum_order dot_order : nat -> sumtree.
Hypothesis sum_order_ok : forall n, adds_each_once (sum_order n) n.
Hypothesis dot_order_ok : forall n, adds_each_once (dot_order n) n.

(** Direct barycentric division at a point that hits a node gives NaN:
    both sums contain a term that is an infinity or a NaN, and adding to
    such a term, on either side, gives an infinity or a NaN again. *)
Lemma point_outer_hit_nan (xx fk xk vk : list float) (k j : nat) :
  length fk = length xk -> length vk = length xk ->
  k < length xx -> j < length xk ->
  (nth k xx 0 =? nth j xk 0)%float = true ->
  is_nan (nth k (@bary_point_outer float (binary64 L) sum_order dot_order
                   xx fk xk vk) 0%float) = true.
Proof.
  intros Hf Hv Hk Hj Heq. unfold bary_point_outer.
  rewrite (nth_map_in _ _ 0%float 0%float) by exact Hk.
  cbv zeta.
  set (x := nth k xx 0%float).
  set (tt := map2 (@div float (binary64 L)) vk
                  (map (fun xj => @sub float (binary64 L) x xj) xk)).
  assert (Hlen : length tt = length xk).
  { unfold tt. rewrite map2_length, length_map, Hv. apply Nat.min_id. }
  assert (Htt : is_finite (nth j tt 0%float) = false).
  { unfold tt. rewrite point_weights by exact Hv.
    rewrite (nth_map_in _ _ 0%float 0%nat) by (rewrite length_seq; exact Hj).
    rewrite seq_nth by exact Hj. cbn [Nat.add].
    apply hit_weight_nonfinite. exact Heq. }
  apply div_nonfinite_nan.
  - unfold dot. apply (tree_sum_nonfinite _ _ j).
    + apply (adds_each_once_In _ (length tt)); [apply dot_order_ok|lia].
    + rewrite nth_map2 by lia. apply mul_nonfinite_l. exact Htt.
  - unfold vsum. apply (tree_sum_nonfinite _ _ j).
    + apply (adds_each_once_In _ (length tt)); [apply sum_order_ok|lia].
    + exact Htt.
Qed.

Lemma node_outer_hit_nan (xx fk xk vk : list float) (k j : nat) :
  k < length xx -> j < length xk ->
  (nth k xx 0 =? nth j xk 0)%float = true ->
  is_nan (nth k (@bary_node_outer float (binary64 L) xx fk xk vk) 0%float) = true.
Proof.
  intros Hk Hj Heq.
  pose proof (@bary_node_outer_nth float (binary64 L) xx fk xk vk k Hk) as E.
  change (nth k (@bary_node_outer float (binary64 L) xx fk xk vk) 0%float = 
          @div float (binary64 L)
            (fold_left (fun acc j => @add float (binary64 L) acc
               (@mul float (binary64 L)
                  (@div float (binary64 L) (nth j vk 0%float)
                     (@sub float (binary64 L) (nth k xx 0%float) (nth j xk 0%float)))
                  (nth j fk 0%float))) (seq 0 (length xk)) 0%float)
            (fold_left (fun acc j => @add float (binary64 L) acc
                  (@div float (binary64 L) (nth j vk 0%float)
                     (@sub float (binary64 L) (nth k xx 0%float) (nth j xk 0%float))))
               (seq 0 (length xk)) 0%float)) in E.
  rewrite E.
  apply div_nonfinite_nan.
  - apply (fold_add_nonfinite
             (fun j => @mul float (binary64 L)
                         (@div float (binary64 L) (nth j vk 0%float)
                            (@sub float (binary64 L) (nth k xx 0%float) (nth j xk 0%float)))
                         (nth j fk 0%float))).
    right. exists j. split; [apply in_seq; lia|].
    apply mul_nonfinite_l. now apply hit_weight_nonfinite.
  - apply (fold_add_nonfinite
             (fun j => @div float (binary64 L) (nth j vk 0%float)
                         (@sub float (binary64 L) (nth k xx 0%float) (nth j xk 0%float)))).
    right. exists j. split; [apply in_seq; lia|].
    now apply hit_weight_nonfinite.
Qed.

(** C5. Whenever the evaluation point [xx[k]] compares equal to a node,
    the entry [k] of the result of [bary] is the value [fk[j0]] at the
    first such node [j0]: the direct quotient is a NaN there, in whatever
    order [sum] and [dot] add, and the final loop replaces it. *)
Theorem bary_node_hit (xx fk xk vk : list float) (k j : nat) :
  length fk = length xk -> length vk = length xk ->
  k < length xx -> j < length xk ->
  (nth k xx 0 =? nth j xk 0)%float = true ->
  exists j0,
    j0 <= j
    /\ (nth k xx 0 =? nth j0 xk 0)%float = true
    /\ (forall i, i < j0 -> (nth k xx 0 =? nth i xk 0)%float = false)
    /\ nth k (@bary float (binary64 L) sum_order dot_order xx fk xk vk) 0%float
       = nth j0 fk 0%float.
Proof.
  intros Hf Hv Hk Hj Heq.
  assert (Hout : forall out, length out = length xx ->
            is_nan (nth k out 0%float) = true ->
            exists j0, j0 <= j
              /\ (nth k xx 0 =? nth j0 xk 0)%float = true
              /\ (forall i, i < j0 -> (nth k xx 0 =? nth i xk 0)%float = false)
              /\ nth k (@replace_nans float (binary64 L) out xx fk xk) 0%float = nth j0 fk 0%float).
  { intros out Hlen Hnan. unfold replace_nans. rewrite Hlen.
    rewrite (nth_map_in _ _ 0%float 0%nat) by (rewrite length_seq; exact Hk).
    rewrite seq_nth by exact Hk. cbv zeta. simpl Nat.add.
    change (@isnan float (binary64 L)) with is_nan. change (@fzero float (binary64 L)) with 0%float.
    rewrite Hnan.
    unfold find_eq.
    destruct (filter (fun j1 => @feqb float (binary64 L) (nth k xx 0%float) (nth j1 xk fzero))
                     (seq 0 (length xk))) as [|j0 rest] eqn:Hfil.
    - exfalso. revert Hfil. apply (filter_seq_nonempty _ 0 (length xk) j); [lia|exact Heq].
    - apply filter_seq_head in Hfil. destruct Hfil as (Hp & Hr & Hlt).
      exists j0. split; [|split; [|split]].
      + destruct (le_lt_dec j0 j) as [Hle|Hgt]; auto.
        exfalso. generalize (Hlt j ltac:(lia)).
        change (((nth k xx 0 =? nth j xk 0)%float = false) -> False).
        rewrite Heq. discriminate.
      + exact Hp.
      + intros i Hi. apply Hlt. lia.
      + reflexivity. }
  unfold bary. destruct (length xx <? 4 * length xk).
  - apply Hout; [apply bary_point_outer_length|].
    apply (point_outer_hit_nan xx fk xk vk k j Hf Hv Hk Hj Heq).
  - apply Hout; [apply bary_node_outer_length|].
    apply (node_outer_hit_nan xx fk xk vk k j Hk Hj Heq).
Qed.
End Orders.

End BaryBinary64.

Lemma bary_node_hit_witness :
  exists j0,
    j0 <= 1
    /\ (nth 0 [2%float] 0 =? nth j0 [1%float; 2%float; 2%float] 0)%float = true
    /\ (forall i, i < j0 ->
          (nth 0 [2%float] 0 =? nth i [1%float; 2%float; 2%float] 0)%float = false)
    /\ nth 0 (@bary float (binary64 no_libm) numpy_sum_order loop_order
                [2%float] [5%float; 6%float; 7%float]
                [1%float; 2%float; 2%float] [1%float; (-1)%float; 1%float]) 0%float
       = nth j0 [5%float; 6%float; 7%float] 0%float.
Proof.
  apply (bary_node_hit no_libm numpy_sum_order loop_order
           numpy_sum_order_adds_each_once loop_order_adds_each_once
           [2%float] [5%float; 6%float; 7%float]
           [1%float; 2%float; 2%float] [1%float; (-1)%float; 1%float] 0 1);
    simpl; try reflexivity; lia.
Defined.

(** ** newtonroots: the number of updates *)

Section NewtonGeneric.
Context {F : Type} {SF : Scalar F}.
Variable fun_ dfun : list F -> list F.
Variable inf : F.

(** The counter never passes [maxiter + 1]. *)
Lemma newton_while_count (fuel : nat) (tol : F) (maxiter : nat) :
  forall (rts prv : list F) (count : nat) (r : list F) (c : nat),
    newton_while fun_ dfun fuel tol maxiter rts prv count = Some (r, c) ->
    count <= c <= Nat.max count (S maxiter).
Proof.
  induction fuel as [|fuel IH]; intros rts prv count r c; simpl;
    destruct (norm_inf (map2 sub rts prv)) as [nrm|]; try discriminate;
    destruct (fltb tol nrm); simpl;
    destruct (count <=? maxiter) eqn:Hc; simpl; try discriminate;
    try (intros H; injection H as <- <-; lia).
  intros H. apply IH in H. apply Nat.leb_le in Hc. lia.
Qed.

(** With [maxiter + 1] units of fuel the loop is never cut short, as long
    as the callables return arrays of the length of their argument. *)
Lemma newton_while_fuel (fuel : nat) (tol : F) (maxiter : nat) :
  (forall l, length (fun_ l) = length l /\ length (dfun l) = length l) ->
  forall (rts prv : list F) (count : nat),
    S maxiter <= fuel + count ->
    rts <> [] -> length prv = length rts ->
    newton_while fun_ dfun fuel tol maxiter rts prv count <> None.
Proof.
  intros Hfun.
  induction fuel as [|fuel IH]; intros rts prv count Hf Hne Hlen;
    (assert (Hn : exists nrm, norm_inf (map2 sub rts prv) = Some nrm)
      by (destruct rts, prv; simpl in *; try congruence; try discriminate;
          eexists; reflexivity));
    destruct Hn as [nrm Hn]; simpl; rewrite Hn;
    destruct (fltb tol nrm); simpl; try discriminate;
    destruct (count <=? maxiter) eqn:Hc; try discriminate;
    apply Nat.leb_le in Hc; try lia.
  destruct (Hfun rts) as [H1 H2].
  apply IH; [lia| |].
  - intros Hnil. apply (f_equal (@length F)) in Hnil.
    rewrite !map2_length, H1, H2 in Hnil. simpl in Hnil.
    destruct rts; [congruence|simpl in Hnil; lia].
  - rewrite !map2_length, H1, H2. lia.
Qed.

Lemma newtonroots_empty (fuel : nat) (tol : F) (maxiter : nat) :
  newtonroots fun_ dfun inf fuel [] tol maxiter = Some ([], 0).
Proof. reflexivity. Qed.

Lemma newtonroots_count_bound (fuel : nat) (rts : list F) (tol : F)
      (maxiter : nat) (r : list F) (c : nat) :
  newtonroots fun_ dfun inf fuel rts tol maxiter = Some (r, c) ->
  c <= S maxiter.
Proof.
  unfold newtonroots. destruct (0 <? length rts).
  - intros H. apply newton_while_count in H. lia.
  - intros H; injection H as <- <-. lia.
Qed.
End NewtonGeneric.

(** C9. With the defaults [tol = 2*eps] and [maxiter = 10], [newtonroots]
    applied to [fun(x) = x^2 + 1] (derivative [2x]) and the estimate [2.0]
    makes eleven Newton updates before it returns: the test
    [count <= maxiter] lets the loop body run once more than [maxiter]. *)
Theorem newtonroots_default_makes_eleven_updates :
  forall (L : Libm) (fuel : nat),
    option_map snd
      (@newtonroots float (binary64 L)
         (map (fun x => x * x + 1)%float) (map (fun x => 2 * x)%float)
         infinity (12 + fuel) [2%float]
         (@newton_tol_default float (binary64 L)) newton_maxiter_default)
    = Some 11.
Proof. intros L fuel. vm_compute. reflexivity. Qed.

(** With [fun(x) = x^2 - 2] and the estimate [1.5] the loop stops by its
    tolerance after five updates, one ulp below the square root of 2. *)
Example newtonroots_sqrt2 :
  forall (L : Libm) (fuel : nat),
    @newtonroots float (binary64 L)
      (map (fun x => x * x - 2)%float) (map (fun x => 2 * x)%float)
      infinity (6 + fuel) [1.5%float]
      (@newton_tol_default float (binary64 L)) newton_maxiter_default
    = Some ([0x1.6a09e667f3bccp+0%float], 5).
Proof. intros L fuel. vm_compute. reflexivity. Qed.

(** ** rootsunit in binary64 *)

Lemma sub_nonfinite_r (a b : float) :
  is_finite b = false -> is_finite (a - b) = false.
Proof.
  rewrite !is_finite_SF, sub_spec. unfold SF64sub, SFsub.
  destruct (Prim2SF a) as [s|s| |s m e], (Prim2SF b) as [s'|s'| |s' m' e'];
    simpl; try discriminate; try reflexivity; destruct s, s'; reflexivity.
Qed.

Lemma neg_div_zero_nonfinite (c : float) : is_finite (- c / 0) = false.
Proof. apply div_by_zero_nonfinite. exact I. Qed.

Lemma abs_nonfinite_not_leb (r y : float) :
  is_finite r = false -> is_finite y = true -> (abs r <=? y)%float = false.
Proof.
  rewrite !is_finite_SF, leb_spec, abs_spec. unfold SFleb.
  destruct (Prim2SF r) as [s|s| |s m e], (Prim2SF y) as [s'|s'| |s' m' e'];
    simpl; try discriminate; reflexivity.
Qed.

Section RootsunitBinary64.
Variable L : Libm.
Variable Interval : float -> float -> float -> float.
Variable eigvals : list (list float) -> option (list (float * float)).

(** C2. The coefficients [-(1 + 2^-47), 1] of [x - (1 + 2^-47)] are
    returned unchopped, the closed form gives the single root [1 + 2^-47],
    which passes both filters at the default tolerance and is returned as
    it is: the clamp is only applied when two or more roots remain. *)
Theorem rootsunit_single_root_not_clamped :
  forall fuel : nat,
    @rootsunit float (binary64 L) Interval eigvals (S fuel)
      [(-0x1.0000000000020p+0)%float; 1%float]
      (@htol_default float (binary64 L))
    = Some [0x1.0000000000020p+0%float]
    /\ (1 <? 0x1.0000000000020p+0)%float = true.
Proof. intros fuel. split; vm_compute; reflexivity. Qed.

(** The clamp itself only moves the first entry up to -1 and the last one
    down to 1: of two candidates just above 1 the smaller one is returned
    as it is. *)
Example select_roots_two_above_one :
  @select_roots float (binary64 L) (@htol_default float (binary64 L))
    [(0x1.0000000000020p+0, 0)%float; (0x1.0000000000010p+0, 0)%float]
  = [0x1.0000000000010p+0%float; 1%float].
Proof. vm_compute. reflexivity. Qed.

(** The entry of the colleague matrix at row [i], column [j]. *)
Lemma colleague_shape (n : nat) (ak : list float) :
  length (@colleague float (binary64 L) n ak) = n - 1
  /\ forall i, i < n - 1 ->
       length (nth i (@colleague float (binary64 L) n ak) []) = n - 1.
Proof.
  unfold colleague. cbv zeta. split.
  - now rewrite length_map, length_seq.
  - intros i Hi.
    rewrite (nth_map_in _ _ [] 0) by (rewrite length_seq; exact Hi).
    now rewrite length_map, length_seq.
Qed.

Lemma colleague_factor_infinite (n : nat) (ak : list float) :
  (nth (n - 1) ak 0 =? 0)%float = true ->
  is_finite (@colleague_factor float (binary64 L) n ak) = false.
Proof.
  intros Hz. unfold colleague_factor.
  change (@fzero float (binary64 L)) with 0%float.
  apply div_by_zero_nonfinite.
  revert Hz. rewrite eqb_spec. unfold SFeqb.
  replace (Prim2SF 0) with (S754_zero false) by reflexivity.
  destruct (Prim2SF (nth (n - 1) ak 0%float)) as [s|s| |s m e];
    try destruct s; simpl; try discriminate; intros _; exact I.
Qed.

Lemma colleague_factor_is_infinity (n : nat) (ak : list float) :
  (nth (n - 1) ak 0 =? 0)%float = true ->
  is_infinity (@colleague_factor float (binary64 L) n ak) = true.
Proof.
  intros Hz. unfold colleague_factor.
  change (@fzero float (binary64 L)) with 0%float.
  change (@mul float (binary64 L) (@lit float (binary64 L) 5 10) (@fone float (binary64 L)))
    with (0.5 * 1)%float.
  change (@div float (binary64 L)) with PrimFloat.div.
  replace (0.5 * 1)%float with 0.5%float by reflexivity.
  revert Hz. rewrite is_infinity_SF, eqb_spec, div_spec. unfold SFeqb, SF64div, SFdiv.
  replace (Prim2SF 0.5) with (S754_finite false 4503599627370496 (-53)) by reflexivity.
  replace (Prim2SF 0) with (S754_zero false) by reflexivity.
  destruct (Prim2SF (nth (n - 1) ak 0%float)) as [s|s| |s m e];
    try destruct s; simpl; try discriminate; intros _; reflexivity.
Qed.

Lemma colleague_entries_nonfinite (n : nat) (ak : list float) (i j : nat) :
  (nth (n - 1) ak 0 =? 0)%float = true ->
  i < n - 1 -> j < n - 1 ->
  is_finite (nth j (nth i (@colleague float (binary64 L) n ak) []) 0%float) = false.
Proof.
  intros Hz Hi Hj. unfold colleague. cbv zeta.
  rewrite (nth_map_in _ _ [] 0) by (rewrite length_seq; exact Hi).
  rewrite (nth_map_in _ _ 0%float 0) by (rewrite length_seq; exact Hj).
  apply sub_nonfinite_r, mul_nonfinite_l, colleague_factor_infinite, Hz.
Qed.

(** C10. On the coefficients [c, 0] [standard_chop] keeps both entries,
    the divisor [ak[1]] of the closed form is zero and the quotient
    [-ak[0]/ak[1]] is an infinity or a NaN, which the filters then drop.
    On 3 to 16 coefficients the last of which compares equal to zero
    [standard_chop] keeps them all, the factor [.5 * 1./ak[-1]] of the
    colleague matrix is an infinity, the matrix has [n-1] rows of [n-1]
    entries none of which is finite, and it is this matrix that is handed
    to [eigvals].  No branch tests the divisor. *)
Theorem rootsunit_divides_by_zero :
  forall (fuel : nat) (c htol : float),
    (@standard_chop float (binary64 L) [c; 0%float]
       (@eps float (binary64 L)) = Some 2
     /\ nth 1 (firstn 2 [c; 0%float]) 0%float = 0%float
     /\ @rootsunit float (binary64 L) Interval eigvals (S fuel) [c; 0%float] htol
        = Some (@select_roots float (binary64 L) htol [(- c / 0, 0)%float])
     /\ is_finite (- c / 0) = false
     /\ @rootsunit float (binary64 L) Interval eigvals (S fuel) [c; 0%float]
          (@htol_default float (binary64 L)) = Some [])
    /\ (forall ak : list float,
          3 <= length ak <= 16 ->
          (nth (length ak - 1) ak 0 =? 0)%float = true ->
          @standard_chop float (binary64 L) ak (@eps float (binary64 L))
          = Some (length ak)
          /\ is_finite (@colleague_factor float (binary64 L) (length ak) ak) = false
          /\ is_infinity (@colleague_factor float (binary64 L) (length ak) ak) = true
          /\ @rootsunit float (binary64 L) Interval eigvals (S fuel) ak htol
             = option_map (@select_roots float (binary64 L) htol)
                 (eigvals (@colleague float (binary64 L) (length ak) ak))
          /\ length (@colleague float (binary64 L) (length ak) ak) = length ak - 1
          /\ (forall i, i < length ak - 1 ->
                length (nth i (@colleague float (binary64 L) (length ak) ak) [])
                = length ak - 1)
          /\ (forall i j, i < length ak - 1 -> j < length ak - 1 ->
                is_finite (nth j (nth i (@colleague float (binary64 L) (length ak) ak) [])
                             0%float) = false)).
Proof.
  intros fuel c htol. split.
  - split; [reflexivity|]. split; [reflexivity|]. split; [reflexivity|].
    split; [apply neg_div_zero_nonfinite|].
    change (Some (@select_roots float (binary64 L) (@htol_default float (binary64 L)) [(- c / 0, 0)%float])
            = Some []).
    f_equal. unfold select_roots.
    change (filter _ [(- c / 0, 0)%float]) with [(- c / 0, 0)%float].
    cbn [map creal fst filter].
    change (@fleb float (binary64 L) (@fabs float (binary64 L) (- c / 0)%float)
              (@add float (binary64 L) fone (@htol_default float (binary64 L))))
      with (abs (- c / 0) <=? 0x1.0000000000064p+0)%float.
    rewrite abs_nonfinite_not_leb; [reflexivity|apply neg_div_zero_nonfinite|reflexivity].
  - intros ak Hlen Hz.
    assert (Hchop : @standard_chop float (binary64 L) ak (@eps float (binary64 L))
                    = Some (length ak)).
    { unfold standard_chop. cbv zeta.
      now rewrite (proj2 (Nat.ltb_lt (length ak) 17)) by lia. }
    split; [exact Hchop|].
    split; [now apply colleague_factor_infinite|].
    split; [now apply colleague_factor_is_infinity|].
    split.
    { cbn [rootsunit]. rewrite Hchop. cbv zeta.
      rewrite firstn_all.
      rewrite (proj2 (Nat.ltb_ge 50 (length ak))) by lia.
      rewrite (proj2 (Nat.leb_gt (length ak) 1)) by lia.
      rewrite (proj2 (Nat.eqb_neq (length ak) 2)) by lia.
      destruct (eigvals _); reflexivity. }
    split; [apply colleague_shape|].
    split; [apply colleague_shape|].
    intros i j Hi Hj. now apply colleague_entries_nonfinite.
Qed.

End RootsunitBinary64.

Lemma rootsunit_divides_by_zero_witness :
  3 <= length [1%float; 2%float; 0%float] <= 16
  /\ (nth (length [1%float; 2%float; 0%float] - 1) [1%float; 2%float; 0%float] 0 =? 0)%float = true
  /\ @standard_chop float (binary64 no_libm) [1%float; 2%float; 0%float]
       (@eps float (binary64 no_libm)) = Some 3
  /\ is_infinity (@colleague_factor float (binary64 no_libm) 3
                    [1%float; 2%float; 0%float]) = true
  /\ @rootsunit float (binary64 no_libm) (fun _ _ x => x) (fun _ => Some []) 1
       [1%float; 2%float; 0%float] 1%float
     = option_map (@select_roots float (binary64 no_libm) 1%float)
         ((fun _ => Some [])
            (@colleague float (binary64 no_libm) 3 [1%float; 2%float; 0%float]))
  /\ length (@colleague float (binary64 no_libm) 3 [1%float; 2%float; 0%float]) = 2
  /\ is_finite (nth 0 (nth 1 (@colleague float (binary64 no_libm) 3
                                 [1%float; 2%float; 0%float]) []) 0%float) = false.
Proof.
  assert (H1 : 3 <= length [1%float; 2%float; 0%float] <= 16) by (simpl; lia).
  assert (H2 : (nth (length [1%float; 2%float; 0%float] - 1)
                  [1%float; 2%float; 0%float] 0 =? 0)%float = true) by reflexivity.
  destruct (rootsunit_divides_by_zero no_libm (fun _ _ x => x) (fun _ => Some [])
              0 1%float 1%float) as [_ H].
  destruct (H [1%float; 2%float; 0%float] H1 H2) as (A & _ & B & R & C & _ & D).
  split; [exact H1|]. split; [exact H2|]. split; [exact A|]. split; [exact B|].
  split; [exact R|]. split; [exact C|]. apply D; simpl; lia.
Defined.

(** ** bary in exact arithmetic: the dispatch *)

(** In exact arithmetic a sum does not depend on the order of its terms, so
    the order in which [numpy.dot] and [ndarray.sum] really accumulate is
    immaterial there. *)
Lemma vsum_exact_from (l : list R) (a : R) :
  fold_left Rplus l a = (a + fold_left Rplus l 0)%R.
Proof.
  revert a; induction l as [|x l IH]; intros a; cbn [fold_left]; [lra|].
  rewrite (IH (a + x)%R), (IH (0 + x)%R). lra.
Qed.

Lemma rsum_app2 (l l' : list R) : rsum (l ++ l') = (rsum l + rsum l')%R.
Proof.
  unfold rsum. induction l as [|x l IH]; cbn [app fold_right]; [lra|].
  rewrite IH. lra.
Qed.

Lemma rsum_permutation (l l' : list R) : Permutation l l' -> rsum l = rsum l'.
Proof.
  unfold rsum.
  induction 1 as [|x l l' _ IH|x y l|l l' l'' _ IH1 _ IH2]; cbn [fold_right].
  - reflexivity.
  - now rewrite IH.
  - lra.
  - now rewrite IH1.
Qed.

Lemma tree_sum_exact_leaves (t : sumtree) (a : list R) :
  @tree_sum R exactR t a = rsum (map (fun i => nth i a 0%R) (leaves t)).
Proof.
  induction t as [|i|l IHl r IHr]; cbn [tree_sum leaves map].
  - reflexivity.
  - unfold rsum. cbn [fold_right fzero exactR]. lra.
  - rewrite map_app, rsum_app2, IHl, IHr. reflexivity.
Qed.

(** An order that adds each of the [n] entries once gives the sum of the
    loop. *)
Lemma tree_sum_exact_order (t : sumtree) (n : nat) (a : list R) :
  adds_each_once t n ->
  @tree_sum R exactR t a = @tree_sum R exactR (loop_order n) a.
Proof.
  intros H. rewrite !tree_sum_exact_leaves.
  apply rsum_permutation, Permutation_map.
  eapply Permutation_trans; [exact H|].
  apply Permutation_sym, loop_order_adds_each_once.
Qed.

Section ExactOrders.
Variable sum_order dot_order : nat -> sumtree.
Hypothesis sum_order_ok : forall n, adds_each_once (sum_order n) n.
Hypothesis dot_order_ok : forall n, adds_each_once (dot_order n) n.

Lemma vsum_exact_order (a : list R) :
  @vsum R exactR sum_order a = @vsum R exactR loop_order a.
Proof. unfold vsum. apply tree_sum_exact_order, sum_order_ok. Qed.

Lemma dot_exact_order (a b : list R) :
  @dot R exactR dot_order a b = @dot R exactR loop_order a b.
Proof. unfold dot. apply tree_sum_exact_order, dot_order_ok. Qed.

Lemma bary_point_outer_exact_order (xx fk xk vk : list R) :
  @bary_point_outer R exactR sum_order dot_order xx fk xk vk
  = @bary_point_outer R exactR loop_order loop_order xx fk xk vk.
Proof.
  unfold bary_point_outer. apply map_ext. intros x. cbv zeta.
  now rewrite vsum_exact_order, dot_exact_order.
Qed.

Lemma point_sums_exact (x : R) (fk xk vk : list R) :
  length fk = length xk -> length vk = length xk ->
  let tt := map2 (@div R exactR) vk (map (fun xj => (x - xj)%R) xk) in
  @dot R exactR dot_order tt fk =
    fold_left (fun acc j => (acc + nth j vk 0 / (x - nth j xk 0) * nth j fk 0)%R)
              (seq 0 (length xk)) 0%R
  /\ @vsum R exactR sum_order tt =
    fold_left (fun acc j => (acc + nth j vk 0 / (x - nth j xk 0))%R)
              (seq 0 (length xk)) 0%R.
Proof.
  intros Hf Hv tt. rewrite vsum_exact_order, dot_exact_order.
  exact (@point_sums R exactR x fk xk vk Hf Hv).
Qed.

Lemma bary_loops_agree (xx fk xk vk : list R) :
  length fk = length xk -> length vk = length xk ->
  @bary_node_outer R exactR xx fk xk vk
  = @bary_point_outer R exactR sum_order dot_order xx fk xk vk.
Proof.
  intros Hf Hv. rewrite bary_point_outer_exact_order.
  now apply bary_loops_agree_sequential.
Qed.

End ExactOrders.



(** ** standard_chop: facts that hold for every scalar arithmetic *)

Section ChopGeneric.
Context {F : Type} {SF : Scalar F}.

Lemma lookahead_gt (j : nat) : j < lookahead j.
Proof.
  unfold lookahead.
  assert (H : 4 * (j + 1) <= 5 * j + 22) by lia.
  apply (Nat.Div0.div_le_mono _ _ 4) in H.
  rewrite Nat.mul_comm, Nat.div_mul in H by lia. lia.
Qed.

Lemma lookahead_mono (i j : nat) : i <= j -> lookahead i <= lookahead j.
Proof. intros H. unfold lookahead. apply Nat.Div0.div_le_mono. lia. Qed.

Lemma lookahead_ge_6 (j : nat) : 1 <= j -> 6 <= lookahead j.
Proof.
  intros H. change 6 with (lookahead 1). now apply lookahead_mono.
Qed.

Lemma running_max_length (b : list F) : length (running_max b) = length b.
Proof.
  induction b as [|x rest IH]; simpl; [reflexivity|].
  destruct rest as [|y rest']; [reflexivity|].
  simpl length in *. now rewrite IH.
Qed.

(** What each outcome of the scan over [a, a+1, ..., a+len-1] says. *)
Lemma plateau_scan_seq (envelope : list F) (tol : F) (n len : nat) :
  forall a,
    match plateau_scan envelope tol n (seq a len) with
    | NoPlateau =>
        exists j, a <= j < a + len /\ n - 1 < lookahead j
                  /\ forall j', a <= j' < j ->
                       lookahead j' <= n - 1
                       /\ plateau envelope tol j' (lookahead j') = false
    | Plateau j j2 =>
        a <= j < a + len /\ j2 = lookahead j /\ j2 <= n - 1
        /\ plateau envelope tol j j2 = true
        /\ forall j', a <= j' < j ->
             lookahead j' <= n - 1
             /\ plateau envelope tol j' (lookahead j') = false
    | Exhausted =>
        forall j', a <= j' < a + len ->
          lookahead j' <= n - 1
          /\ plateau envelope tol j' (lookahead j') = false
    end.
Proof.
  induction len as [|len IH]; intros a; simpl.
  - intros j' Hj'; lia.
  - destruct (n - 1 <? lookahead a) eqn:Hla.
    + apply Nat.ltb_lt in Hla. exists a. repeat split; try lia; intros; lia.
    + apply Nat.ltb_ge in Hla.
      destruct (plateau envelope tol a (lookahead a)) eqn:Hp.
      * repeat split; auto; try lia; intros; lia.
      * specialize (IH (S a)).
        destruct (plateau_scan envelope tol n (seq (S a) len)) as [|j j2|].
        -- destruct IH as (j & Hj & Hlook & Hbefore). exists j.
           repeat split; try lia;
             destruct (Nat.eq_dec j' a) as [->|Hne]; auto; apply Hbefore; lia.
        -- destruct IH as (Hj & Hj2 & Hle & Hpl & Hbefore).
           repeat split; auto; try lia;
             destruct (Nat.eq_dec j' a) as [->|Hne]; auto; apply Hbefore; lia.
        -- intros j' Hj'. destruct (Nat.eq_dec j' a) as [->|Hne]; auto.
           apply IH; lia.
Qed.

(** The loop of step 2 always leaves through its [return] or its [break]. *)
Lemma plateau_scan_not_exhausted (envelope : list F) (tol : F) (n : nat) :
  2 <= n -> plateau_scan envelope tol n (seq 1 (n - 1)) <> Exhausted.
Proof.
  intros Hn Hex.
  pose proof (plateau_scan_seq envelope tol n (n - 1) 1) as H.
  rewrite Hex in H. destruct (H (n - 1)) as [Hle _]; [lia|].
  pose proof (lookahead_gt (n - 1)). lia.
Qed.

Lemma linspace_length (start stop : F) (num : nat) :
  length (linspace start stop num) = num.
Proof.
  unfold linspace. destruct num as [|[|num]]; try reflexivity.
  unfold set_last. now rewrite set_nth_length, length_map, length_seq.
Qed.

Lemma argmin_from_range (l : list F) :
  forall best bi i, bi < i ->
    let d := argmin_from best bi i l in d = bi \/ i <= d < i + length l.
Proof.
  induction l as [|x rest IH]; intros best bi i Hbi; simpl.
  - now left.
  - destruct (isnan best); [now left|].
    destruct (negb (fleb best x)).
    + destruct (IH x i (S i) ltac:(lia)) as [->|H]; right; lia.
    + destruct (IH best bi (S i) ltac:(lia)) as [->|H]; [now left|right; lia].
Qed.

Lemma argmin_some (l : list F) :
  l <> [] -> exists d, argmin l = Some d /\ d < length l.
Proof.
  destruct l as [|x rest]; [congruence|]. intros _. simpl.
  eexists; split; [reflexivity|].
  destruct (argmin_from_range rest x 0 1 ltac:(lia)) as [->|H]; lia.
Qed.

(** Step 3 returns an index below the (possibly shortened) window. *)
Lemma chop_point_some (envelope : list F) (tol : F) (j2 : nat) :
  1 <= j2 <= length envelope ->
  exists d, chop_point envelope tol j2 = Some d
            /\ d < (if count_ge envelope (fpow tol (div (ofZ 7%Z) (ofZ 6%Z))) <? j2
                    then count_ge envelope (fpow tol (div (ofZ 7%Z) (ofZ 6%Z))) + 1
                    else j2).
Proof.
  intros Hj2. unfold chop_point.
  set (thr := fpow tol (div (ofZ 7%Z) (ofZ 6%Z))).
  set (j3 := count_ge envelope thr).
  destruct (j3 <? j2) eqn:Hlt.
  - apply Nat.ltb_lt in Hlt.
    destruct (argmin_some
                (map2 add (map flog10 (firstn (j3 + 1) (set_nth (j3 + 1) envelope thr)))
                   (linspace fzero (mul (div (neg fone) (ofZ 3%Z)) (flog10 tol)) (j3 + 1))))
      as (d & Hd & Hlen).
    + intros Hnil. apply (f_equal (@length F)) in Hnil.
      rewrite map2_length, length_map, length_firstn, set_nth_length,
        linspace_length in Hnil. simpl in Hnil. lia.
    + exists d. split; [exact Hd|].
      rewrite map2_length, length_map, length_firstn, set_nth_length,
        linspace_length in Hlen. lia.
  - apply Nat.ltb_ge in Hlt.
    destruct (argmin_some
                (map2 add (map flog10 (firstn j2 envelope))
                   (linspace fzero (mul (div (neg fone) (ofZ 3%Z)) (flog10 tol)) j2)))
      as (d & Hd & Hlen).
    + intros Hnil. apply (f_equal (@length F)) in Hnil.
      rewrite map2_length, length_map, length_firstn, linspace_length in Hnil.
      simpl in Hnil. lia.
    + exists d. split; [exact Hd|].
      rewrite map2_length, length_map, length_firstn, linspace_length in Hlen. lia.
Qed.

(** [standard_chop] raises no exception, and its result is never above the
    length of its argument. *)
Lemma standard_chop_total (coeffs : list F) (tol : F) :
  exists c, standard_chop coeffs tol = Some c /\ c <= length coeffs.
Proof.
  unfold standard_chop.
  destruct (length coeffs <? 17) eqn:Hn; [eexists; split; [reflexivity|lia]|].
  apply Nat.ltb_ge in Hn.
  destruct (feqb _ fzero); [eexists; split; [reflexivity|lia]|].
  set (m := running_max (map fabs coeffs)).
  set (envelope := map (fun x => div x (nth 0 m fzero)) m).
  assert (Hlen : length envelope = length coeffs).
  { unfold envelope, m. now rewrite length_map, running_max_length, length_map. }
  pose proof (plateau_scan_seq envelope tol (length coeffs) (length coeffs - 1) 1) as Hscan.
  pose proof (@plateau_scan_not_exhausted envelope tol (length coeffs) ltac:(lia)) as Hne.
  destruct (plateau_scan envelope tol (length coeffs) (seq 1 (length coeffs - 1)))
    as [|j j2|]; [eexists; split; [reflexivity|lia]| |congruence].
  destruct Hscan as (Hj & Hj2 & Hle & _).
  destruct (feqb (nth j envelope fzero) fzero).
  - eexists; split; [reflexivity|lia].
  - destruct (@chop_point_some envelope tol j2) as (d & Hd & _).
    + pose proof (lookahead_ge_6 j ltac:(lia)). lia.
    + rewrite Hd. eexists; split; [reflexivity|lia].
Qed.
(** The running maximum of an array, from an index on, depends on the
    array from that index on only. *)
Lemma running_max_skipn_any (b : list F) :
  forall i, skipn i (running_max b) = running_max (skipn i b).
Proof.
  induction b as [|x rest IH]; intros [|i]; try reflexivity.
  cbn [skipn]. rewrite <- IH.
  cbn [running_max]. destruct rest as [|y rest']; [now destruct i|reflexivity].
Qed.

Lemma nth_skipn_hd (l : list F) (i : nat) :
  nth i l fzero = nth 0 (skipn i l) fzero.
Proof.
  revert i; induction l as [|x t IH]; intros [|i]; cbn [skipn nth]; auto.
Qed.

(** [sum(envelope >= thr)] counts no entry that fails the test. *)
Lemma count_ge_below_from (envelope : list F) (thr : F) :
  forall k,
    (forall i, k <= i -> i < length envelope ->
               fleb thr (nth i envelope fzero) = false) ->
    count_ge envelope thr <= k.
Proof.
  unfold count_ge.
  induction envelope as [|x t IH]; intros k Hz; [simpl; lia|].
  cbn [filter]. destruct k as [|k].
  - pose proof (Hz 0 ltac:(lia) ltac:(simpl; lia)) as H0. cbn [nth] in H0.
    rewrite H0. apply IH. intros i Hi Hl. apply (Hz (S i)); simpl; lia.
  - assert (Ht : length (filter (fun e => fleb thr e) t) <= k).
    { apply IH. intros i Hi Hl. apply (Hz (S i)); simpl; lia. }
    destruct (fleb thr x); cbn [length]; lia.
Qed.

(** Where the envelope compares equal to zero beyond the index [k] and
    fails the test [envelope >= tol**(7/6)] there, the cutoff is the length
    itself or at most [k + 1], and it is at most [k + 1] as soon as the
    lookahead index of [k + 1] is inside the array. *)
Lemma chop_zero_tail_envelope (coeffs : list F) (tol : F) (k : nat) :
  (let m := running_max (map fabs coeffs) in
   feqb (nth 0 m fzero) fzero = false ->
   forall i, k < i -> i < length coeffs ->
     feqb (nth i (map (fun x => div x (nth 0 m fzero)) m) fzero) fzero = true
     /\ fleb (fpow tol (div (ofZ 7%Z) (ofZ 6%Z)))
             (nth i (map (fun x => div x (nth 0 m fzero)) m) fzero) = false) ->
  exists c,
    standard_chop coeffs tol = Some c
    /\ (c = length coeffs \/ c <= k + 1)
    /\ (17 <= length coeffs ->
        lookahead (k + 1) <= length coeffs - 1 -> c <= k + 1).
Proof.
  cbv zeta. intros Henv. unfold standard_chop.
  destruct (length coeffs <? 17) eqn:Hn.
  { apply Nat.ltb_lt in Hn. eexists; split; [reflexivity|]. split; [now left|lia]. }
  apply Nat.ltb_ge in Hn.
  set (m := running_max (map fabs coeffs)) in *.
  destruct (feqb (nth 0 m fzero) fzero) eqn:Hm0.
  { eexists; split; [reflexivity|]. split; [right|]; lia. }
  specialize (Henv eq_refl).
  set (envelope := map (fun x => div x (nth 0 m fzero)) m) in *.
  assert (Hlen : length envelope = length coeffs).
  { unfold envelope, m. now rewrite length_map, running_max_length, length_map. }
  assert (Hplat : forall j j2, k < j -> j < length coeffs ->
                    plateau envelope tol j j2 = true).
  { intros j j2 Hj Hjl. unfold plateau. cbv zeta.
    destruct (Henv j Hj Hjl) as [-> _]. reflexivity. }
  pose proof (plateau_scan_seq envelope tol (length coeffs) (length coeffs - 1) 1) as Hscan.
  pose proof (@plateau_scan_not_exhausted envelope tol (length coeffs)
                ltac:(lia)) as Hne.
  destruct (plateau_scan envelope tol (length coeffs) (seq 1 (length coeffs - 1)))
    as [|j j2|]; [| |congruence].
  - eexists; split; [reflexivity|]. split; [now left|]. intros _ Hlook.
    destruct Hscan as (j & Hj & Hla & Hbefore).
    destruct (le_lt_dec j (k + 1)) as [Hle|Hgt].
    + pose proof (@lookahead_mono j (k + 1) Hle). lia.
    + destruct (Hbefore (k + 1) ltac:(lia)) as [_ Hp].
      rewrite Hplat in Hp by lia. discriminate.
  - destruct Hscan as (Hj & Hj2 & Hle & Hpl & Hbefore).
    assert (Hjk : j <= k + 1).
    { destruct (le_lt_dec j (k + 1)) as [H|Hgt]; [exact H|].
      destruct (Hbefore (k + 1) ltac:(lia)) as [_ Hp].
      rewrite Hplat in Hp by lia. discriminate. }
    destruct (feqb (nth j envelope fzero) fzero).
    + eexists; split; [reflexivity|]. split; [right|]; lia.
    + destruct (@chop_point_some envelope tol j2) as (d & Hd & Hwin).
      { pose proof (@lookahead_ge_6 j ltac:(lia)). lia. }
      rewrite Hd. eexists; split; [reflexivity|].
      assert (Hj3 : count_ge envelope (fpow tol (div (ofZ 7%Z) (ofZ 6%Z))) <= k + 1).
      { apply count_ge_below_from. intros i Hi Hl.
        apply Henv; lia. }
      assert (Hdk : d <= k + 1).
      { destruct (_ <? j2) eqn:Hlt in Hwin;
          [apply Nat.ltb_lt in Hlt|apply Nat.ltb_ge in Hlt]; lia. }
      split; [right|]; lia.
Qed.
End ChopGeneric.

(** ** adaptive *)

Section AdaptiveGeneric.
Context {F : Type} {SF : Scalar F}.
Variable cls_chebpts : nat -> list F.
Variable cls_vals2coeffs : list F -> list F.
Variable fun_ : list F -> list F.

Lemma adaptive_loop_spec (maxpow2 len : nat) :
  forall (a : nat) (c0 : option (list F)),
    a + len = S maxpow2 -> 1 <= len ->
    match find (chop_is_shorter cls_chebpts cls_vals2coeffs fun_) (seq a len) with
    | Some k =>
        exists chplen,
          standard_chop (coeffs_at cls_chebpts cls_vals2coeffs fun_ k) eps = Some chplen
          /\ chplen < length (coeffs_at cls_chebpts cls_vals2coeffs fun_ k)
          /\ adaptive_loop cls_chebpts cls_vals2coeffs fun_ maxpow2 (seq a len) c0
             = Some (firstn chplen (coeffs_at cls_chebpts cls_vals2coeffs fun_ k), [])
    | None =>
        adaptive_loop cls_chebpts cls_vals2coeffs fun_ maxpow2 (seq a len) c0
        = Some (coeffs_at cls_chebpts cls_vals2coeffs fun_ maxpow2,
                [DidNotConverge (2 ^ maxpow2 + 1)])
    end.
Proof.
  induction len as [|len IH]; intros a c0 Hsum Hlen; [lia|].
  cbn [seq find adaptive_loop]. unfold chop_is_shorter at 1.
  fold (coeffs_at cls_chebpts cls_vals2coeffs fun_ a).
  destruct (standard_chop_total (coeffs_at cls_chebpts cls_vals2coeffs fun_ a) eps)
    as (chplen & Hchop & _).
  rewrite Hchop.
  destruct (chplen <? length (coeffs_at cls_chebpts cls_vals2coeffs fun_ a)) eqn:Hlt.
  - exists chplen. apply Nat.ltb_lt in Hlt. auto.
  - destruct (a =? maxpow2) eqn:Ha.
    + apply Nat.eqb_eq in Ha. subst a.
      assert (len = 0) by lia. subst len. reflexivity.
    + apply Nat.eqb_neq in Ha. apply IH; lia.
Qed.

(** C8. For [maxpow2 >= 4], if [k] is the first power in [4 .. maxpow2] at
    which [standard_chop] returns a length strictly below the number of
    coefficients, [adaptive] returns the coefficients of that power cut to
    that length and warns of nothing; if there is no such power, it
    returns all the coefficients computed at [maxpow2] together with the
    warning that [2^maxpow2 + 1] points are used. *)
Theorem adaptive_stops_at_first_chop (maxpow2 : nat) :
  4 <= maxpow2 ->
  match find (chop_is_shorter cls_chebpts cls_vals2coeffs fun_)
             (seq 4 (maxpow2 + 1 - 4)) with
  | Some k =>
      exists chplen,
        standard_chop (coeffs_at cls_chebpts cls_vals2coeffs fun_ k) eps = Some chplen
        /\ chplen < length (coeffs_at cls_chebpts cls_vals2coeffs fun_ k)
        /\ adaptive cls_chebpts cls_vals2coeffs fun_ maxpow2
           = Some (firstn chplen (coeffs_at cls_chebpts cls_vals2coeffs fun_ k), [])
  | None =>
      adaptive cls_chebpts cls_vals2coeffs fun_ maxpow2
      = Some (coeffs_at cls_chebpts cls_vals2coeffs fun_ maxpow2,
              [DidNotConverge (2 ^ maxpow2 + 1)])
  end.
Proof.
  intros Hmax. unfold adaptive. apply adaptive_loop_spec; lia.
Qed.
End AdaptiveGeneric.

(** Below the first power the loop body never runs and [coeffs] is unbound. *)
Lemma adaptive_small_maxpow2 {F : Type} {SF : Scalar F}
      (cls_chebpts : nat -> list F) (cls_vals2coeffs fun_ : list F -> list F)
      (maxpow2 : nat) :
  maxpow2 < 4 -> adaptive cls_chebpts cls_vals2coeffs fun_ maxpow2 = None.
Proof.
  intros H. unfold adaptive. replace (maxpow2 + 1 - 4) with 0 by lia. reflexivity.
Qed.

Lemma adaptive_stops_at_first_chop_witness :
  4 <= 5
  /\ @adaptive float (binary64 no_libm) (fun n => repeat 0%float n)
       (fun v => v) (fun x => x) 5
     = Some ([0%float], []).
Proof.
  split; [lia|].
  pose proof (@adaptive_stops_at_first_chop float (binary64 no_libm)
                (fun n => repeat 0%float n) (fun v => v) (fun x => x) 5
                ltac:(lia)) as H.
  vm_compute in H. destruct H as (chplen & Hc & _ & Ha).
  injection Hc as <-. exact Ha.
Defined.

(** ** standard_chop in exact arithmetic *)

Lemma Reqb_true (x y : R) : Reqb x y = true <-> x = y.
Proof. unfold Reqb. destruct (Req_dec_T x y); split; congruence. Qed.

Lemma Reqb_false (x y : R) : Reqb x y = false <-> x <> y.
Proof. unfold Reqb. destruct (Req_dec_T x y); split; congruence. Qed.

Lemma Rltb_true (x y : R) : Rltb x y = true <-> (x < y)%R.
Proof. unfold Rltb. destruct (Rlt_dec x y); split; auto; discriminate. Qed.

Lemma Rltb_false (x y : R) : Rltb x y = false <-> (y <= x)%R.
Proof.
  unfold Rltb. destruct (Rlt_dec x y); split; auto; try discriminate; lra.
Qed.

Lemma Rleb_true (x y : R) : Rleb x y = true <-> (x <= y)%R.
Proof. unfold Rleb. destruct (Rle_dec x y); split; auto; discriminate. Qed.

Lemma Rleb_false (x y : R) : Rleb x y = false <-> (y < x)%R.
Proof.
  unfold Rleb. destruct (Rle_dec x y); split; auto; try discriminate; lra.
Qed.

Lemma pymax2_exact (a b : R) : @pymax2 R exactR a b = Rmax a b.
Proof.
  unfold pymax2. cbn. unfold Rmax.
  destruct (Rltb a b) eqn:H; [apply Rltb_true in H|apply Rltb_false in H];
    destruct (Rle_dec a b); lra.
Qed.

Section EnvelopeExact.
Local Open Scope R_scope.

(** The running maximum of an array, from an index on, depends on the
    array from that index on only. *)
Lemma running_max_skipn (b : list R) :
  forall i, skipn i (@running_max R exactR b) = @running_max R exactR (skipn i b).
Proof.
  induction b as [|x rest IH]; intros [|i]; try reflexivity.
  cbn [skipn]. rewrite <- IH.
  cbn [running_max]. destruct rest as [|y rest']; [now destruct i|reflexivity].
Qed.

Lemma running_max_nonneg (b : list R) :
  Forall (fun x => 0 <= x) b ->
  Forall (fun x => 0 <= x) (@running_max R exactR b).
Proof.
  induction b as [|x rest IH]; intros Hb; [constructor|].
  inversion Hb as [|? ? Hx Hrest]; subst. specialize (IH Hrest).
  cbn [running_max]. destruct rest as [|y rest'].
  - constructor; [cbn; lra|constructor].
  - constructor; [|exact IH].
    rewrite pymax2_exact. apply Rle_trans with x; [exact Hx|apply Rmax_l].
Qed.

Lemma running_max_zero (b : list R) :
  Forall (fun x => x = 0) b ->
  Forall (fun x => x = 0) (@running_max R exactR b).
Proof.
  induction b as [|x rest IH]; intros Hb; [constructor|].
  inversion Hb as [|? ? Hx Hrest]; subst. specialize (IH Hrest).
  cbn [running_max]. destruct rest as [|y rest'].
  - constructor; [cbn; lra|constructor].
  - constructor; [|exact IH].
    rewrite pymax2_exact.
    remember (@running_max R exactR (y :: rest')) as m eqn:Hm.
    destruct m as [|m0 m']; cbn [hd].
    + cbn. rewrite Rmax_left; lra.
    + inversion IH; subst. rewrite Rmax_left; lra.
Qed.

(** Each entry of the running maximum is at least the next one. *)
Lemma running_max_step (b : list R) :
  forall i, (S i < length b)%nat ->
    nth (S i) (@running_max R exactR b) 0 <= nth i (@running_max R exactR b) 0.
Proof.
  induction b as [|x rest IH]; intros i Hi; [simpl in Hi; lia|].
  cbn [running_max]. destruct rest as [|y rest']; [simpl in Hi; lia|].
  destruct i as [|i].
  - cbn [nth]. rewrite pymax2_exact.
    remember (@running_max R exactR (y :: rest')) as m eqn:Hm.
    destruct m as [|m0 m']; cbn [hd nth]; apply Rmax_r.
  - cbn [nth]. apply IH. simpl in Hi |- *. lia.
Qed.

Lemma nth_skipn_0 (l : list R) (i : nat) : nth i l 0 = nth 0 (skipn i l) 0.
Proof.
  revert i; induction l as [|x t IH]; intros [|i]; cbn [skipn nth]; auto.
Qed.

(** Where the array is zero from some index on, so is its running maximum. *)
Lemma running_max_tail_zero (b : list R) (k : nat) :
  (forall i, (k < i)%nat -> nth i b 0 = 0) ->
  forall i, (k < i)%nat -> nth i (@running_max R exactR b) 0 = 0.
Proof.
  intros Hz i Hi. rewrite nth_skipn_0, running_max_skipn.
  assert (Hall : Forall (fun x => x = 0) (skipn i b)).
  { apply Forall_forall. intros x Hx.
    destruct (In_nth _ _ 0 Hx) as (p & Hp & <-).
    rewrite nth_skipn. apply Hz. lia. }
  apply running_max_zero in Hall.
  destruct (@running_max R exactR (skipn i b)) as [|m0 m']; [reflexivity|].
  now inversion Hall.
Qed.
End EnvelopeExact.

Section ChopExact.
Local Open Scope R_scope.

(** The envelope [m / m[0]] of an array of coefficients. *)
Lemma envelope_nth (m : list R) (m0 : R) (i : nat) :
  nth i (map (fun x => @div R exactR x m0) m) 0 = nth i m 0 / m0.
Proof.
  destruct (lt_dec i (length m)) as [Hi|Hi].
  - now rewrite (nth_map_in _ _ 0 0) by exact Hi.
  - rewrite !nth_overflow by (rewrite ?length_map; lia). unfold Rdiv; ring.
Qed.

Lemma count_ge_zero_from (envelope : list R) (thr : R) :
  0 < thr ->
  forall k, (forall i, (k <= i)%nat -> nth i envelope 0 = 0) ->
            (@count_ge R exactR envelope thr <= k)%nat.
Proof.
  intros Hthr. unfold count_ge.
  induction envelope as [|x t IH]; intros k Hz; [simpl; lia|].
  cbn [filter]. destruct k as [|k].
  - assert (Hx : x = 0) by (apply (Hz 0%nat); lia).
    replace (@fleb R exactR thr x) with false
      by (symmetry; apply Rleb_false; lra).
    apply IH. intros i Hi. apply (Hz (S i)). lia.
  - assert (Ht : (length (filter (fun e => @fleb R exactR thr e) t) <= k)%nat).
    { apply IH. intros i Hi. apply (Hz (S i)). lia. }
    destruct (@fleb R exactR thr x); cbn [length]; lia.
Qed.

Lemma Rpower_pos (x y : R) : 0 < Rpower x y.
Proof. unfold Rpower. apply exp_pos. Qed.

(** Where the envelope is zero the test for a plateau succeeds. *)
Lemma plateau_at_zero (envelope : list R) (tol : R) (j j2 : nat) :
  nth j envelope 0 = 0 -> @plateau R exactR envelope tol j j2 = true.
Proof.
  intros Hz. unfold plateau. apply orb_true_iff. left.
  apply Reqb_true. exact Hz.
Qed.

(** For coefficients that are zero beyond the index [k], at any tolerance:
    the cutoff is the length itself or at most [k + 1], and it is at most
    [k + 1] as soon as the lookahead index of [k + 1] is inside the
    array. *)
Lemma chop_zero_tail_any_tol (coeffs : list R) (tol : R) (k : nat) :
  (forall i, (k < i)%nat -> nth i coeffs 0 = 0) ->
  exists c,
    @standard_chop R exactR coeffs tol = Some c
    /\ (c = length coeffs \/ (c <= k + 1)%nat)
    /\ ((17 <= length coeffs)%nat ->
        (@lookahead (k + 1) <= length coeffs - 1)%nat -> (c <= k + 1)%nat).
Proof.
  intros Hz. unfold standard_chop.
  destruct (length coeffs <? 17)%nat eqn:Hn.
  { apply Nat.ltb_lt in Hn. eexists; split; [reflexivity|]. split; [now left|lia]. }
  apply Nat.ltb_ge in Hn.
  set (m := @running_max R exactR (map (@fabs R exactR) coeffs)).
  destruct (@feqb R exactR (nth 0 m fzero) fzero) eqn:Hm0.
  { eexists; split; [reflexivity|]. split; [right|]; lia. }
  set (envelope := map (fun x => @div R exactR x (nth 0 m fzero)) m).
  assert (Henv0 : forall i, (k < i)%nat -> nth i envelope 0 = 0).
  { intros i Hi. unfold envelope. rewrite envelope_nth.
    replace (nth i m 0) with 0; [unfold Rdiv; ring|].
    symmetry. unfold m. apply running_max_tail_zero with k; [|exact Hi].
    intros p Hp.
    destruct (lt_dec p (length coeffs)) as [Hpl|Hpl].
    - rewrite (nth_map_in _ _ 0 0) by exact Hpl. rewrite (Hz p Hp). cbn. apply Rabs_R0.
    - apply nth_overflow. rewrite length_map. lia. }
  assert (Hlen : length envelope = length coeffs).
  { unfold envelope, m. now rewrite length_map, running_max_length, length_map. }
  pose proof (plateau_scan_seq envelope tol (length coeffs) (length coeffs - 1) 1) as Hscan.
  pose proof (@plateau_scan_not_exhausted R exactR envelope tol (length coeffs)
                ltac:(lia)) as Hne.
  destruct (plateau_scan envelope tol (length coeffs) (seq 1 (length coeffs - 1)))
    as [|j j2|]; [| |congruence].
  - eexists; split; [reflexivity|]. split; [now left|]. intros _ Hlook.
    destruct Hscan as (j & Hj & Hla & Hbefore).
    destruct (le_lt_dec j (k + 1)) as [Hle|Hgt].
    + pose proof (@lookahead_mono j (k + 1) Hle). lia.
    + destruct (Hbefore (k + 1)%nat ltac:(lia)) as [_ Hp].
      rewrite plateau_at_zero in Hp by (apply Henv0; lia). discriminate.
  - destruct Hscan as (Hj & Hj2 & Hle & Hpl & Hbefore).
    assert (Hjk : (j <= k + 1)%nat).
    { destruct (le_lt_dec j (k + 1)) as [H|Hgt]; [exact H|].
      destruct (Hbefore (k + 1)%nat ltac:(lia)) as [_ Hp].
      rewrite plateau_at_zero in Hp by (apply Henv0; lia). discriminate. }
    destruct (@feqb R exactR (nth j envelope fzero) fzero).
    + eexists; split; [reflexivity|]. split; [right|]; lia.
    + destruct (@chop_point_some R exactR envelope tol j2) as (d & Hd & Hwin).
      { pose proof (@lookahead_ge_6 j ltac:(lia)). lia. }
      rewrite Hd. eexists; split; [reflexivity|].
      assert (Hj3 : (@count_ge R exactR envelope
                       (@fpow R exactR tol (@div R exactR (ofZ 7%Z) (ofZ 6%Z)))
                     <= k + 1)%nat).
      { apply count_ge_zero_from; [apply Rpower_pos|].
        intros i Hi. apply Henv0. lia. }
      assert (Hdk : (d <= k + 1)%nat).
      { destruct (_ <? j2)%nat eqn:Hlt in Hwin;
          [apply Nat.ltb_lt in Hlt|apply Nat.ltb_ge in Hlt]; lia. }
      split; [right|]; lia.
Qed.
End ChopExact.

Section ChopZeroTail.
Local Open Scope R_scope.

(** In exact arithmetic: for coefficients of length [n >= 17] that are
    zero at every index above [k], [standard_chop] at the default
    tolerance returns [n] itself or a cutoff of at most [k + 1]; it
    returns at most [k + 1] whenever the lookahead index of [k + 1] is at
    most [n - 1]. *)
Lemma standard_chop_zero_tail_exact (coeffs : list R) (k : nat) :
  (17 <= length coeffs)%nat ->
  (forall i, (k < i)%nat -> nth i coeffs 0 = 0) ->
  exists c,
    @standard_chop R exactR coeffs eps = Some c
    /\ (c = length coeffs \/ (c <= k + 1)%nat)
    /\ ((@lookahead (k + 1) <= length coeffs - 1)%nat -> (c <= k + 1)%nat).
Proof.
  intros Hn Hz.
  destruct (chop_zero_tail_any_tol coeffs eps k Hz) as (c & Hc & Hor & Hle).
  exists c. split; [exact Hc|]. split; [exact Hor|]. intros Hl. now apply Hle.
Qed.

Lemma running_max_cons2 (x y : R) (l : list R) :
  @running_max R exactR (x :: y :: l)
  = @pymax2 R exactR x (hd 0 (@running_max R exactR (y :: l)))
      :: @running_max R exactR (y :: l).
Proof. reflexivity. Qed.

(** The running maximum of sixteen (or any positive number of) ones
    followed by a zero is the array itself. *)
Lemma running_max_ones_zero (p : nat) :
  (1 <= p)%nat ->
  @running_max R exactR (map (@fabs R exactR) (repeat 1 p ++ [0]))
  = repeat 1 p ++ [0].
Proof.
  induction p as [|p IH]; intros Hp; [lia|].
  destruct p as [|p].
  - cbn [repeat app map running_max hd]. rewrite pymax2_exact. cbn.
    rewrite Rabs_R1, Rabs_R0, Rmult_0_l, Rmax_left by lra. reflexivity.
  - specialize (IH ltac:(lia)).
    change (repeat 1 (S (S p)) ++ [0]) with (1 :: (repeat 1 (S p) ++ [0])).
    cbn [map]. remember (map (@fabs R exactR) (repeat 1 (S p) ++ [0])) as l eqn:Hl.
    destruct l as [|y l']; [discriminate|].
    rewrite running_max_cons2, IH. cbn [repeat app hd].
    rewrite pymax2_exact. cbn. rewrite Rabs_R1, Rmax_left by lra. reflexivity.
Qed.

Lemma nth_ones_zero (p i : nat) :
  nth i (repeat 1 p ++ [0]) 0 = if (i <? p)%nat then 1 else 0.
Proof.
  destruct (i <? p)%nat eqn:Hi.
  - apply Nat.ltb_lt in Hi. rewrite app_nth1 by (rewrite repeat_length; lia).
    now apply nth_repeat_lt.
  - apply Nat.ltb_ge in Hi. rewrite app_nth2 by (rewrite repeat_length; lia).
    rewrite repeat_length. destruct (i - p)%nat as [|[|q]]; reflexivity.
Qed.

(** C4 as stated fails: sixteen ones followed by one zero ([n = 17], zero
    beyond [k = 15]) are not chopped at all, and [17 > k + 1 = 16]. *)
Lemma standard_chop_zero_tail_counterexample :
  let coeffs := repeat 1 16 ++ [0] in
  length coeffs = 17%nat
  /\ (forall i, (15 < i)%nat -> nth i coeffs 0 = 0)
  /\ nth 0 coeffs 0 <> 0
  /\ @standard_chop R exactR coeffs eps = Some 17%nat
  /\ ~ (17 <= 15 + 1)%nat.
Proof.
  intros coeffs. split; [reflexivity|]. split; [|split; [|split]].
  - intros i Hi. unfold coeffs. rewrite nth_ones_zero.
    destruct (i <? 16)%nat eqn:H; [apply Nat.ltb_lt in H; lia|reflexivity].
  - cbn. lra.
  - unfold standard_chop.
    change (length coeffs <? 17)%nat with false. cbv iota.
    unfold coeffs. rewrite running_max_ones_zero by lia.
    change (nth 0 (repeat 1 16 ++ [0]) (@fzero R exactR)) with 1.
    replace (@feqb R exactR 1 fzero) with false
      by (symmetry; apply Reqb_false; cbn; lra).
    replace (map (fun x => @div R exactR x 1) (repeat 1 16 ++ [0]))
      with (repeat 1 16 ++ [0])
      by (rewrite <- (map_id (repeat 1 16 ++ [0])) at 1;
          apply map_ext; intros x; cbn; lra).
    change (length (repeat 1 16 ++ [0])) with 17%nat.
    pose proof (plateau_scan_seq (repeat 1 16 ++ [0]) (@eps R exactR) 17 (17 - 1) 1)
      as Hscan.
    pose proof (@plateau_scan_not_exhausted R exactR (repeat 1 16 ++ [0])
                  (@eps R exactR) 17 ltac:(lia)) as Hne.
    destruct (plateau_scan (repeat 1 16 ++ [0]) (@eps R exactR) 17 (seq 1 (17 - 1)))
      as [|j j2|]; [reflexivity| |congruence].
    exfalso. destruct Hscan as (Hj & Hj2 & Hle & Hpl & _).
    assert (Hj9 : (j <= 9)%nat).
    { destruct (le_lt_dec j 9) as [H|H]; [exact H|]. subst j2.
      pose proof (@lookahead_mono 10 j ltac:(lia)) as Hm.
      change (@lookahead 10) with 18%nat in Hm. lia. }
    unfold plateau in Hpl. apply orb_true_iff in Hpl.
    change (@fzero R exactR) with 0 in Hpl.
    rewrite !nth_ones_zero in Hpl.
    replace (j <? 16)%nat with true in Hpl by (symmetry; apply Nat.ltb_lt; lia).
    destruct Hpl as [Hp|Hp].
    + apply Reqb_true in Hp. lra.
    + apply Rltb_true in Hp. cbn in Hp. rewrite ln_1 in Hp.
      unfold Rdiv in Hp. rewrite Rmult_0_l in Hp.
      destruct (j2 <=? 15)%nat; lra.
  - lia.
Qed.
End ChopZeroTail.

(** ** standard_chop in exact arithmetic: the cutoff is never zero *)

Section ChopRange.
Local Open Scope R_scope.

Lemma count_ge_cons (x : R) (t : list R) (thr : R) :
  @count_ge R exactR (x :: t) thr
  = ((if Rleb thr x then 1 else 0) + @count_ge R exactR t thr)%nat.
Proof.
  unfold count_ge. cbn [filter]. change (@fleb R exactR thr x) with (Rleb thr x).
  destruct (Rleb thr x); reflexivity.
Qed.

(** On a non-increasing array the entries that reach the threshold are
    exactly the first [count_ge] ones. *)
Lemma count_ge_prefix (l : list R) (thr : R) :
  (forall i, (S i < length l)%nat -> nth (S i) l 0 <= nth i l 0) ->
  forall i, (i < length l)%nat ->
            (thr <= nth i l 0 <-> (i < @count_ge R exactR l thr)%nat).
Proof.
  induction l as [|x t IH]; intros Hstep i Hi; [simpl in Hi; lia|].
  assert (Hstep' : forall i, (S i < length t)%nat -> nth (S i) t 0 <= nth i t 0).
  { intros p Hp. apply (Hstep (S p)). simpl. lia. }
  specialize (IH Hstep'). rewrite count_ge_cons.
  destruct (Rleb thr x) eqn:Hx.
  - apply Rleb_true in Hx. destruct i as [|i]; cbn [nth].
    + split; [lia|intros _; exact Hx].
    + rewrite IH by (simpl in Hi; lia). lia.
  - apply Rleb_false in Hx.
    assert (Hc : @count_ge R exactR t thr = 0%nat).
    { destruct (@count_ge R exactR t thr) as [|c] eqn:Hc; [reflexivity|exfalso].
      assert (Hlt : (0 < length t)%nat).
      { destruct t; [unfold count_ge in Hc; simpl in Hc; lia|simpl; lia]. }
      assert (H0 : thr <= nth 0 t 0) by (apply IH; lia).
      pose proof (Hstep 0%nat ltac:(simpl; lia)) as H1. cbn [nth] in H1. lra. }
    rewrite Hc. destruct i as [|i]; cbn [nth].
    + split; [lra|lia].
    + rewrite IH by (simpl in Hi; lia). rewrite Hc. lia.
Qed.

Lemma non_increasing_le (l : list R) (i j : nat) :
  (forall i, (S i < length l)%nat -> nth (S i) l 0 <= nth i l 0) ->
  (i <= j < length l)%nat -> nth j l 0 <= nth i l 0.
Proof.
  intros Hstep [Hij Hj]. induction Hij as [|j Hij IH]; [lra|].
  apply Rle_trans with (nth j l 0); [apply Hstep; lia|apply IH; lia].
Qed.

(** The entries of [linspace(0, stop, num)] for [num >= 2]. *)
Lemma linspace_nth (stop : R) (num i : nat) :
  (2 <= num)%nat -> (i < num)%nat ->
  nth i (@linspace R exactR 0 stop num) 0
  = if (i =? num - 1)%nat then stop
    else IZR (Z.of_nat i) * ((stop - 0) / IZR (Z.of_nat (num - 1))) + 0.
Proof.
  intros Hnum Hi. unfold linspace.
  destruct num as [|[|num]]; try lia.
  unfold set_last. rewrite length_map, length_seq.
  destruct (i =? S (S num) - 1)%nat eqn:He.
  - apply Nat.eqb_eq in He. subst i.
    apply nth_set_nth_same. rewrite length_map, length_seq. lia.
  - apply Nat.eqb_neq in He. rewrite nth_set_nth_other by lia.
    rewrite (nth_map_in _ _ 0 0%nat) by (rewrite length_seq; lia).
    rewrite seq_nth by lia. reflexivity.
Qed.

Lemma linspace_nth_le (stop : R) (num i : nat) :
  0 <= stop -> (2 <= num)%nat -> (i < num)%nat ->
  nth i (@linspace R exactR 0 stop num) 0 <= stop.
Proof.
  intros Hs Hnum Hi. rewrite linspace_nth by assumption.
  destruct (i =? num - 1)%nat eqn:He; [lra|]. apply Nat.eqb_neq in He.
  assert (Hn : 0 < IZR (Z.of_nat (num - 1))) by (apply IZR_lt; lia).
  assert (Hin : 0 <= IZR (Z.of_nat i) <= IZR (Z.of_nat (num - 1)))
    by (split; apply IZR_le; lia).
  rewrite Rplus_0_r, Rminus_0_r. unfold Rdiv.
  rewrite <- Rmult_assoc, (Rmult_comm (IZR (Z.of_nat i)) stop), Rmult_assoc.
  rewrite <- (Rmult_1_r stop) at 2. apply Rmult_le_compat_l; [exact Hs|].
  apply (Rmult_le_reg_r (IZR (Z.of_nat (num - 1)))); [exact Hn|].
  rewrite Rmult_assoc, Rinv_l by lra. lra.
Qed.

Lemma linspace_nth_0 (stop : R) (num : nat) :
  (2 <= num)%nat -> nth 0 (@linspace R exactR 0 stop num) 0 = 0.
Proof.
  intros Hnum. rewrite linspace_nth by lia.
  replace (0 =? num - 1)%nat with false by (symmetry; apply Nat.eqb_neq; lia).
  cbn. lra.
Qed.

(** [argmin] in exact arithmetic: an entry below the first one keeps the
    result away from index 0. *)
Lemma argmin_from_exact (rest : list R) :
  forall best bi i,
    (bi < i)%nat -> (exists y, In y rest /\ y < best) ->
    (i <= @argmin_from R exactR best bi i rest)%nat.
Proof.
  induction rest as [|x rest IH]; intros best bi i Hbi (y & Hin & Hy);
    [contradiction|].
  cbn [argmin_from]. change (@isnan R exactR best) with false. cbv iota.
  change (@fleb R exactR best x) with (Rleb best x).
  destruct (Rleb best x) eqn:Hx; cbn [negb].
  - apply Rleb_true in Hx. destruct Hin as [->|Hin]; [lra|].
    assert (H := IH best bi (S i) ltac:(lia) (ex_intro _ y (conj Hin Hy))). lia.
  - destruct (@argmin_from_range R exactR rest x i (S i) ltac:(lia)) as [->|H]; lia.
Qed.

Lemma argmin_exact_positive (l : list R) (i d : nat) :
  (1 <= i < length l)%nat -> nth i l 0 < nth 0 l 0 ->
  @argmin R exactR l = Some d -> (1 <= d)%nat.
Proof.
  destruct l as [|x rest]; [simpl; lia|]. intros Hi Hlt Hd.
  destruct i as [|i]; [lia|]. cbn [nth] in Hlt. simpl in Hi.
  cbn [argmin] in Hd. injection Hd as <-.
  apply argmin_from_exact; [lia|].
  exists (nth i rest 0). split; [apply nth_In; lia|exact Hlt].
Qed.

Lemma ln_tol_neg (tol : R) : 0 < tol < 1 -> ln tol < 0.
Proof. intros [H0 H1]. rewrite <- ln_1. now apply ln_increasing. Qed.

Lemma ln_10_pos : 0 < ln 10.
Proof. rewrite <- ln_1. apply ln_increasing; lra. Qed.

(** The curve [cc] of step 3 over a window of [w] entries: if the
    logarithm of some entry [i >= 1] of the window is below a third of the
    logarithm of the tolerance, the minimum is not at index 0. *)
Lemma cc_argmin_positive (envelope : list R) (tol : R) (w i d : nat) :
  0 < tol < 1 ->
  nth 0 envelope 0 = 1 ->
  (2 <= w <= length envelope)%nat -> (1 <= i < w)%nat ->
  ln (nth i envelope 0) < / 3 * ln tol ->
  @argmin R exactR
    (map2 (@add R exactR) (map (@flog10 R exactR) (firstn w envelope))
       (@linspace R exactR fzero
          (@mul R exactR (@div R exactR (@neg R exactR fone) (ofZ 3%Z))
             (@flog10 R exactR tol)) w)) = Some d ->
  (1 <= d)%nat.
Proof.
  intros Htol H0 Hw Hi Hln.
  pose proof (ln_tol_neg tol Htol) as Hlt. pose proof ln_10_pos as H10.
  cbn [fzero fone neg div mul ofZ flog10 exactR].
  set (stop := Ropp 1 / 3 * (ln tol / ln 10)).
  assert (Hstop : 0 < stop).
  { unfold stop. unfold Rdiv.
    replace (- (1) * / 3 * (ln tol * / ln 10)) with ((- ln tol) * (/ 3 * / ln 10)) by ring.
    apply Rmult_lt_0_compat; [lra|].
    apply Rmult_lt_0_compat; [lra|now apply Rinv_0_lt_compat]. }
  apply (argmin_exact_positive _ i).
  - rewrite map2_length, length_map, length_firstn, linspace_length. lia.
  - rewrite !nth_map2
      by (rewrite ?length_map, ?length_firstn, ?linspace_length; lia).
    rewrite !(nth_map_in _ _ 0 0) by (rewrite length_firstn; lia).
    rewrite !nth_firstn.
    replace (i <? w)%nat with true by (symmetry; apply Nat.ltb_lt; lia).
    replace (0 <? w)%nat with true by (symmetry; apply Nat.ltb_lt; lia).
    rewrite H0, linspace_nth_0 by lia.
    pose proof (linspace_nth_le stop w i ltac:(lra) ltac:(lia) ltac:(lia)) as Hlin.
    cbn [add exactR]. rewrite ln_1.
    replace (0 / ln 10 + 0) with 0 by (unfold Rdiv; ring).
    assert (Hl10 : ln (nth i envelope 0) / ln 10 < - stop).
    { unfold stop, Rdiv.
      replace (- (- (1) * / 3 * (ln tol * / ln 10))) with ((/ 3 * ln tol) * / ln 10) by ring.
      apply Rmult_lt_compat_r; [now apply Rinv_0_lt_compat|exact Hln]. }
    lra.
Qed.
End ChopRange.

Section ChopCutoff.
Local Open Scope R_scope.

(** At a plateau where the envelope is not zero, the envelope is below
    [tol^(2/3)]. *)
Lemma plateau_envelope_small (envelope : list R) (tol : R) (j j2 : nat) :
  0 < tol < 1 ->
  (forall i, 0 <= nth i envelope 0) ->
  (forall i, (S i < length envelope)%nat ->
             nth (S i) envelope 0 <= nth i envelope 0) ->
  (j <= j2 < length envelope)%nat ->
  @plateau R exactR envelope tol j j2 = true ->
  nth j envelope 0 <> 0 ->
  ln (nth j envelope 0) < 2 / 3 * ln tol.
Proof.
  intros Htol Hnn Hstep Hj Hpl Hnz.
  pose proof (ln_tol_neg tol Htol) as Hlt.
  unfold plateau in Hpl. apply orb_true_iff in Hpl.
  destruct Hpl as [Hp|Hp]; [apply Reqb_true in Hp; contradiction|].
  apply Rltb_true in Hp. cbn [fzero fone sub mul div ofZ flog exactR] in Hp.
  set (e1 := nth j envelope 0) in *. set (e2 := nth j2 envelope 0) in *.
  assert (He1 : 0 < e1) by (pose proof (Hnn j); fold e1 in H; lra).
  assert (He2 : e2 <= e1) by (apply non_increasing_le; assumption).
  assert (Hq : e2 / e1 <= 1).
  { unfold Rdiv. apply (Rmult_le_reg_r e1); [exact He1|].
    rewrite Rmult_assoc, Rinv_l by lra. lra. }
  set (q := ln e1 / ln tol) in *.
  assert (Hq23 : 2 / 3 < q) by lra.
  assert (Hln : ln e1 = q * ln tol) by (unfold q; field; lra).
  rewrite Hln. nra.
Qed.

(** Step 3 never selects index 0. *)
Lemma chop_point_positive (envelope : list R) (tol : R) (j j2 d : nat) :
  0 < tol < 1 ->
  nth 0 envelope 0 = 1 ->
  (forall i, 0 <= nth i envelope 0) ->
  (forall i, (S i < length envelope)%nat ->
             nth (S i) envelope 0 <= nth i envelope 0) ->
  (1 <= j < j2)%nat -> (2 <= j2 < length envelope)%nat ->
  @plateau R exactR envelope tol j j2 = true ->
  nth j envelope 0 <> 0 ->
  @chop_point R exactR envelope tol j2 = Some d ->
  (1 <= d)%nat.
Proof.
  intros Htol H0 Hnn Hstep Hj Hj2 Hpl Hnz.
  pose proof (ln_tol_neg tol Htol) as Hlt.
  pose proof (plateau_envelope_small envelope tol j j2 Htol Hnn Hstep
                ltac:(lia) Hpl Hnz) as Hsmall.
  unfold chop_point.
  set (thr := @fpow R exactR tol (@div R exactR (ofZ 7%Z) (ofZ 6%Z))).
  set (j3 := @count_ge R exactR envelope thr).
  assert (Hthr : ln thr = 7 / 6 * ln tol).
  { unfold thr. cbn. unfold Rpower. apply ln_exp. }
  assert (Hthr1 : thr < 1).
  { unfold thr. cbn. unfold Rpower. rewrite <- exp_0. apply exp_increasing. nra. }
  assert (Hthr0 : 0 < thr) by (apply Rpower_pos).
  assert (Hj3 : (1 <= j3)%nat).
  { apply (count_ge_prefix envelope thr Hstep 0 ltac:(lia)). lra. }
  destruct (j3 <? j2)%nat eqn:Hc.
  - apply Nat.ltb_lt in Hc. rewrite firstn_set_nth.
    destruct (le_lt_dec j j3) as [Hle|Hgt].
    + apply (cc_argmin_positive envelope tol (j3 + 1) j d Htol H0); [lia|lia|lra].
    + apply (cc_argmin_positive envelope tol (j3 + 1) j3 d Htol H0); [lia|lia|].
      assert (Hb : nth j3 envelope 0 < thr).
      { destruct (Rlt_le_dec (nth j3 envelope 0) thr) as [H|H]; [exact H|].
        apply (count_ge_prefix envelope thr Hstep j3 ltac:(lia)) in H.
        fold j3 in H. lia. }
      assert (Hp : 0 < nth j3 envelope 0).
      { pose proof (non_increasing_le envelope j3 j Hstep ltac:(lia)).
        pose proof (Hnn j). lra. }
      pose proof (ln_increasing _ _ Hp Hb). lra.
  - apply Nat.ltb_ge in Hc.
    apply (cc_argmin_positive envelope tol j2 j d Htol H0); [lia|lia|lra].
Qed.

(** The envelope [m / m[0]] built by step 1: it starts at 1, is nowhere
    negative and never increases. *)
Lemma envelope_shape (coeffs : list R) :
  let m := @running_max R exactR (map (@fabs R exactR) coeffs) in
  let envelope := map (fun x => @div R exactR x (nth 0 m 0)) m in
  nth 0 m 0 <> 0 ->
  nth 0 envelope 0 = 1
  /\ (forall i, 0 <= nth i envelope 0)
  /\ (forall i, (S i < length envelope)%nat ->
                nth (S i) envelope 0 <= nth i envelope 0).
Proof.
  intros m envelope Hm0.
  assert (Hnn : forall i, 0 <= nth i m 0).
  { intros i. destruct (lt_dec i (length m)) as [Hi|Hi].
    - assert (Hall : Forall (fun x => 0 <= x) m).
      { apply running_max_nonneg. apply Forall_forall. intros x Hx.
        apply in_map_iff in Hx. destruct Hx as (y & <- & _). cbn. apply Rabs_pos. }
      rewrite Forall_forall in Hall. apply Hall. now apply nth_In.
    - rewrite nth_overflow by lia. lra. }
  assert (Hpos : 0 < nth 0 m 0) by (pose proof (Hnn 0%nat); lra).
  assert (Hinv : 0 < / nth 0 m 0) by (now apply Rinv_0_lt_compat).
  unfold envelope. split; [|split].
  - rewrite envelope_nth. field. exact Hm0.
  - intros i. rewrite envelope_nth. unfold Rdiv.
    apply Rmult_le_pos; [apply Hnn|lra].
  - intros i Hi. rewrite !envelope_nth. unfold Rdiv.
    apply Rmult_le_compat_r; [lra|].
    apply running_max_step.
    rewrite length_map in Hi. unfold m in Hi.
    now rewrite running_max_length in Hi.
Qed.

(** C3, amended. In exact arithmetic, for coefficients of any length [n]
    and a tolerance strictly between 0 and 1, [standard_chop] returns a
    cutoff that is [n] itself or lies between 1 and [n - 1]; it is never
    above [n], and it is never 0 unless the array is empty.  (The minimum
    of step 3 is not at index 0 because the curve [cc] is 0 there and
    negative at the plateau point or at the last index of the shortened
    window, two entries where the envelope is not zero.) *)
Theorem standard_chop_cutoff_range (coeffs : list R) (tol : R) :
  0 < tol < 1 ->
  exists c,
    @standard_chop R exactR coeffs tol = Some c
    /\ (c = length coeffs \/ (1 <= c <= length coeffs - 1)%nat)
    /\ (c <= length coeffs)%nat
    /\ ((1 <= length coeffs)%nat -> c <> 0%nat).
Proof.
  intros Htol.
  destruct (@standard_chop_total R exactR coeffs tol) as (c & Hc & Hle).
  exists c. split; [exact Hc|].
  assert (Hmain : c = length coeffs \/ (1 <= c <= length coeffs - 1)%nat).
  { revert Hc. unfold standard_chop.
    destruct (length coeffs <? 17)%nat eqn:Hn.
    { intros H; injection H as <-. now left. }
    apply Nat.ltb_ge in Hn.
    set (m := @running_max R exactR (map (@fabs R exactR) coeffs)).
    destruct (@feqb R exactR (nth 0 m fzero) fzero) eqn:Hm0.
    { intros H; injection H as <-. right. lia. }
    apply Reqb_false in Hm0.
    destruct (envelope_shape coeffs Hm0) as (H0 & Hnn & Hstep). fold m in H0, Hnn, Hstep.
    set (envelope := map (fun x => @div R exactR x (nth 0 m fzero)) m) in *.
    assert (Hlen : length envelope = length coeffs).
    { unfold envelope, m. now rewrite length_map, running_max_length, length_map. }
    pose proof (plateau_scan_seq envelope tol (length coeffs) (length coeffs - 1) 1)
      as Hscan.
    destruct (plateau_scan envelope tol (length coeffs) (seq 1 (length coeffs - 1)))
      as [|j j2|]; [intros H; injection H as <-; now left| |discriminate].
    destruct Hscan as (Hj & Hj2 & Hle2 & Hpl & _).
    pose proof (@lookahead_gt j) as Hgt.
    destruct (@feqb R exactR (nth j envelope fzero) fzero) eqn:Hz.
    - intros H; injection H as <-. right. lia.
    - apply Reqb_false in Hz.
      destruct (@chop_point R exactR envelope tol j2) as [d|] eqn:Hd; [|discriminate].
      intros H; injection H as <-. right.
      assert (1 <= d)%nat.
      { apply (chop_point_positive envelope tol j j2 d Htol H0 Hnn Hstep);
          try assumption; lia. }
      lia. }
  split; [exact Hmain|]. split; [exact Hle|]. lia.
Qed.

Lemma standard_chop_cutoff_range_witness :
  exists c,
    @standard_chop R exactR [1; 2; 3] (/ 2) = Some c
    /\ (c = length [1; 2; 3] \/ (1 <= c <= length [1; 2; 3] - 1)%nat)
    /\ (c <= length [1; 2; 3])%nat
    /\ ((1 <= length [1; 2; 3])%nat -> c <> 0%nat).
Proof.
  apply (standard_chop_cutoff_range [1; 2; 3] (/ 2)). lra.
Defined.

(** C3 as stated fails on the empty array: its length 0 is below 17 and is
    returned as the cutoff. *)
Lemma standard_chop_empty_counterexample :
  0 < / 2 < 1 /\ @standard_chop R exactR [] (/ 2) = Some 0%nat.
Proof. split; [lra|reflexivity]. Qed.
End ChopCutoff.

(** ** Exact complex arithmetic and finite sums *)

Local Infix "+c" := (@cadd R exactR) (at level 50, left associativity).
Local Infix "*c" := (@cmul R exactR) (at level 40, left associativity).
Local Notation "0c" := (@czero R exactR).

Lemma cplx_ring_theory :
  ring_theory (@czero R exactR) cone (@cadd R exactR) (@cmul R exactR) csub copp eq.
Proof.
  constructor; intros; unfold csub, copp, cone, cadd, cmul, czero;
    repeat match goal with z : cplx |- _ => destruct z end;
    cbn; f_equal; ring.
Qed.

Add Ring cplx_ring : cplx_ring_theory.

(** A product is zero only if a factor is. *)
Lemma cmul_integral (z w : @cplx R) : z *c w = 0c -> z <> 0c -> w = 0c.
Proof.
  destruct z as [a b], w as [c d]. unfold cmul, czero; cbn.
  intros H Hz. injection H as H1 H2.
  assert (Hn : (a * a + b * b)%R <> 0%R).
  { intros Hs. apply Hz. f_equal; nra. }
  assert (Hc : ((a * a + b * b) * c = 0)%R).
  { replace ((a * a + b * b) * c)%R with (a * (a * c - b * d) + b * (a * d + b * c))%R
      by ring. rewrite H1, H2. ring. }
  assert (Hd : ((a * a + b * b) * d = 0)%R).
  { replace ((a * a + b * b) * d)%R with (a * (a * d + b * c) - b * (a * c - b * d))%R
      by ring. rewrite H1, H2. ring. }
  apply Rmult_integral in Hc, Hd.
  f_equal; tauto.
Qed.

Section Sums.
Local Open Scope R_scope.

Lemma csum_cons (z : @cplx R) (l : list (@cplx R)) :
  @csum R exactR (z :: l) = z +c @csum R exactR l.
Proof. reflexivity. Qed.

Lemma csum_ext (f g : nat -> @cplx R) (a n : nat) :
  (forall i, (a <= i < a + n)%nat -> f i = g i) ->
  @csum R exactR (map f (seq a n)) = @csum R exactR (map g (seq a n)).
Proof.
  intros H. f_equal. apply map_ext_in. intros i Hi. apply in_seq in Hi. now apply H.
Qed.

Lemma csum_add (f g : nat -> @cplx R) (l : list nat) :
  @csum R exactR (map (fun i => f i +c g i) l)
  = @csum R exactR (map f l) +c @csum R exactR (map g l).
Proof.
  induction l as [|x l IH]; cbn [map]; rewrite ?csum_cons.
  - cbn. unfold cadd, czero; cbn. f_equal; ring.
  - rewrite IH. ring.
Qed.

Lemma csum_scal_l (c : @cplx R) (f : nat -> @cplx R) (l : list nat) :
  @csum R exactR (map (fun i => c *c f i) l) = c *c @csum R exactR (map f l).
Proof.
  induction l as [|x l IH]; cbn [map]; rewrite ?csum_cons.
  - cbn. unfold cmul, czero; cbn. f_equal; ring.
  - rewrite IH. ring.
Qed.

Lemma csum_scal_r (c : @cplx R) (f : nat -> @cplx R) (l : list nat) :
  @csum R exactR (map (fun i => f i *c c) l) = @csum R exactR (map f l) *c c.
Proof.
  induction l as [|x l IH]; cbn [map]; rewrite ?csum_cons.
  - cbn. unfold cmul, czero; cbn. f_equal; ring.
  - rewrite IH. ring.
Qed.

Lemma csum_zero (l : list nat) :
  @csum R exactR (map (fun _ => 0c) l) = 0c.
Proof.
  induction l as [|x l IH]; cbn [map]; rewrite ?csum_cons; [reflexivity|].
  rewrite IH. ring.
Qed.

(** Two nested sums commute. *)
Lemma csum_exchange (f : nat -> nat -> @cplx R) (l1 l2 : list nat) :
  @csum R exactR (map (fun i => @csum R exactR (map (fun j => f i j) l2)) l1)
  = @csum R exactR (map (fun j => @csum R exactR (map (fun i => f i j) l1)) l2).
Proof.
  induction l1 as [|x l1 IH]; cbn [map]; rewrite ?csum_cons.
  - cbn [csum fold_right]. now rewrite csum_zero.
  - rewrite IH. rewrite <- csum_add. reflexivity.
Qed.

(** A sum whose terms vanish except at the index [k]. *)
Lemma csum_single (f : nat -> @cplx R) (a n k : nat) :
  (a <= k < a + n)%nat ->
  (forall i, (a <= i < a + n)%nat -> i <> k -> f i = 0c) ->
  @csum R exactR (map f (seq a n)) = f k.
Proof.
  revert a; induction n as [|n IH]; intros a Hk Hz; [lia|].
  cbn [seq map]. rewrite csum_cons.
  destruct (Nat.eq_dec a k) as [->|Hne].
  - rewrite (csum_ext f (fun _ => 0c)) by (intros i Hi; apply Hz; lia).
    rewrite csum_zero. ring.
  - rewrite (Hz a) by lia. rewrite IH; [ring|lia|].
    intros i Hi Hik. apply Hz; lia.
Qed.

(** A sum read backwards. *)
Lemma csum_app (l1 l2 : list (@cplx R)) :
  @csum R exactR (l1 ++ l2) = @csum R exactR l1 +c @csum R exactR l2.
Proof.
  induction l1 as [|x l1 IH]; cbn [app]; rewrite ?csum_cons.
  - cbn. unfold cadd, czero. destruct (csum l2); cbn. f_equal; ring.
  - rewrite IH. ring.
Qed.

Lemma csum_rev (l : list (@cplx R)) :
  @csum R exactR (rev l) = @csum R exactR l.
Proof.
  induction l as [|x l IH]; [reflexivity|].
  cbn [rev]. rewrite csum_app, IH, !csum_cons. cbn [csum fold_right]. ring.
Qed.

Lemma csum_reflect (f : nat -> @cplx R) (n : nat) :
  @csum R exactR (map f (seq 1 n))
  = @csum R exactR (map (fun m => f (S n - m)%nat) (seq 1 n)).
Proof.
  rewrite <- csum_rev, <- map_rev. f_equal.
  apply nth_ext with (d := f 0%nat) (d' := f (S n - 0)%nat).
  - now rewrite !length_map, length_rev.
  - intros i Hi. rewrite length_map, length_rev, length_seq in Hi.
    rewrite (map_nth f), (map_nth (fun m => f (S n - m)%nat)).
    rewrite rev_nth by (rewrite length_seq; lia).
    rewrite length_seq, !seq_nth by lia. f_equal. lia.
Qed.
End Sums.

(** ** Roots of unity *)

Section RootsOfUnity.
Local Open Scope R_scope.

Lemma cis_add (a b : R) : cis (a + b) = cis a *c cis b.
Proof.
  unfold cis, cmul; cbn. rewrite cos_plus, sin_plus. f_equal; ring.
Qed.

Lemma cis_0 : cis 0 = cone.
Proof. unfold cis, cone. now rewrite cos_0, sin_0. Qed.

Lemma cis_2PI_nat (n : nat) : cis (2 * PI * INR n) = cone.
Proof.
  induction n as [|n IH].
  - cbn [INR]. rewrite Rmult_0_r. apply cis_0.
  - rewrite S_INR, Rmult_plus_distr_l, Rmult_1_r, cis_add, IH.
    unfold cis, cone, cmul; cbn. rewrite cos_2PI, sin_2PI. f_equal; ring.
Qed.

Lemma cis_2PI_Z (q : Z) : cis (2 * PI * IZR q) = cone.
Proof.
  destruct (Z_le_gt_dec 0 q) as [Hq|Hq].
  - rewrite <- (Z2Nat.id q Hq), <- INR_IZR_INZ. apply cis_2PI_nat.
  - replace (2 * PI * IZR q) with (- (2 * PI * INR (Z.to_nat (- q)))).
    + unfold cis. rewrite cos_neg, sin_neg.
      pose proof (cis_2PI_nat (Z.to_nat (- q))) as H. unfold cis, cone in H.
      injection H as -> ->. unfold cone. f_equal. ring.
    + rewrite INR_IZR_INZ, Z2Nat.id by lia. rewrite opp_IZR. ring.
Qed.

Lemma ang_add (N : nat) (d e : Z) : ang N (d + e) = ang N d + ang N e.
Proof. unfold ang. rewrite plus_IZR. unfold Rdiv. ring. Qed.

Lemma cis_ang_add (N : nat) (d e : Z) :
  cis (ang N (d + e)) = cis (ang N d) *c cis (ang N e).
Proof. now rewrite ang_add, cis_add. Qed.

Lemma cis_ang_multiple (N : nat) (q : Z) :
  (0 < N)%nat -> cis (ang N (q * Z.of_nat N)) = cone.
Proof.
  intros HN. unfold ang. rewrite mult_IZR.
  replace (2 * PI * (IZR q * IZR (Z.of_nat N)) / IZR (Z.of_nat N))
    with (2 * PI * IZR q).
  - apply cis_2PI_Z.
  - field. apply not_0_IZR. lia.
Qed.

(** [exp(2 pi i d / N)] only depends on [d] modulo [N]. *)
Lemma cis_ang_mod (N : nat) (d : Z) :
  (0 < N)%nat -> cis (ang N d) = cis (ang N (d mod Z.of_nat N)).
Proof.
  intros HN.
  rewrite (Z.div_mod d (Z.of_nat N)) at 1 by lia.
  rewrite Z.add_comm, cis_ang_add, (Z.mul_comm (Z.of_nat N)), cis_ang_multiple by exact HN.
  unfold cone, cmul. destruct (cis _); cbn. f_equal; ring.
Qed.

Lemma cis_ang_one (N : nat) (d : Z) :
  (0 < N)%nat -> cis (ang N d) = cone -> (d mod Z.of_nat N = 0)%Z.
Proof.
  intros HN H. unfold cis, cone in H. injection H as Hc _.
  assert (HNr : IZR (Z.of_nat N) <> 0) by (apply not_0_IZR; lia).
  set (x := PI * IZR d / IZR (Z.of_nat N)).
  assert (Hx : ang N d = 2 * x) by (unfold ang, x; field; exact HNr).
  rewrite Hx, cos_2a_sin in Hc.
  assert (Hs : sin x = 0) by nra.
  destruct (sin_eq_0_0 x Hs) as [k Hk].
  assert (Hd : IZR d = IZR (k * Z.of_nat N)).
  { rewrite mult_IZR. unfold x in Hk.
    apply (Rmult_eq_reg_l PI); [|apply PI_neq0].
    replace (PI * IZR d) with (PI * IZR d / IZR (Z.of_nat N) * IZR (Z.of_nat N))
      by (field; exact HNr).
    rewrite Hk. ring. }
  apply eq_IZR in Hd. subst d. apply Z.mod_mul. lia.
Qed.

Lemma csum_const (c : @cplx R) (n : nat) (a : nat) :
  @csum R exactR (map (fun _ => c) (seq a n)) = (INR n, 0) *c c.
Proof.
  revert a; induction n as [|n IH]; intros a.
  - cbn. unfold cmul, czero; cbn. f_equal; ring.
  - cbn [seq map]. rewrite csum_cons, IH, S_INR.
    unfold cmul, cadd. destruct c; cbn. f_equal; ring.
Qed.

(** The geometric sum of the powers of a root of unity. *)
Lemma geometric_sum (N : nat) (d : Z) (n : nat) :
  csub (cis (ang N d)) cone
    *c @csum R exactR (map (fun k => cis (ang N (d * Z.of_nat k))) (seq 0 n))
  = csub (cis (ang N (d * Z.of_nat n))) cone.
Proof.
  induction n as [|n IH].
  - cbn [seq map csum fold_right]. rewrite Z.mul_0_r.
    replace (ang N 0) with 0 by (unfold ang; unfold Rdiv; ring).
    rewrite cis_0. ring.
  - rewrite seq_S, map_app, csum_app. cbn [map Nat.add]. rewrite csum_cons.
    cbn [csum fold_right].
    replace (d * Z.of_nat (S n))%Z with (d * Z.of_nat n + d)%Z by lia.
    rewrite cis_ang_add.
    transitivity
      (csub (cis (ang N d)) cone
         *c @csum R exactR (map (fun k => cis (ang N (d * Z.of_nat k))) (seq 0 n))
       +c csub (cis (ang N d)) cone *c cis (ang N (d * Z.of_nat n))).
    + ring.
    + rewrite IH. ring.
Qed.

(** Orthogonality of the characters of the cyclic group of order [N]. *)
Lemma roots_orthogonal (N : nat) (d : Z) :
  (0 < N)%nat ->
  @csum R exactR (map (fun k => cis (ang N (d * Z.of_nat k))) (seq 0 N))
  = if (d mod Z.of_nat N =? 0)%Z then (INR N, 0) else 0c.
Proof.
  intros HN. destruct (d mod Z.of_nat N =? 0)%Z eqn:Hd.
  - apply Z.eqb_eq in Hd.
    rewrite (csum_ext _ (fun _ => cone)).
    + rewrite csum_const. unfold cone, cmul; cbn. f_equal; ring.
    + intros k _. rewrite cis_ang_mod by exact HN.
      rewrite Z.mul_mod, Hd, Z.mul_0_l, Z.mod_0_l by lia.
      replace (ang N 0) with 0 by (unfold ang; unfold Rdiv; ring). apply cis_0.
  - apply Z.eqb_neq in Hd.
    apply (cmul_integral (csub (cis (ang N d)) cone)).
    + rewrite geometric_sum, cis_ang_multiple by exact HN. ring.
    + intros Hz. apply Hd. apply cis_ang_one; [exact HN|].
      transitivity (csub (cis (ang N d)) cone +c cone); [ring|].
      rewrite Hz. ring.
Qed.

Lemma twiddle_cis (sgn : Z) (N j k : nat) :
  @twiddle R exactR sgn N j k = cis (ang N (sgn * Z.of_nat j * Z.of_nat k)).
Proof.
  unfold twiddle, cis, ang. cbn [ofZ mul div fpi fcos fsin exactR].
  rewrite Nat2Z.inj_mul, !mult_IZR.
  replace (IZR sgn * (2 * PI) * (IZR (Z.of_nat j) * IZR (Z.of_nat k)) / IZR (Z.of_nat N))
    with (2 * PI * (IZR sgn * IZR (Z.of_nat j) * IZR (Z.of_nat k)) / IZR (Z.of_nat N))
    by (unfold Rdiv; ring).
  reflexivity.
Qed.
End RootsOfUnity.

(** ** The discrete Fourier transform in exact arithmetic *)

Section DFT.
Local Open Scope R_scope.

Lemma dft_length (s : Z) (a : list (@cplx R)) :
  length (@dft R exactR s a) = length a.
Proof. unfold dft. now rewrite length_map, length_seq. Qed.

Lemma dft_nth (s : Z) (a : list (@cplx R)) (k : nat) :
  (k < length a)%nat ->
  nth k (@dft R exactR s a) 0c
  = @csum R exactR
      (map (fun j => nth j a 0c
                     *c cis (ang (length a) (s * Z.of_nat j * Z.of_nat k)))
           (seq 0 (length a))).
Proof.
  intros Hk. unfold dft.
  rewrite (nth_map_in _ _ 0c 0%nat) by (rewrite length_seq; exact Hk).
  rewrite seq_nth by exact Hk. cbn [Nat.add].
  apply csum_ext. intros j _. now rewrite twiddle_cis.
Qed.

Lemma fft_length (a : list (@cplx R)) : length (@fft R exactR a) = length a.
Proof. apply dft_length. Qed.

Lemma ifft_length (a : list (@cplx R)) : length (@ifft R exactR a) = length a.
Proof. unfold ifft. now rewrite length_map, dft_length. Qed.

(** The transform commutes with the multiplication by a constant. *)
Lemma dft_scal (s : Z) (c : @cplx R) (a : list (@cplx R)) :
  @dft R exactR s (map (fun z => c *c z) a)
  = map (fun z => c *c z) (@dft R exactR s a).
Proof.
  apply nth_ext with (d := 0c) (d' := 0c).
  - now rewrite length_map, !dft_length, length_map.
  - intros k Hk. rewrite dft_length, length_map in Hk.
    rewrite dft_nth by (rewrite length_map; exact Hk).
    rewrite (nth_map_in _ _ 0c 0c) by (rewrite dft_length; exact Hk).
    rewrite dft_nth by exact Hk. rewrite length_map, <- csum_scal_l.
    apply csum_ext. intros j Hj.
    rewrite (nth_map_in _ _ 0c 0c) by lia. ring.
Qed.

Lemma small_multiple_zero (N : nat) (s : Z) (m k : nat) :
  (s = 1 \/ s = -1)%Z -> (m < N)%nat -> (k < N)%nat ->
  ((s * (Z.of_nat m - Z.of_nat k)) mod Z.of_nat N = 0)%Z -> m = k.
Proof.
  intros Hs Hm Hk Hmod.
  apply Z.mod_divide in Hmod; [|lia]. destruct Hmod as [q Hq].
  assert (q = 0)%Z by nia. nia.
Qed.

(** Applying the transform and then the transform of the opposite sign
    multiplies every entry by the length. *)
Lemma dft_dft (s : Z) (a : list (@cplx R)) :
  (s = 1 \/ s = -1)%Z ->
  @dft R exactR (- s) (@dft R exactR s a)
  = map (fun z => (INR (length a), 0) *c z) a.
Proof.
  intros Hs. apply nth_ext with (d := 0c) (d' := 0c).
  - now rewrite length_map, !dft_length.
  - intros k Hk. rewrite !dft_length in Hk.
    assert (HN : (0 < length a)%nat) by lia.
    rewrite dft_nth by (rewrite dft_length; exact Hk). rewrite dft_length.
    rewrite (nth_map_in _ _ 0c 0c) by exact Hk.
    transitivity
      (@csum R exactR
         (map (fun j =>
                 @csum R exactR
                   (map (fun m =>
                           nth m a 0c
                           *c cis (ang (length a)
                                     (s * (Z.of_nat m - Z.of_nat k) * Z.of_nat j)))
                        (seq 0 (length a))))
              (seq 0 (length a)))).
    { apply csum_ext. intros j Hj. rewrite dft_nth by lia.
      rewrite <- csum_scal_r. apply csum_ext. intros m Hm.
      replace (s * (Z.of_nat m - Z.of_nat k) * Z.of_nat j)%Z
        with (s * Z.of_nat m * Z.of_nat j + - s * Z.of_nat j * Z.of_nat k)%Z by ring.
      rewrite cis_ang_add. ring. }
    rewrite csum_exchange.
    rewrite (csum_ext _
               (fun m => nth m a 0c
                         *c (if (m =? k)%nat then (INR (length a), 0) else 0c))).
    + rewrite (csum_single _ 0 (length a) k) by
        (try lia; intros i Hi Hik;
         replace (i =? k)%nat with false by (symmetry; apply Nat.eqb_neq; exact Hik);
         ring).
      rewrite Nat.eqb_refl. ring.
    + intros m Hm. rewrite csum_scal_l. f_equal.
      rewrite roots_orthogonal by exact HN.
      destruct (m =? k)%nat eqn:Hmk.
      * apply Nat.eqb_eq in Hmk. subst m.
        rewrite Z.sub_diag, Z.mul_0_r, Z.mod_0_l by lia. reflexivity.
      * apply Nat.eqb_neq in Hmk.
        destruct (_ =? 0)%Z eqn:Hz; [|reflexivity].
        apply Z.eqb_eq in Hz. exfalso. apply Hmk.
        apply (small_multiple_zero (length a) s); auto; lia.
Qed.

Lemma scale_back (N : nat) (z : @cplx R) :
  (0 < N)%nat ->
  @cofR R exactR (@div R exactR fone (ofZ (Z.of_nat N))) *c ((INR N, 0) *c z) = z.
Proof.
  intros HN. unfold cofR, cmul. destruct z as [x y]. cbn.
  rewrite <- INR_IZR_INZ.
  assert (INR N <> 0) by (apply not_0_INR; lia).
  f_equal; field; assumption.
Qed.

Lemma fft_ifft (a : list (@cplx R)) : @fft R exactR (@ifft R exactR a) = a.
Proof.
  destruct a as [|z a']; [reflexivity|].
  unfold fft, ifft. set (a := z :: a').
  rewrite dft_scal. change (-1)%Z with (Z.opp 1). rewrite dft_dft by (left; reflexivity).
  rewrite map_map. transitivity (map (fun w : @cplx R => w) a); [|apply map_id].
  apply map_ext. intros w. apply scale_back. simpl. lia.
Qed.

Lemma ifft_fft (a : list (@cplx R)) : @ifft R exactR (@fft R exactR a) = a.
Proof.
  destruct a as [|z a']; [reflexivity|].
  unfold fft, ifft. set (a := z :: a'). rewrite dft_length.
  change 1%Z with (Z.opp (-1)) at 1. rewrite dft_dft by (right; reflexivity).
  rewrite map_map. transitivity (map (fun w : @cplx R => w) a); [|apply map_id].
  apply map_ext. intros w. apply scale_back. simpl. lia.
Qed.

Lemma ifft_scal (c : @cplx R) (a : list (@cplx R)) :
  @ifft R exactR (map (fun z => c *c z) a)
  = map (fun z => c *c z) (@ifft R exactR a).
Proof.
  unfold ifft. rewrite dft_scal, length_map, !map_map.
  apply map_ext. intros z. ring.
Qed.

Lemma fft_scal (c : @cplx R) (a : list (@cplx R)) :
  @fft R exactR (map (fun z => c *c z) a)
  = map (fun z => c *c z) (@fft R exactR a).
Proof. apply dft_scal. Qed.
End DFT.

(** ** coeffmult: the constant 1 is a left identity *)

Section CoeffMult.
Local Open Scope R_scope.

Lemma map2_const_l (c : @cplx R) (N : nat) (X : list (@cplx R)) :
  length X = N ->
  map2 (@cmul R exactR) (map (fun _ => c) (seq 0 N)) X = map (fun z => c *c z) X.
Proof.
  intros <-. generalize 0%nat. induction X as [|x X IH]; intros a; [reflexivity|].
  cbn [length seq map map2]. now rewrite IH.
Qed.

Lemma map2_diag (f : @cplx R -> @cplx R -> @cplx R) (X : list (@cplx R)) :
  map2 f X X = map (fun z => f z z) X.
Proof. induction X as [|x X IH]; [reflexivity|]. cbn [map2 map]. now rewrite IH. Qed.

Lemma nth_repeat_zero (n j : nat) : nth j (repeat 0c n) 0c = 0c.
Proof.
  destruct (lt_dec j n); [now apply nth_repeat_lt|].
  apply nth_overflow. rewrite repeat_length. lia.
Qed.

(** The transform of the doubled unit impulse is constant. *)
Lemma fft_impulse (n : nat) :
  @fft R exactR ((2, 0) :: repeat 0c n)
  = map (fun _ => (2, 0)) (seq 0 (S n)).
Proof.
  apply nth_ext with (d := 0c) (d' := 0c).
  - now rewrite fft_length, length_map, length_seq; cbn [length]; rewrite repeat_length.
  - intros k Hk. rewrite fft_length in Hk. unfold fft. rewrite dft_nth by exact Hk.
    rewrite (nth_map_in _ _ 0c 0%nat)
      by (rewrite length_seq; cbn [length] in Hk; rewrite repeat_length in Hk; exact Hk).
    rewrite (csum_single _ 0 _ 0%nat).
    + cbn [nth]. rewrite Z.mul_0_r, Z.mul_0_l.
      replace (ang _ 0) with 0 by (unfold ang; unfold Rdiv; ring).
      rewrite cis_0. unfold cone, cmul; cbn. f_equal; ring.
    + cbn [length]. lia.
    + intros i _ Hi. destruct i as [|i]; [congruence|]. cbn [nth].
      rewrite nth_repeat_zero. ring.
Qed.

(** C7. In exact arithmetic, for every array [b] of [n >= 1] real or
    complex coefficients, [coeffmult] applied to the [n] coefficients
    [1, 0, ..., 0] of the constant function 1 and to [b] returns [b]. *)
Theorem coeffmult_one_left (b : list (@cplx R)) :
  (1 <= length b)%nat ->
  @coeffmult R exactR (cone :: repeat 0c (length b - 1)) b = b.
Proof.
  intros Hn. destruct b as [|b0 bt]; [simpl in Hn; lia|].
  cbn [length]. rewrite Nat.sub_succ, Nat.sub_0_r.
  unfold coeffmult.
  cbn [firstn skipn map app length].
  set (c2 := @cofR R exactR (ofZ 2%Z)).
  assert (Hc2 : c2 = (2, 0)) by reflexivity.
  assert (HF : c2 *c cone :: repeat 0c (length bt) ++ rev (repeat 0c (length bt))
               = (2, 0) :: repeat 0c (length bt + length bt)).
  { rewrite rev_repeat, <- repeat_app. f_equal. rewrite Hc2.
    unfold cone, cmul; cbn. f_equal; ring. }
  rewrite HF, fft_impulse.
  rewrite map2_const_l
    by (rewrite fft_length; cbn [length]; rewrite length_app, length_rev; lia).
  rewrite (ifft_scal (2, 0)), ifft_fft.
  cbn [map firstn skipn app].
  assert (Hrev : rev (map (fun z => (2, 0) *c z) (bt ++ rev bt))
                 = map (fun z => (2, 0) *c z) (bt ++ rev bt)).
  { now rewrite <- map_rev, rev_app_distr, rev_involutive. }
  rewrite Hrev, map2_diag.
  assert (Hhead : (2, 0) *c (c2 *c b0) *c @cofR R exactR (lit 25 100) = b0).
  { rewrite Hc2. destruct b0 as [x y]. unfold cofR, cmul, lit; cbn. f_equal; lra. }
  assert (Htail : map (fun z => ((2, 0) *c z +c (2, 0) *c z) *c @cofR R exactR (lit 25 100))
                      (bt ++ rev bt) = bt ++ rev bt).
  { transitivity (map (fun z : @cplx R => z) (bt ++ rev bt)); [|apply map_id].
    apply map_ext. intros [x y]. unfold cofR, cmul, cadd, lit; cbn. f_equal; lra. }
  rewrite Hhead, !map_map, Htail, repeat_length.
  rewrite firstn_app, firstn_all, Nat.sub_diag. cbn [firstn]. rewrite app_nil_r.
  destruct (isreal_all _) eqn:Hreal; [|reflexivity].
  change (cofR (creal b0) :: map (fun z => cofR (creal z)) bt)
    with (map (fun z => @cofR R exactR (creal z)) (b0 :: bt)).
  unfold isreal_all in Hreal. change (cone :: repeat 0c (length bt) ++ b0 :: bt)
    with ((cone :: repeat 0c (length bt)) ++ b0 :: bt) in Hreal.
  rewrite forallb_app in Hreal. apply andb_true_iff in Hreal. destruct Hreal as [_ Hreal].
  transitivity (map (fun z : @cplx R => z) (b0 :: bt)); [|apply map_id].
  apply map_ext_in. intros z Hz.
  rewrite forallb_forall in Hreal. specialize (Hreal z Hz).
  unfold isreal in Hreal. apply Reqb_true in Hreal.
  destruct z as [x y]. unfold cofR, creal. cbn in *. now subst y.
Qed.

Lemma coeffmult_one_left_witness :
  @coeffmult R exactR (cone :: repeat 0c (length [(1, 2); (3, 4)] - 1))
    [(1, 2); (3, 4)]
  = [(1, 2); (3, 4)].
Proof.
  apply (coeffmult_one_left [(1, 2); (3, 4)]). simpl. lia.
Defined.
End CoeffMult.

(** On binary64 the constant one is not a left identity for every finite
    array: [Gc = append(2.*gc[:1], ...)] doubles the first coefficient,
    and [2 * 2^1023] is an infinity.  On the single coefficient [2^1023]
    the result is not finite. *)
Lemma coeffmult_one_left_overflow :
  let b := [(0x1p+1023%float, 0%float)] in
  is_finite 0x1p+1023 = true
  /\ (1 <= length b)%nat
  /\ is_finite (@mul float (binary64 libm_half_turns)
                  (@ofZ float (binary64 libm_half_turns) 2%Z) 0x1p+1023%float) = false
  /\ map (fun z => is_finite (fst z))
       (@coeffmult float (binary64 libm_half_turns)
          ((1%float, 0%float) :: repeat (0%float, 0%float) (length b - 1)) b)
     = [false].
Proof.
  intros b. split; [reflexivity|]. split; [simpl; lia|].
  split; vm_compute; reflexivity.
Qed.

(** Without overflow the product with the constant one returns its second
    argument: [coeffmult] of [1] and [3] on binary64. *)
Example coeffmult_one_left_binary64 :
  @coeffmult float (binary64 libm_half_turns)
    [(1%float, 0%float)] [(3%float, 0%float)]
  = [(3%float, 0%float)].
Proof. vm_compute. reflexivity. Qed.

(** ** The transform of a mirrored array *)

Section Mirrored.
Local Open Scope R_scope.

Lemma cis_ang_shift (N : nat) (d q : Z) :
  (0 < N)%nat -> cis (ang N (d + q * Z.of_nat N)) = cis (ang N d).
Proof.
  intros HN. rewrite cis_ang_add, cis_ang_multiple by exact HN.
  unfold cone, cmul. destruct (cis _); cbn. f_equal; ring.
Qed.

(** On a mirrored array the forward and the backward sums coincide. *)
Lemma dft_mirrored_sign (s : Z) (a : list (@cplx R)) :
  mirrored a -> @dft R exactR s a = @dft R exactR (- s) a.
Proof.
  intros Hm. apply nth_ext with (d := 0c) (d' := 0c).
  - now rewrite !dft_length.
  - intros k Hk. rewrite dft_length in Hk. rewrite !dft_nth by exact Hk.
    destruct (length a) as [|n] eqn:HN; [lia|].
    cbn [seq map]. rewrite !csum_cons. f_equal.
    + now rewrite !Z.mul_0_r, !Z.mul_0_l.
    + rewrite csum_reflect. apply csum_ext. intros m Hmn.
      assert (Hnth : nth (S n - m) a 0c = nth m a 0c).
      { rewrite <- HN. apply Hm. lia. }
      rewrite Hnth. f_equal.
      replace (s * Z.of_nat (S n - m) * Z.of_nat k)%Z
        with (- s * Z.of_nat m * Z.of_nat k + (s * Z.of_nat k) * Z.of_nat (S n))%Z
        by (rewrite Nat2Z.inj_sub by lia; ring).
      apply cis_ang_shift. lia.
Qed.

(** The transform of a mirrored array is mirrored. *)
Lemma dft_mirrored (s : Z) (a : list (@cplx R)) :
  mirrored a -> mirrored (@dft R exactR s a).
Proof.
  intros Hm k Hk. rewrite dft_length in *.
  rewrite (dft_mirrored_sign s a Hm) at 2.
  rewrite !dft_nth by lia. apply csum_ext. intros j Hj. f_equal.
  replace (s * Z.of_nat j * Z.of_nat (length a - k))%Z
    with (- s * Z.of_nat j * Z.of_nat k + (s * Z.of_nat j) * Z.of_nat (length a))%Z
    by (rewrite Nat2Z.inj_sub by lia; ring).
  apply cis_ang_shift. lia.
Qed.

Lemma cconj_csum (l : list (@cplx R)) :
  cconj (@csum R exactR l) = @csum R exactR (map cconj l).
Proof.
  induction l as [|z l IH]; cbn [map]; rewrite ?csum_cons.
  - unfold cconj, csum, czero; cbn. f_equal; ring.
  - rewrite <- IH. unfold cconj, cadd; cbn. f_equal; ring.
Qed.

Lemma cconj_cmul (z w : @cplx R) : cconj (z *c w) = cconj z *c cconj w.
Proof. unfold cconj, cmul; cbn. f_equal; ring. Qed.

Lemma cconj_cis_ang (N : nat) (d : Z) : cconj (cis (ang N d)) = cis (ang N (- d)).
Proof.
  unfold cconj, cis; cbn.
  replace (ang N (- d)) with (- ang N d)
    by (unfold ang; rewrite opp_IZR; unfold Rdiv; ring).
  now rewrite cos_neg, sin_neg.
Qed.

(** The transform of a real mirrored array is real. *)
Lemma dft_real (s : Z) (a : list (@cplx R)) :
  Forall (fun z => snd z = 0) a -> mirrored a ->
  Forall (fun z => snd z = 0) (@dft R exactR s a).
Proof.
  intros Hr Hm. apply Forall_forall. intros z Hz.
  destruct (In_nth _ _ 0c Hz) as (k & Hk & <-). rewrite dft_length in Hk.
  assert (Hc : cconj (nth k (@dft R exactR s a) 0c) = nth k (@dft R exactR s a) 0c).
  { rewrite (dft_mirrored_sign s a Hm) at 2. rewrite !dft_nth by exact Hk.
    rewrite cconj_csum, map_map. apply csum_ext. intros j Hj.
    rewrite cconj_cmul, cconj_cis_ang. f_equal.
    - rewrite Forall_forall in Hr.
      assert (H0 : snd (nth j a 0c) = 0) by (apply Hr, nth_In; lia).
      unfold cconj. destruct (nth j a 0c) as [x y]; cbn in *. subst y. f_equal. ring.
    - f_equal. f_equal. ring. }
  unfold cconj in Hc. destruct (nth k _ _) as [x y]; cbn in *.
  injection Hc as Hy. lra.
Qed.

Lemma mirrored_map (f : @cplx R -> @cplx R) (a : list (@cplx R)) :
  mirrored a -> mirrored (map f a).
Proof.
  intros Hm k Hk. rewrite length_map in *.
  rewrite !(nth_map_in _ _ 0c 0c) by lia. f_equal. now apply Hm.
Qed.

Lemma ifft_mirrored (a : list (@cplx R)) : mirrored a -> mirrored (@ifft R exactR a).
Proof.
  intros Hm. unfold ifft. apply mirrored_map. now apply dft_mirrored.
Qed.

Lemma fft_real (a : list (@cplx R)) :
  Forall (fun z => snd z = 0) a -> mirrored a ->
  Forall (fun z => snd z = 0) (@fft R exactR a).
Proof. apply dft_real. Qed.

Lemma ifft_real (a : list (@cplx R)) :
  Forall (fun z => snd z = 0) a -> mirrored a ->
  Forall (fun z => snd z = 0) (@ifft R exactR a).
Proof.
  intros Hr Hm. unfold ifft. apply Forall_map.
  pose proof (dft_real 1 a Hr Hm) as H. revert H. apply Forall_impl.
  intros [x y] Hy; cbn in *. subst y. ring.
Qed.
End Mirrored.

(** ** vals2coeffs2 and coeffs2vals2: the round trip *)

Section RoundTrip.
Local Open Scope R_scope.

Lemma isreal_all_iff (a : list (@cplx R)) :
  @isreal_all R exactR a = true <-> Forall (fun z => snd z = 0) a.
Proof.
  unfold isreal_all. rewrite forallb_forall, Forall_forall.
  split; intros H z Hz; specialize (H z Hz); unfold isreal, cimag in *;
    apply Reqb_true; exact H.
Qed.

Lemma isimag_all_iff (a : list (@cplx R)) :
  @isreal_all R exactR (map (fun z => @cI R exactR *c z) a) = true
  <-> Forall (fun z => fst z = 0) a.
Proof.
  rewrite isreal_all_iff, Forall_map.
  split; apply Forall_impl; intros [x y]; unfold cI, cmul; cbn; lra.
Qed.

Lemma Forall_slice (P : @cplx R -> Prop) (i j : nat) (a : list (@cplx R)) :
  Forall P a -> Forall P (slice i j a).
Proof.
  intros H. rewrite Forall_forall in *. intros z Hz. apply H.
  unfold slice in Hz. rewrite <- (firstn_skipn i a). apply in_or_app. right.
  rewrite <- (firstn_skipn (j - i) (skipn i a)). apply in_or_app. now left.
Qed.

Lemma slice_length (i j : nat) (a : list (@cplx R)) :
  (j <= length a)%nat -> length (slice i j a) = (j - i)%nat.
Proof. intros H. unfold slice. rewrite length_firstn, length_skipn. lia. Qed.

Lemma slice_nth (i j p : nat) (a : list (@cplx R)) :
  (p < j - i)%nat -> nth p (slice i j a) 0c = nth (i + p) a 0c.
Proof.
  intros H. unfold slice. rewrite nth_firstn.
  replace (p <? j - i)%nat with true by (symmetry; apply Nat.ltb_lt; exact H).
  apply nth_skipn.
Qed.

(** The array [tmp] of [vals2coeffs2]. *)
Lemma tmp_vals_length (v : list (@cplx R)) :
  (2 <= length v)%nat ->
  length (rev v ++ slice 1 (length v - 1) v) = (2 * length v - 2)%nat.
Proof.
  intros H. rewrite length_app, length_rev, slice_length by lia. lia.
Qed.

Lemma tmp_vals_nth (v : list (@cplx R)) (m : nat) :
  (2 <= length v)%nat -> (m < 2 * length v - 2)%nat ->
  nth m (rev v ++ slice 1 (length v - 1) v) 0c
  = nth (if (m <? length v)%nat then length v - 1 - m else m - length v + 1)%nat v 0c.
Proof.
  intros Hn Hm. destruct (m <? length v)%nat eqn:Hlt.
  - apply Nat.ltb_lt in Hlt. rewrite app_nth1 by (rewrite length_rev; exact Hlt).
    rewrite rev_nth by exact Hlt. f_equal. lia.
  - apply Nat.ltb_ge in Hlt. rewrite app_nth2 by (rewrite length_rev; exact Hlt).
    rewrite length_rev, slice_nth by lia. f_equal. lia.
Qed.

Lemma tmp_vals_mirrored (v : list (@cplx R)) :
  (2 <= length v)%nat -> mirrored (rev v ++ slice 1 (length v - 1) v).
Proof.
  intros Hn m Hm. rewrite tmp_vals_length in * by exact Hn.
  rewrite !tmp_vals_nth by lia. f_equal.
  destruct (Nat.ltb_spec (2 * length v - 2 - m) (length v));
    destruct (Nat.ltb_spec m (length v)); lia.
Qed.

(** The array [tmp] of [coeffs2vals2]. *)
Lemma tmp_coeffs_length (c : list (@cplx R)) :
  (2 <= length c)%nat ->
  length (c ++ rev (slice 1 (length c - 1) c)) = (2 * length c - 2)%nat.
Proof.
  intros H. rewrite length_app, length_rev, slice_length by lia. lia.
Qed.

Lemma tmp_coeffs_nth (c : list (@cplx R)) (m : nat) :
  (2 <= length c)%nat -> (m < 2 * length c - 2)%nat ->
  nth m (c ++ rev (slice 1 (length c - 1) c)) 0c
  = nth (if (m <? length c)%nat then m else 2 * length c - 2 - m)%nat c 0c.
Proof.
  intros Hn Hm. destruct (m <? length c)%nat eqn:Hlt.
  - apply Nat.ltb_lt in Hlt. now rewrite app_nth1 by exact Hlt.
  - apply Nat.ltb_ge in Hlt. rewrite app_nth2 by exact Hlt.
    rewrite rev_nth by (rewrite slice_length; lia).
    rewrite slice_length by lia. rewrite slice_nth by lia. f_equal. lia.
Qed.

Lemma tmp_coeffs_mirrored (c : list (@cplx R)) :
  (2 <= length c)%nat -> mirrored (c ++ rev (slice 1 (length c - 1) c)).
Proof.
  intros Hn m Hm. rewrite tmp_coeffs_length in * by exact Hn.
  rewrite !tmp_coeffs_nth by lia. f_equal.
  destruct (Nat.ltb_spec (2 * length c - 2 - m) (length c));
    destruct (Nat.ltb_spec m (length c)); lia.
Qed.

(** A mirrored array of length [2n - 2] is rebuilt from its first [n]
    entries. *)
Lemma mirrored_rebuild (y : list (@cplx R)) (n : nat) :
  (2 <= n)%nat -> length y = (2 * n - 2)%nat -> mirrored y ->
  firstn n y ++ rev (slice 1 (n - 1) (firstn n y)) = y.
Proof.
  intros Hn Hlen Hm.
  assert (Hf : length (firstn n y) = n) by (rewrite length_firstn; lia).
  apply nth_ext with (d := 0c) (d' := 0c).
  - rewrite <- Hf at 2. rewrite tmp_coeffs_length by lia. lia.
  - intros m Hmlt. rewrite <- Hf in Hmlt at 2.
    rewrite tmp_coeffs_length in Hmlt by lia. rewrite Hf in Hmlt.
    rewrite <- Hf at 2. rewrite tmp_coeffs_nth by lia. rewrite Hf.
    rewrite nth_firstn.
    destruct (m <? n)%nat eqn:Hlt.
    + now rewrite Hlt.
    + apply Nat.ltb_ge in Hlt.
      replace (2 * n - 2 - m <? n)%nat with true by (symmetry; apply Nat.ltb_lt; lia).
      rewrite <- Hlen. apply Hm. lia.
Qed.

Lemma scale_interior_length (c : @cplx R) (n : nat) (a : list (@cplx R)) :
  length (@scale_interior R exactR c n a) = length a.
Proof. unfold scale_interior. now rewrite length_map, length_seq. Qed.

Lemma scale_interior_cancel (n : nat) (a : list (@cplx R)) :
  @scale_interior R exactR (cofR (lit 5 10)) n
    (@scale_interior R exactR (cofR (ofZ 2%Z)) n a) = a.
Proof.
  apply nth_ext with (d := 0c) (d' := 0c).
  - now rewrite !scale_interior_length.
  - intros i Hi. rewrite !scale_interior_length in Hi.
    unfold scale_interior at 1.
    rewrite (nth_map_in _ _ 0c 0%nat)
      by (rewrite length_seq, scale_interior_length; exact Hi).
    rewrite seq_nth by (rewrite scale_interior_length; exact Hi). cbn [Nat.add].
    unfold scale_interior.
    rewrite (nth_map_in _ _ 0c 0%nat) by (rewrite length_seq; exact Hi).
    rewrite seq_nth by exact Hi. cbn [Nat.add].
    destruct ((1 <=? i)%nat && (i <? n - 1)%nat); [|reflexivity].
    destruct (nth i a 0c) as [x y]. unfold cofR, cmul, lit; cbn. f_equal; lra.
Qed.
End RoundTrip.

Section Branches.
Local Open Scope R_scope.

(** [vals2coeffs2] and [coeffs2vals2] choose among three expressions by
    the kind of their argument (real, purely imaginary, any).  For a
    transform [T] that keeps real mirrored arrays real and commutes with
    the multiplication by a constant, the three expressions are all equal
    to [T tmp]. *)
Variable T : list (@cplx R) -> list (@cplx R).
Hypothesis T_real :
  forall a, Forall (fun z => snd z = 0) a -> mirrored a ->
            Forall (fun z => snd z = 0) (T a).
Hypothesis T_scal :
  forall c a, T (map (fun z => c *c z) a) = map (fun z => c *c z) (T a).

Lemma real_projection (a : list (@cplx R)) :
  Forall (fun z => snd z = 0) a ->
  map (fun z => @cofR R exactR (creal z)) a = a.
Proof.
  intros H. transitivity (map (fun z : @cplx R => z) a); [|apply map_id].
  apply map_ext_in. intros [x y] Hz. rewrite Forall_forall in H.
  specialize (H _ Hz). cbn in H. subst y. reflexivity.
Qed.

Lemma branches_agree (cond tmp : list (@cplx R)) :
  mirrored tmp ->
  (Forall (fun z => snd z = 0) cond -> Forall (fun z => snd z = 0) tmp) ->
  (Forall (fun z => fst z = 0) cond -> Forall (fun z => fst z = 0) tmp) ->
  (if @isreal_all R exactR cond then
     map (fun z => @cofR R exactR (creal z)) (T tmp)
   else if @isreal_all R exactR (map (fun z => @cI R exactR *c z) cond) then
     map (fun z => @cI R exactR *c @cofR R exactR (creal z))
         (T (map (fun z => @cofR R exactR (cimag z)) tmp))
   else T tmp) = T tmp.
Proof.
  intros Hm Hre Him.
  destruct (@isreal_all R exactR cond) eqn:Hr.
  - apply isreal_all_iff in Hr. apply real_projection. apply T_real; auto.
  - destruct (@isreal_all R exactR (map (fun z => @cI R exactR *c z) cond)) eqn:Hi;
      [|reflexivity].
    apply isimag_all_iff in Hi. specialize (Him Hi).
    set (t' := map (fun z => @cofR R exactR (cimag z)) tmp).
    assert (Ht'r : Forall (fun z => snd z = 0) t').
    { unfold t'. apply Forall_map. apply Forall_forall. intros z _. reflexivity. }
    assert (Ht'm : mirrored t') by (unfold t'; now apply mirrored_map).
    assert (Htmp : tmp = map (fun z => @cI R exactR *c z) t').
    { unfold t'. rewrite map_map.
      transitivity (map (fun z : @cplx R => z) tmp); [symmetry; apply map_id|].
      apply map_ext_in. intros [x y] Hz. rewrite Forall_forall in Him.
      specialize (Him _ Hz). cbn in Him. subst x.
      unfold cI, cofR, cmul, cimag; cbn. f_equal; ring. }
    transitivity (map (fun z => @cI R exactR *c z) (T t')).
    + rewrite <- (real_projection (T t') (T_real t' Ht'r Ht'm)) at 2.
      now rewrite map_map.
    + rewrite <- T_scal. now rewrite <- Htmp.
Qed.
End Branches.

Section RoundTripTheorem.
Local Open Scope R_scope.

Lemma Forall_tmp_vals (P : @cplx R -> Prop) (v : list (@cplx R)) :
  Forall P v -> Forall P (rev v ++ slice 1 (length v - 1) v).
Proof.
  intros H. apply Forall_app. split; [now apply Forall_rev|now apply Forall_slice].
Qed.

Lemma Forall_tmp_coeffs (P : @cplx R -> Prop) (c : list (@cplx R)) :
  Forall P c -> Forall P (c ++ rev (slice 1 (length c - 1) c)).
Proof.
  intros H. apply Forall_app. split; [exact H|].
  apply Forall_rev. now apply Forall_slice.
Qed.

(** What [vals2coeffs2] returns on two or more values: the first [n]
    entries of the inverse transform of the mirrored values, the inner
    ones doubled. *)
Lemma vals2coeffs2_exact (v : list (@cplx R)) :
  (2 <= length v)%nat ->
  @vals2coeffs2 R exactR v
  = @scale_interior R exactR (cofR (ofZ 2%Z)) (length v)
      (firstn (length v) (@ifft R exactR (rev v ++ slice 1 (length v - 1) v))).
Proof.
  intros Hn. unfold vals2coeffs2.
  replace (length v <=? 1)%nat with false by (symmetry; apply Nat.leb_gt; lia).
  rewrite (branches_agree (@ifft R exactR) ifft_real ifft_scal v).
  - reflexivity.
  - now apply tmp_vals_mirrored.
  - apply Forall_tmp_vals.
  - apply Forall_tmp_vals.
Qed.

(** What [coeffs2vals2] returns on two or more coefficients. *)
Lemma coeffs2vals2_exact (c : list (@cplx R)) :
  (2 <= length c)%nat ->
  let c' := @scale_interior R exactR (cofR (lit 5 10)) (length c) c in
  @coeffs2vals2 R exactR c
  = rev (firstn (length c)
           (@fft R exactR (c' ++ rev (slice 1 (length c - 1) c')))).
Proof.
  intros Hn c'. unfold coeffs2vals2.
  replace (length c <=? 1)%nat with false by (symmetry; apply Nat.leb_gt; lia).
  fold c'.
  assert (Hc' : length c' = length c) by apply scale_interior_length.
  rewrite (branches_agree (@fft R exactR) fft_real fft_scal c').
  - reflexivity.
  - rewrite <- Hc'. apply tmp_coeffs_mirrored. lia.
  - rewrite <- Hc'. apply Forall_tmp_coeffs.
  - rewrite <- Hc'. apply Forall_tmp_coeffs.
Qed.

(** C1. In exact arithmetic, for every array [v] of two or more real or
    complex values, [coeffs2vals2 (vals2coeffs2 v)] is [v]. *)
Theorem coeffs2vals2_vals2coeffs2 (v : list (@cplx R)) :
  (2 <= length v)%nat ->
  @coeffs2vals2 R exactR (@vals2coeffs2 R exactR v) = v.
Proof.
  intros Hn.
  set (tmp := rev v ++ slice 1 (length v - 1) v).
  assert (Htmp : length tmp = (2 * length v - 2)%nat) by (apply tmp_vals_length; exact Hn).
  set (y := @ifft R exactR tmp).
  assert (Hy : length y = (2 * length v - 2)%nat) by (unfold y; now rewrite ifft_length).
  assert (Hym : mirrored y) by (apply ifft_mirrored, tmp_vals_mirrored; exact Hn).
  assert (Hfy : length (firstn (length v) y) = length v)
    by (rewrite length_firstn; lia).
  rewrite vals2coeffs2_exact by exact Hn. fold tmp. fold y.
  rewrite coeffs2vals2_exact by (rewrite scale_interior_length, Hfy; exact Hn).
  cbv zeta. rewrite scale_interior_length, Hfy, scale_interior_cancel.
  rewrite (mirrored_rebuild y (length v) Hn Hy Hym).
  unfold y. rewrite fft_ifft. unfold tmp.
  rewrite firstn_app, length_rev, Nat.sub_diag, firstn_all2 by (rewrite length_rev; lia).
  cbn [firstn]. rewrite app_nil_r. apply rev_involutive.
Qed.

Lemma coeffs2vals2_vals2coeffs2_witness :
  @coeffs2vals2 R exactR (@vals2coeffs2 R exactR [(1, 0); (0, 2); (3, 4)])
  = [(1, 0); (0, 2); (3, 4)].
Proof.
  apply (coeffs2vals2_vals2coeffs2 [(1, 0); (0, 2); (3, 4)]). simpl. lia.
Defined.
End RoundTripTheorem.

(** On binary64 the round trip is not the identity on every finite array:
    sums overflow.  For the two finite values [M, M] with
    [M = 1.5 * 2^1023] the inverse transform of [vals2coeffs2] forms
    [M + M], an infinity, and [coeffs2vals2] returns two infinities. *)
Lemma coeffs2vals2_vals2coeffs2_overflow :
  let M := 0x1.8p+1023%float in
  let v := [(M, 0%float); (M, 0%float)] in
  is_finite M = true
  /\ (2 <= length v)%nat
  /\ @vals2coeffs2 float (binary64 libm_half_turns) v
     = [(infinity, 0%float); (0%float, 0%float)]
  /\ @coeffs2vals2 float (binary64 libm_half_turns)
       (@vals2coeffs2 float (binary64 libm_half_turns) v)
     = [(infinity, 0%float); (infinity, 0%float)]
  /\ map (fun z => is_finite (fst z))
       (@coeffs2vals2 float (binary64 libm_half_turns)
          (@vals2coeffs2 float (binary64 libm_half_turns) v))
     = [false; false].
Proof.
  intros M v. split; [reflexivity|]. split; [simpl; lia|].
  repeat split; vm_compute; reflexivity.
Qed.

(** Without overflow the same transforms return the values they were
    given: the round trip of [1, 2] on binary64. *)
Example coeffs2vals2_vals2coeffs2_binary64 :
  @coeffs2vals2 float (binary64 libm_half_turns)
    (@vals2coeffs2 float (binary64 libm_half_turns)
       [(1%float, 0%float); (2%float, 0%float)])
  = [(1%float, 0%float); (2%float, 0%float)].
Proof. vm_compute. reflexivity. Qed.

(** ** Clenshaw's algorithm evaluates the Chebyshev series *)

Lemma Tcheb_0 x : Tcheb 0 x = 1%R.
Proof. reflexivity. Qed.

Lemma Tcheb_1 x : Tcheb 1 x = x.
Proof. reflexivity. Qed.

Lemma Tcheb_pair_snd k x : snd (Tcheb_pair k x) = Tcheb (S k) x.
Proof.
  unfold Tcheb. simpl. destruct (Tcheb_pair k x). reflexivity.
Qed.

Lemma Tcheb_SS k x :
  Tcheb (S (S k)) x = (2 * x * Tcheb (S k) x - Tcheb k x)%R.
Proof.
  rewrite <- (Tcheb_pair_snd (S k)). rewrite <- (Tcheb_pair_snd k). unfold Tcheb.
  simpl. destruct (Tcheb_pair k x). reflexivity.
Qed.

Lemma rsum_ext_seq (f g : nat -> R) s n :
  (forall k, s <= k < s + n -> f k = g k) ->
  rsum (map f (seq s n)) = rsum (map g (seq s n)).
Proof.
  revert s. induction n as [|n IH]; intros s H; simpl; [reflexivity|].
  rewrite H by lia. f_equal. apply IH. intros; apply H; lia.
Qed.

Lemma rsum_shift (f : nat -> R) s n :
  rsum (map f (seq (S s) n)) = rsum (map (fun k => f (S k)) (seq s n)).
Proof.
  rewrite <- seq_shift, map_map. reflexivity.
Qed.

Lemma clen_pair_snd a t x : snd (clen_pair (a :: t) x) = fst (clen_pair t x).
Proof. simpl. destruct (clen_pair t x). reflexivity. Qed.

Lemma clen_pair_fst a t x :
  fst (clen_pair (a :: t) x)
  = (a + 2 * x * fst (clen_pair t x) - snd (clen_pair t x))%R.
Proof. simpl. destruct (clen_pair t x). reflexivity. Qed.

(** The backward recurrence sums any sequence [U] that obeys the
    three-term recurrence of the Chebyshev polynomials. *)
Lemma clen_pair_sum (x : R) (l : list R) :
  forall U : nat -> R,
    (forall k, U (S (S k)) = (2 * x * U (S k) - U k)%R) ->
    rsum (map (fun k => (nth k l 0 * U k)%R) (seq 0 (length l)))
    = (fst (clen_pair l x) * U 0%nat
       + snd (clen_pair l x) * (U 1%nat - 2 * x * U 0%nat))%R.
Proof.
  induction l as [|a t IH]; intros U HU.
  - simpl. ring.
  - cbn [length seq map rsum fold_right]. fold (rsum (map (fun k => (nth k (a :: t) 0 * U k)%R) (seq 1 (length t)))).
    rewrite rsum_shift. cbn [nth].
    rewrite (IH (fun k => U (S k))) by (intro k; apply HU).
    rewrite clen_pair_snd, clen_pair_fst. rewrite HU. ring.
Qed.

Lemma cheb_series_clen_pair ak x :
  cheb_series ak x
  = (fst (clen_pair ak x) - x * snd (clen_pair ak x))%R.
Proof.
  unfold cheb_series. rewrite (clen_pair_sum x ak (fun k => Tcheb k x)).
  - rewrite Tcheb_0, Tcheb_1. ring.
  - intro k. apply Tcheb_SS.
Qed.

(** [clen_B ak x j] is the term [b(j)] of the backward recurrence on the
    whole of [ak]. *)
Lemma clen_B_step ak x j :
  j < length ak ->
  fst (clen_pair (skipn j ak) x)
  = (nth j ak 0 + 2 * x * fst (clen_pair (skipn (S j) ak) x)
     - fst (clen_pair (skipn (S (S j)) ak) x))%R.
Proof.
  revert j. induction ak as [|a t IH]; intros j Hj; [simpl in Hj; lia|].
  destruct j as [|j].
  - cbn [skipn nth]. rewrite clen_pair_fst. destruct t as [|b t'].
    + simpl. reflexivity.
    + rewrite clen_pair_snd. reflexivity.
  - cbn [skipn nth]. simpl in Hj. apply IH. lia.
Qed.

Lemma clen_B_end ak x j :
  length ak <= j -> fst (clen_pair (skipn j ak) x) = 0%R.
Proof.
  intro H. rewrite skipn_all2 by lia. reflexivity.
Qed.

(** The loop of [clenshaw] makes two steps of the recurrence per pass. *)
Lemma clenshaw_loop ak x c :
  2 * c <= length ak - 1 ->
  fold_left
    (fun '(bk1, bk2) k =>
       ((nth (k - 1) ak 0 + 2 * x * (nth k ak 0 + 2 * x * bk1 - bk2) - bk1)%R,
        (nth k ak 0 + 2 * x * bk1 - bk2)%R))
    (map (fun i => length ak - 1 - 2 * i) (seq 0 c)) (0%R, 0%R)
  = (fst (clen_pair (skipn (length ak - 2 * c) ak) x),
     fst (clen_pair (skipn (length ak - 2 * c + 1) ak) x)).
Proof.
  induction c as [|c IH]; intro Hc.
  - simpl. rewrite !clen_B_end by lia. reflexivity.
  - rewrite seq_S, map_app, fold_left_app. rewrite IH by lia.
    cbn [map fold_left Nat.add].
    set (n := length ak) in *.
    replace (n - 2 * c) with (S (n - 1 - 2 * c)) by lia.
    replace (S (n - 1 - 2 * c) + 1) with (S (S (n - 1 - 2 * c))) by lia.
    replace (n - 2 * S c + 1) with (n - 1 - 2 * c) by lia.
    replace (n - 2 * S c) with (n - 1 - 2 * c - 1) by lia.
    f_equal.
    + rewrite (clen_B_step ak x (n - 1 - 2 * c - 1)) by (subst n; lia).
      replace (S (n - 1 - 2 * c - 1)) with (n - 1 - 2 * c) by lia.
      rewrite (clen_B_step ak x (n - 1 - 2 * c)) by (subst n; lia).
      ring.
    + rewrite (clen_B_step ak x (n - 1 - 2 * c)) by (subst n; lia). ring.
Qed.

Lemma clenshaw1_clen_pair ak x :
  1 <= length ak ->
  @clenshaw1 R exactR ak x
  = (nth 0 ak 0 + x * fst (clen_pair (skipn 1 ak) x)
     - fst (clen_pair (skipn 2 ak) x))%R.
Proof.
  intro Hn. unfold clenshaw1, clenshaw_ks.
  cbn [ofZ exactR mul add sub fzero lit div].
  rewrite !Rmult_0_l.
  replace (IZR 2 * x)%R with (2 * x)%R by reflexivity.
  rewrite (clenshaw_loop ak x ((length ak - 1) / 2)).
  2:{ pose proof (Nat.div_mod_eq (length ak - 1) 2). lia. }
  pose proof (Nat.div_mod_eq (length ak - 1) 2) as Hd.
  pose proof (Nat.mod_upper_bound (length ak - 1) 2 ltac:(lia)) as Hm.
  destruct (Nat.eqb_spec ((length ak - 1) mod 2) 1) as [H1|H1].
  - replace (length ak - 2 * ((length ak - 1) / 2)) with 2 by lia.
    rewrite (clen_B_step ak x 1) by lia.
    change (2 + 1) with 3. unfold Rdiv. field_simplify_eq. ring.
  - replace (length ak - 2 * ((length ak - 1) / 2)) with 1 by lia.
    change (1 + 1) with 2. unfold Rdiv. field_simplify_eq. ring.
Qed.

Lemma clenshaw1_cheb_series ak x :
  1 <= length ak -> @clenshaw1 R exactR ak x = cheb_series ak x.
Proof.
  intro Hn. rewrite clenshaw1_clen_pair by exact Hn.
  rewrite cheb_series_clen_pair.
  destruct ak as [|a t]; [simpl in Hn; lia|].
  rewrite clen_pair_fst, clen_pair_snd. cbn [skipn nth].
  destruct t as [|b t'].
  - simpl. ring.
  - rewrite clen_pair_snd. cbn [skipn]. ring.
Qed.

(** X1. In exact arithmetic [clenshaw(xx, ak)], for at least one
    coefficient, holds at each point [x] of [xx] the value of the Chebyshev
    series: the sum of [ak[k] * T_k(x)], with [T_k] the Chebyshev
    polynomials of the first kind. *)
Theorem clenshaw_evaluates_series (xx ak : list R) :
  1 <= length ak ->
  @clenshaw R exactR xx ak = map (cheb_series ak) xx.
Proof.
  intro Hn. unfold clenshaw. apply map_ext. intro x.
  apply clenshaw1_cheb_series. exact Hn.
Qed.

Lemma clenshaw_evaluates_series_witness :
  1 <= length [1; 2; 3]%R /\
  @clenshaw R exactR [0; 1]%R [1; 2; 3]%R = map (cheb_series [1; 2; 3]%R) [0; 1]%R.
Proof.
  split; [simpl; lia | apply (clenshaw_evaluates_series [0; 1]%R [1; 2; 3]%R); simpl; lia].
Defined.

(** ** The Chebyshev points *)

Lemma cos_SS_angle k t :
  cos (INR (S (S k)) * t) = (2 * cos t * cos (INR (S k) * t) - cos (INR k * t))%R.
Proof.
  replace (INR (S (S k)) * t)%R with (INR (S k) * t + t)%R
    by (rewrite (S_INR (S k)); ring).
  replace (INR k * t)%R with (INR (S k) * t - t)%R
    by (rewrite (S_INR k); ring).
  rewrite cos_plus, cos_minus. ring.
Qed.

Lemma Tcheb_pair_cos k t :
  Tcheb_pair k (cos t) = (cos (INR k * t), cos (INR (S k) * t)).
Proof.
  induction k as [|k IH].
  - simpl. rewrite Rmult_0_l, cos_0, Rmult_1_l. reflexivity.
  - cbn [Tcheb_pair]. rewrite IH. f_equal. symmetry. apply cos_SS_angle.
Qed.

Lemma Tcheb_cos k t : Tcheb k (cos t) = cos (INR k * t).
Proof. unfold Tcheb. rewrite Tcheb_pair_cos. reflexivity. Qed.

Lemma nth_rev_seq n i d : i < n -> nth i (rev (seq 0 n)) d = n - 1 - i.
Proof.
  intro H. rewrite rev_nth by (rewrite length_seq; lia).
  rewrite length_seq, seq_nth by lia. lia.
Qed.

(** The angle of the point [k] of [n] points. *)
Lemma chebpts2_nth n i :
  2 <= n -> i < n ->
  nth i (@chebpts2 R exactR n) 0%R = cos (INR (n - 1 - i) * (PI / INR (n - 1))).
Proof.
  intros Hn Hi. unfold chebpts2.
  destruct (Nat.eqb_spec n 1) as [E|_]; [lia|].
  rewrite (nth_map_in _ _ _ 0%nat) by (rewrite length_rev, length_seq; lia).
  rewrite nth_rev_seq by lia.
  cbn [fcos ofZ mul div fpi exactR].
  replace (Z.of_nat n - 1)%Z with (Z.of_nat (n - 1)) by lia.
  rewrite <- !INR_IZR_INZ. f_equal. unfold Rdiv. ring.
Qed.

Lemma chebpts2_length {F : Type} {SF : Scalar F} n : length (chebpts2 n) = n.
Proof.
  unfold chebpts2. destruct (Nat.eqb_spec n 1) as [->|_]; [reflexivity|].
  rewrite length_map, length_rev, length_seq. reflexivity.
Qed.

Lemma chebpts2_angle_range n k :
  2 <= n -> k <= n - 1 -> (0 <= INR k * (PI / INR (n - 1)) <= PI)%R.
Proof.
  intros Hn Hk.
  assert (Hpos : (0 < INR (n - 1))%R) by (apply lt_0_INR; lia).
  assert (HPI := PI_RGT_0).
  assert (H0 : (0 <= INR k)%R) by apply pos_INR.
  assert (Hle : (INR k <= INR (n - 1))%R) by (apply le_INR; lia).
  split.
  - apply Rmult_le_pos; [exact H0|]. apply Rlt_le, Rdiv_lt_0_compat; lra.
  - replace (INR k * (PI / INR (n - 1)))%R with (PI * (INR k / INR (n - 1)))%R
      by (field; lra).
    rewrite <- (Rmult_1_r PI) at 2. apply Rmult_le_compat_l; [lra|].
    apply (Rmult_le_reg_r (INR (n - 1))); [exact Hpos|].
    unfold Rdiv. rewrite Rmult_assoc, Rinv_l by lra. lra.
Qed.

(** X2. In exact arithmetic the points [chebpts2(n)] are in strictly
    increasing order. *)
Theorem chebpts2_strictly_increasing (n i j : nat) :
  i < j -> j < n ->
  (nth i (@chebpts2 R exactR n) 0 < nth j (@chebpts2 R exactR n) 0)%R.
Proof.
  intros Hij Hj.
  rewrite !chebpts2_nth by lia.
  assert (Hpos : (0 < INR (n - 1))%R) by (apply lt_0_INR; lia).
  apply cos_decreasing_1.
  - apply (chebpts2_angle_range n (n - 1 - j)); lia.
  - apply (chebpts2_angle_range n (n - 1 - j)); lia.
  - apply (chebpts2_angle_range n (n - 1 - i)); lia.
  - apply (chebpts2_angle_range n (n - 1 - i)); lia.
  - apply Rmult_lt_compat_r.
    + apply Rdiv_lt_0_compat; [apply PI_RGT_0 | exact Hpos].
    + apply lt_INR. lia.
Qed.

Lemma chebpts2_strictly_increasing_witness :
  0 < 1 /\ 1 < 3 /\
  (nth 0 (@chebpts2 R exactR 3) 0 < nth 1 (@chebpts2 R exactR 3) 0)%R.
Proof.
  split; [lia | split; [lia | apply (chebpts2_strictly_increasing 3 0 1); lia]].
Defined.

(** X3. [chebpts2(n)] has [n] entries, and in exact arithmetic, for
    [n >= 2], the first is -1, the last is 1, and the points are symmetric
    about 0: the entry [n-1-i] is the opposite of the entry [i]. *)
Theorem chebpts2_endpoints_symmetry (n : nat) :
  2 <= n ->
  length (@chebpts2 R exactR n) = n /\
  nth 0 (@chebpts2 R exactR n) 0%R = (-1)%R /\
  nth (n - 1) (@chebpts2 R exactR n) 0%R = 1%R /\
  forall i, i < n ->
    nth (n - 1 - i) (@chebpts2 R exactR n) 0%R
    = (- nth i (@chebpts2 R exactR n) 0)%R.
Proof.
  intro Hn.
  assert (Hpos : (0 < INR (n - 1))%R) by (apply lt_0_INR; lia).
  split; [apply chebpts2_length|]. split; [|split].
  - rewrite chebpts2_nth by lia.
    replace (n - 1 - 0) with (n - 1) by lia.
    replace (INR (n - 1) * (PI / INR (n - 1)))%R with PI by (field; lra).
    apply cos_PI.
  - rewrite chebpts2_nth by lia.
    replace (n - 1 - (n - 1)) with 0 by lia.
    simpl. rewrite Rmult_0_l. apply cos_0.
  - intros i Hi. rewrite !chebpts2_nth by lia.
    replace (n - 1 - (n - 1 - i)) with i by lia.
    replace (INR (n - 1 - i) * (PI / INR (n - 1)))%R
      with (PI - INR i * (PI / INR (n - 1)))%R.
    + rewrite cos_minus, cos_PI, sin_PI. ring.
    + assert (E : INR (n - 1 - i) = (INR (n - 1) - INR i)%R)
        by (apply minus_INR; lia).
      rewrite E. field. lra.
Qed.

Lemma chebpts2_endpoints_symmetry_witness :
  2 <= 3 /\
  length (@chebpts2 R exactR 3) = 3 /\
  nth 0 (@chebpts2 R exactR 3) 0%R = (-1)%R /\
  nth (3 - 1) (@chebpts2 R exactR 3) 0%R = 1%R /\
  forall i, i < 3 ->
    nth (3 - 1 - i) (@chebpts2 R exactR 3) 0%R
    = (- nth i (@chebpts2 R exactR 3) 0)%R.
Proof.
  split; [lia | apply (chebpts2_endpoints_symmetry 3); lia].
Defined.

(** ** The barycentric weights *)

Lemma nth_fold_set_nth {A : Type} (v d : A) (idxs : list nat) (w : list A) (j : nat) :
  j < length w ->
  nth j (fold_left (fun w i => set_nth i w v) idxs w) d
  = if existsb (Nat.eqb j) idxs then v else nth j w d.
Proof.
  revert w. induction idxs as [|i rest IH]; intros w Hj; [reflexivity|].
  cbn [fold_left existsb]. rewrite IH by (rewrite set_nth_length; exact Hj).
  destruct (Nat.eqb_spec j i) as [->|Hne]; cbn [orb].
  - rewrite nth_set_nth_same by exact Hj. destruct (existsb _ rest); reflexivity.
  - rewrite nth_set_nth_other by lia. reflexivity.
Qed.

Lemma length_fold_set_nth {A : Type} (v : A) (idxs : list nat) (w : list A) :
  length (fold_left (fun w i => set_nth i w v) idxs w) = length w.
Proof.
  revert w. induction idxs as [|i rest IH]; intro w; [reflexivity|].
  cbn [fold_left]. rewrite IH. apply set_nth_length.
Qed.

Lemma existsb_stride_down j s :
  existsb (Nat.eqb j) (stride_down s) = (j <=? s) && Nat.even (s - j).
Proof.
  apply Bool.eq_iff_eq_true.
  rewrite existsb_exists, andb_true_iff, Nat.leb_le, Nat.even_spec.
  unfold stride_down. split.
  - intros [k [Hin Hk]]. apply Nat.eqb_eq in Hk. subst k.
    apply in_map_iff in Hin. destruct Hin as [i [Hi Hin]].
    apply in_seq in Hin. pose proof (Nat.div_mod_eq s 2) as Hd.
    pose proof (Nat.mod_upper_bound s 2 ltac:(lia)).
    split; [lia|]. exists i. lia.
  - intros [Hle [m Hm]]. exists j. split; [|apply Nat.eqb_refl].
    apply in_map_iff. exists m. split; [lia|]. apply in_seq.
    pose proof (Nat.div_mod_eq s 2) as Hd.
    pose proof (Nat.mod_upper_bound s 2 ltac:(lia)). lia.
Qed.

Lemma barywts2_length {F : Type} {SF : Scalar F} n : length (barywts2 n) = n.
Proof.
  unfold barywts2.
  destruct (Nat.eqb_spec n 0) as [->|H0]; [reflexivity|].
  destruct (Nat.eqb_spec n 1) as [->|H1]; [reflexivity|].
  rewrite set_nth_length, length_fold_set_nth, length_app, repeat_length.
  simpl. lia.
Qed.

Lemma pow_m1_even m : ((-1) ^ (2 * m) = 1)%R.
Proof. rewrite pow_mult. replace ((-1) ^ 2)%R with 1%R by ring. apply pow1. Qed.

Lemma pow_m1_odd m : ((-1) ^ S (2 * m) = -1)%R.
Proof. rewrite <- tech_pow_Rmult, pow_m1_even. ring. Qed.

(** The weights before the first is halved. *)
Lemma barywts2_signs n i :
  2 <= n -> i < n ->
  nth i (fold_left (fun w k => set_nth k w (-1)%R) (stride_down (n - 2))
                   (repeat 1%R (n - 1) ++ [(5 / 10)%R])) 0%R
  = ((-1) ^ (n - 1 - i) * (if (i =? n - 1)%nat then 1 / 2 else 1))%R.
Proof.
  intros Hn Hi.
  rewrite nth_fold_set_nth by (rewrite length_app, repeat_length; simpl; lia).
  rewrite existsb_stride_down.
  destruct (Nat.eqb_spec i (n - 1)) as [->|Hne].
  - replace (n - 1 <=? n - 2) with false by (symmetry; apply Nat.leb_gt; lia).
    cbn [andb]. rewrite app_nth2 by (rewrite repeat_length; lia).
    rewrite repeat_length, Nat.sub_diag. cbn [nth].
    replace (n - 1 - (n - 1)) with 0 by lia. simpl. lra.
  - replace (i <=? n - 2) with true by (symmetry; apply Nat.leb_le; lia).
    cbn [andb]. destruct (Nat.even (n - 2 - i)) eqn:Ev.
    + apply Nat.even_spec in Ev. destruct Ev as [m Hm].
      replace (n - 1 - i) with (S (2 * m)) by lia. rewrite pow_m1_odd. ring.
    + assert (Od : Nat.odd (n - 2 - i) = true)
        by (rewrite <- Nat.negb_even, Ev; reflexivity).
      apply Nat.odd_spec in Od. destruct Od as [m Hm].
      replace (n - 1 - i) with (2 * (m + 1)) by lia. rewrite pow_m1_even.
      rewrite app_nth1 by (rewrite repeat_length; lia).
      rewrite nth_repeat_lt by lia. ring.
Qed.

Lemma barywts2_exact_nth (n i : nat) :
  2 <= n -> i < n ->
  nth i (@barywts2 R exactR n) 0%R
  = ((-1) ^ (n - 1 - i)
     * (if ((i =? 0) || (i =? n - 1))%nat then 1 / 2 else 1))%R.
Proof.
  intros Hn Hi.
  unfold barywts2.
  destruct (Nat.eqb_spec n 0) as [E|_]; [lia|].
  destruct (Nat.eqb_spec n 1) as [E|_]; [lia|].
  cbn [fone fzero ofZ lit mul div exactR].
  change (IZR (-1)) with (-1)%R. change (IZR 5 / IZR 10)%R with (5 / 10)%R.
  destruct (Nat.eqb_spec i 0) as [->|Hi0].
  - rewrite nth_set_nth_same
      by (rewrite length_fold_set_nth, length_app, repeat_length; simpl; lia).
    rewrite barywts2_signs by lia.
    replace (0 =? n - 1) with false by (symmetry; apply Nat.eqb_neq; lia).
    cbn [orb]. lra.
  - rewrite nth_set_nth_other by lia.
    rewrite barywts2_signs by lia. cbn [orb]. reflexivity.
Qed.

(** X4. [barywts2(n)] has [n] entries and in exact arithmetic, for
    [n >= 2], they alternate in sign and end with a positive one, with
    magnitude 1 inside and 1/2 at both ends: the entry [i] is
    [(-1)^(n-1-i)], halved for [i = 0] and [i = n-1]. *)
Theorem barywts2_closed_form (n i : nat) :
  2 <= n -> i < n ->
  length (@barywts2 R exactR n) = n /\
  nth i (@barywts2 R exactR n) 0%R
  = ((-1) ^ (n - 1 - i)
     * (if ((i =? 0) || (i =? n - 1))%nat then 1 / 2 else 1))%R.
Proof.
  intros Hn Hi. split; [apply barywts2_length|].
  apply barywts2_exact_nth; assumption.
Qed.

Lemma barywts2_closed_form_witness :
  2 <= 4 /\ 1 < 4 /\
  length (@barywts2 R exactR 4) = 4 /\
  nth 1 (@barywts2 R exactR 4) 0%R
  = ((-1) ^ (4 - 1 - 1)
     * (if ((1 =? 0) || (1 =? 4 - 1))%nat then 1 / 2 else 1))%R.
Proof.
  split; [lia | split; [lia | apply (barywts2_closed_form 4 1); lia]].
Defined.

(** ** vals2coeffs2 after coeffs2vals2 *)

Section RoundTripBack.
Local Open Scope R_scope.

Lemma scale_interior_cancel_back (n : nat) (a : list (@cplx R)) :
  @scale_interior R exactR (cofR (ofZ 2%Z)) n
    (@scale_interior R exactR (cofR (lit 5 10)) n a) = a.
Proof.
  apply nth_ext with (d := 0c) (d' := 0c).
  - now rewrite !scale_interior_length.
  - intros i Hi. rewrite !scale_interior_length in Hi.
    unfold scale_interior at 1.
    rewrite (nth_map_in _ _ 0c 0%nat)
      by (rewrite length_seq, scale_interior_length; exact Hi).
    rewrite seq_nth by (rewrite scale_interior_length; exact Hi). cbn [Nat.add].
    unfold scale_interior.
    rewrite (nth_map_in _ _ 0c 0%nat) by (rewrite length_seq; exact Hi).
    rewrite seq_nth by exact Hi. cbn [Nat.add].
    destruct ((1 <=? i)%nat && (i <? n - 1)%nat); [|reflexivity].
    destruct (nth i a 0c) as [x y]. unfold cofR, cmul, lit; cbn. f_equal; lra.
Qed.

(** The inner part of an array read backwards is the inner part of the
    array, read backwards. *)
Lemma slice_inner_rev (l : list (@cplx R)) :
  slice 1 (length l - 1) (rev l) = rev (slice 1 (length l - 1) l).
Proof.
  apply nth_ext with (d := 0c) (d' := 0c).
  - rewrite length_rev, !slice_length by (rewrite ?length_rev; lia). reflexivity.
  - intros p Hp. rewrite slice_length in Hp by (rewrite length_rev; lia).
    rewrite slice_nth by lia.
    rewrite rev_nth by lia.
    rewrite rev_nth by (rewrite slice_length; lia).
    rewrite slice_length by lia. rewrite slice_nth by lia.
    f_equal. lia.
Qed.

Lemma fft_mirrored (a : list (@cplx R)) : mirrored a -> mirrored (@fft R exactR a).
Proof. apply dft_mirrored. Qed.

Lemma vals2coeffs2_length_exact (v : list (@cplx R)) :
  length (@vals2coeffs2 R exactR v) = length v.
Proof.
  destruct (Nat.leb_spec (length v) 1) as [H|H].
  - unfold vals2coeffs2.
    replace (length v <=? 1)%nat with true by (symmetry; apply Nat.leb_le; lia).
    reflexivity.
  - rewrite vals2coeffs2_exact by lia.
    rewrite scale_interior_length, length_firstn, ifft_length, tmp_vals_length by lia.
    lia.
Qed.

Lemma coeffs2vals2_length_exact (c : list (@cplx R)) :
  length (@coeffs2vals2 R exactR c) = length c.
Proof.
  destruct (Nat.leb_spec (length c) 1) as [H|H].
  - unfold coeffs2vals2.
    replace (length c <=? 1)%nat with true by (symmetry; apply Nat.leb_le; lia).
    reflexivity.
  - rewrite coeffs2vals2_exact by lia. cbv zeta.
    rewrite length_rev, length_firstn, fft_length, length_app, length_rev.
    rewrite slice_length by (rewrite scale_interior_length; lia).
    rewrite scale_interior_length. lia.
Qed.

Lemma roundtrip_back (c : list (@cplx R)) :
  @vals2coeffs2 R exactR (@coeffs2vals2 R exactR c) = c.
Proof.
  destruct (Nat.leb_spec (length c) 1) as [Hshort|Hn].
  - unfold coeffs2vals2.
    replace (length c <=? 1)%nat with true by (symmetry; apply Nat.leb_le; lia).
    unfold vals2coeffs2.
    replace (length c <=? 1)%nat with true by (symmetry; apply Nat.leb_le; lia).
    reflexivity.
  - assert (Hn2 : (2 <= length c)%nat) by lia.
    set (c' := @scale_interior R exactR (cofR (lit 5 10)) (length c) c).
    assert (Hc' : length c' = length c) by apply scale_interior_length.
    set (t := c' ++ rev (slice 1 (length c - 1) c')).
    assert (Ht : length t = (2 * length c - 2)%nat).
    { unfold t. rewrite <- Hc'. apply tmp_coeffs_length. lia. }
    assert (Htm : mirrored t).
    { unfold t. rewrite <- Hc'. apply tmp_coeffs_mirrored. lia. }
    set (y := @fft R exactR t).
    assert (Hy : length y = (2 * length c - 2)%nat) by (unfold y; now rewrite fft_length).
    assert (Hym : mirrored y) by (apply fft_mirrored; exact Htm).
    assert (Hfy : length (firstn (length c) y) = length c)
      by (rewrite length_firstn; lia).
    assert (Hv : @coeffs2vals2 R exactR c = rev (firstn (length c) y)).
    { rewrite coeffs2vals2_exact by exact Hn2. reflexivity. }
    rewrite Hv.
    rewrite vals2coeffs2_exact by (rewrite length_rev, Hfy; exact Hn2).
    rewrite length_rev, Hfy, rev_involutive.
    pose proof (slice_inner_rev (firstn (length c) y)) as Hs.
    rewrite Hfy in Hs. rewrite Hs.
    rewrite (mirrored_rebuild y (length c) Hn2 Hy Hym).
    unfold y. rewrite ifft_fft. unfold t.
    rewrite firstn_app, Hc', Nat.sub_diag, firstn_all2 by lia.
    cbn [firstn]. rewrite app_nil_r. apply scale_interior_cancel_back.
Qed.

(** X5. In exact arithmetic, for every array [c] of real or complex
    coefficients, of any length, [vals2coeffs2 (coeffs2vals2 c)] is [c]:
    the values at the Chebyshev points determine the coefficients. *)
Theorem vals2coeffs2_coeffs2vals2 (c : list (@cplx R)) :
  @vals2coeffs2 R exactR (@coeffs2vals2 R exactR c) = c.
Proof. apply roundtrip_back. Qed.
End RoundTripBack.

(** ** coeffs2vals2 evaluates the series at the Chebyshev points *)

Section EvaluationAtChebpts.
Local Open Scope R_scope.

Lemma csum_shift (g : nat -> @cplx R) (s a k : nat) :
  @csum R exactR (map g (seq (a + s) k))
  = @csum R exactR (map (fun p => g (p + s)%nat) (seq a k)).
Proof.
  revert a. induction k as [|k IH]; intro a; [reflexivity|].
  cbn [seq map]. rewrite !csum_cons. f_equal.
  change (S (a + s)) with (S a + s)%nat. apply IH.
Qed.

(** A sum whose first and last terms are zero. *)
Lemma csum_inner (h : nat -> @cplx R) (n : nat) :
  (2 <= n)%nat -> h 0%nat = 0c -> h (n - 1)%nat = 0c ->
  @csum R exactR (map h (seq 0 n)) = @csum R exactR (map h (seq 1 (n - 2))).
Proof.
  intros Hn H0 Hl.
  replace n with (1 + ((n - 2) + 1))%nat at 1 by lia.
  rewrite seq_app, map_app, csum_app. cbn [seq map]. rewrite csum_cons, H0.
  rewrite seq_app, map_app, csum_app. cbn [seq map Nat.add].
  replace (S (n - 2)) with (n - 1)%nat by lia.
  rewrite csum_cons, Hl. unfold csum at 1 3. cbn [fold_right]. ring.
Qed.

Lemma csum_cofR (f : nat -> R) (l : list nat) :
  @csum R exactR (map (fun j => @cofR R exactR (f j)) l)
  = @cofR R exactR (rsum (map f l)).
Proof.
  induction l as [|j l IH]; [reflexivity|].
  cbn [map]. rewrite csum_cons, IH. unfold cofR, cadd, rsum; cbn. f_equal. ring.
Qed.

Lemma sin_nat_PI (m : nat) : sin (INR m * PI) = 0.
Proof. apply sin_eq_0_1. exists (Z.of_nat m). now rewrite INR_IZR_INZ. Qed.

(** The angle [2 pi p m / (2n - 2)] is [p] times [m pi / (n - 1)]. *)
Lemma ang_half (n : nat) (d : Z) :
  (2 <= n)%nat -> ang (2 * n - 2) d = IZR d * (PI / INR (n - 1)).
Proof.
  intro Hn. unfold ang.
  assert (Hpos : 0 < INR (n - 1)) by (apply lt_0_INR; lia).
  replace (Z.of_nat (2 * n - 2)) with (2 * Z.of_nat (n - 1))%Z by lia.
  rewrite mult_IZR, <- INR_IZR_INZ. field. lra.
Qed.

(** The transform of the mirrored coefficients is a sum of cosines. *)
Lemma fft_mirrored_cosines (c' : list (@cplx R)) (m : nat) :
  (2 <= length c')%nat -> (m < length c')%nat ->
  nth m (@fft R exactR (c' ++ rev (slice 1 (length c' - 1) c'))) 0c
  = @csum R exactR
      (map (fun j =>
              nth j c' 0c *c cis (- (INR j * (INR m * (PI / INR (length c' - 1)))))
              +c (if ((1 <=? j) && (j <? length c' - 1))%nat
                  then nth j c' 0c *c cis (INR j * (INR m * (PI / INR (length c' - 1))))
                  else 0c))
           (seq 0 (length c'))).
Proof.
  intros Hn Hm.
  set (n := length c') in *.
  set (t := c' ++ rev (slice 1 (n - 1) c')).
  assert (Ht : length t = (2 * n - 2)%nat) by (apply tmp_coeffs_length; exact Hn).
  unfold fft. rewrite dft_nth by lia. rewrite Ht.
  set (g := fun j : nat => nth j t 0c *c cis (ang (2 * n - 2) (-1 * Z.of_nat j * Z.of_nat m))).
  rewrite csum_add.
  rewrite (csum_inner (fun j => if ((1 <=? j) && (j <? n - 1))%nat
                                then nth j c' 0c *c cis (INR j * (INR m * (PI / INR (n - 1))))
                                else 0c) n Hn).
  2:{ reflexivity. }
  2:{ replace (n - 1 <? n - 1)%nat with false by (symmetry; apply Nat.ltb_ge; lia).
      rewrite andb_false_r. reflexivity. }
  replace (seq 0 (2 * n - 2)) with (seq 0 (n + (n - 2))) by (f_equal; lia).
  rewrite seq_app, map_app, csum_app. f_equal.
  - apply csum_ext. intros j Hj. unfold g, t.
    rewrite tmp_coeffs_nth by (fold n; lia). fold n.
    replace (j <? n)%nat with true by (symmetry; apply Nat.ltb_lt; lia).
    f_equal. f_equal. rewrite ang_half by exact Hn.
    rewrite !mult_IZR, <- !INR_IZR_INZ. simpl (IZR (-1)). ring.
  - cbn [Nat.add].
    replace n with (1 + (n - 1))%nat at 1 by lia.
    rewrite csum_shift. rewrite csum_reflect.
    apply csum_ext. intros p Hp. unfold g, t.
    rewrite tmp_coeffs_nth by (fold n; lia). fold n.
    replace (S (n - 2) - p + (n - 1) <? n)%nat with false
      by (symmetry; apply Nat.ltb_ge; lia).
    replace ((1 <=? p) && (p <? n - 1))%nat with true.
    2:{ symmetry. apply andb_true_iff. split; [apply Nat.leb_le|apply Nat.ltb_lt]; lia. }
    replace (2 * n - 2 - (S (n - 2) - p + (n - 1)))%nat with p by lia.
    f_equal.
    replace (-1 * Z.of_nat (S (n - 2) - p + (n - 1)) * Z.of_nat m)%Z
      with (Z.of_nat p * Z.of_nat m + (- Z.of_nat m) * Z.of_nat (2 * n - 2))%Z by lia.
    rewrite cis_ang_shift by lia. f_equal. rewrite ang_half by exact Hn.
    rewrite !mult_IZR, <- !INR_IZR_INZ. ring.
Qed.

Lemma nth_map_cofR (c : list R) (j : nat) :
  nth j (map (@cofR R exactR) c) 0c = @cofR R exactR (nth j c 0).
Proof. change 0c with (@cofR R exactR 0). apply map_nth. Qed.

Lemma scale_interior_nth (z : @cplx R) (n : nat) (a : list (@cplx R)) (j : nat) :
  (j < length a)%nat ->
  nth j (@scale_interior R exactR z n a) 0c
  = if ((1 <=? j) && (j <? n - 1))%nat then z *c nth j a 0c else nth j a 0c.
Proof.
  intro Hj. unfold scale_interior.
  rewrite (nth_map_in _ _ 0c 0%nat) by (rewrite length_seq; exact Hj).
  rewrite seq_nth by exact Hj. reflexivity.
Qed.

Lemma coeffs2vals2_real_nth (c : list R) (i : nat) :
  (2 <= length c)%nat -> (i < length c)%nat ->
  nth i (@coeffs2vals2 R exactR (map (@cofR R exactR) c)) 0c
  = @cofR R exactR (cheb_series c (nth i (@chebpts2 R exactR (length c)) 0)).
Proof.
  intros Hn Hi.
  set (n := length c) in *.
  assert (Hlm : length (map (@cofR R exactR) c) = n) by apply length_map.
  rewrite coeffs2vals2_exact by (rewrite Hlm; exact Hn). cbv zeta. rewrite Hlm.
  set (c' := @scale_interior R exactR (cofR (lit 5 10)) n (map (@cofR R exactR) c)).
  assert (Hc' : length c' = n) by (unfold c'; rewrite scale_interior_length; exact Hlm).
  assert (Hpos : 0 < INR (n - 1)) by (apply lt_0_INR; lia).
  rewrite rev_nth; rewrite length_firstn, fft_length, length_app, length_rev,
    slice_length, Hc' by lia; [|lia].
  replace (Init.Nat.min n (n + (n - 1 - 1)))%nat with n by lia.
  rewrite nth_firstn.
  replace (n - S i <? n)%nat with true by (symmetry; apply Nat.ltb_lt; lia).
  pose proof (fft_mirrored_cosines c' (n - S i)) as Hcos.
  rewrite Hc' in Hcos. rewrite Hcos by lia. clear Hcos.
  rewrite chebpts2_nth by (fold n; lia). fold n.
  replace (n - 1 - i)%nat with (n - S i)%nat by lia.
  set (th := INR (n - S i) * (PI / INR (n - 1))).
  unfold cheb_series. fold n. rewrite <- csum_cofR.
  apply csum_ext. intros j Hj. rewrite Tcheb_cos.
  unfold c'. rewrite scale_interior_nth by (rewrite Hlm; lia).
  rewrite nth_map_cofR.
  destruct ((1 <=? j)%nat && (j <? n - 1)%nat) eqn:Hin.
  - unfold cofR, cmul, cadd, cis, lit. cbn. rewrite cos_neg, sin_neg.
    f_equal; field.
  - assert (Hj' : j = 0%nat \/ j = (n - 1)%nat).
    { apply andb_false_iff in Hin. destruct Hin as [H|H].
      - apply Nat.leb_gt in H. lia.
      - apply Nat.ltb_ge in H. lia. }
    assert (Hs : sin (INR j * th) = 0).
    { destruct Hj' as [->| ->].
      - simpl. rewrite Rmult_0_l. apply sin_0.
      - unfold th.
        replace (INR (n - 1) * (INR (n - S i) * (PI / INR (n - 1))))
          with (INR (n - S i) * PI) by (field; lra).
        apply sin_nat_PI. }
    unfold cofR, cmul, cadd, cis, czero. cbn. rewrite cos_neg, sin_neg, Hs.
    f_equal; ring.
Qed.

Lemma coeffs2vals2_clenshaw (c : list R) :
  (1 <= length c)%nat ->
  @coeffs2vals2 R exactR (map (@cofR R exactR) c)
  = map (@cofR R exactR) (@clenshaw R exactR (@chebpts2 R exactR (length c)) c).
Proof.
  intro H1.
  destruct (Nat.leb_spec (length c) 1) as [Hshort|Hn].
  - unfold coeffs2vals2. rewrite length_map.
    replace (length c <=? 1)%nat with true by (symmetry; apply Nat.leb_le; lia).
    destruct c as [|a [|b t]]; [simpl in H1; lia| |simpl in Hshort; lia].
    unfold clenshaw, chebpts2, clenshaw1, cofR, lit. cbn.
    f_equal. f_equal. field.
  - apply nth_ext with (d := 0c) (d' := @cofR R exactR 0).
    + rewrite coeffs2vals2_length_exact, !length_map.
      unfold clenshaw. rewrite length_map, chebpts2_length. reflexivity.
    + intros i Hi. rewrite coeffs2vals2_length_exact, length_map in Hi.
      rewrite coeffs2vals2_real_nth by lia.
      rewrite map_nth. f_equal. unfold clenshaw.
      rewrite (nth_map_in _ _ 0 0) by (rewrite chebpts2_length; exact Hi).
      symmetry. apply clenshaw1_cheb_series. lia.
Qed.

(** X6. In exact arithmetic, for [n >= 1] real coefficients [c],
    [coeffs2vals2(c)] holds the values [clenshaw(chebpts2(n), c)] of the
    Chebyshev series at the [n] Chebyshev points, in the order of
    [chebpts2]. *)
Theorem coeffs2vals2_is_clenshaw_at_chebpts2 (c : list R) :
  (1 <= length c)%nat ->
  @coeffs2vals2 R exactR (map (@cofR R exactR) c)
  = map (@cofR R exactR) (@clenshaw R exactR (@chebpts2 R exactR (length c)) c).
Proof. apply coeffs2vals2_clenshaw. Qed.

Lemma coeffs2vals2_is_clenshaw_at_chebpts2_witness :
  (1 <= length [1; 2; 3])%nat /\
  @coeffs2vals2 R exactR (map (@cofR R exactR) [1; 2; 3])
  = map (@cofR R exactR)
        (@clenshaw R exactR (@chebpts2 R exactR (length [1; 2; 3])) [1; 2; 3]).
Proof.
  split; [simpl; lia | apply (coeffs2vals2_is_clenshaw_at_chebpts2 [1; 2; 3]); simpl; lia].
Defined.

(** X7. In exact arithmetic, [vals2coeffs2] applied to the values of a
    real Chebyshev series of [n >= 1] coefficients at the points
    [chebpts2(n)], as [clenshaw] computes them, returns the [n]
    coefficients of the series. *)
Theorem vals2coeffs2_recovers_coefficients (c : list R) :
  (1 <= length c)%nat ->
  @vals2coeffs2 R exactR
    (map (@cofR R exactR) (@clenshaw R exactR (@chebpts2 R exactR (length c)) c))
  = map (@cofR R exactR) c.
Proof.
  intro H1. rewrite <- coeffs2vals2_clenshaw by exact H1.
  apply roundtrip_back.
Qed.

Lemma vals2coeffs2_recovers_coefficients_witness :
  (1 <= length [1; 2; 3])%nat /\
  @vals2coeffs2 R exactR
    (map (@cofR R exactR)
         (@clenshaw R exactR (@chebpts2 R exactR (length [1; 2; 3])) [1; 2; 3]))
  = map (@cofR R exactR) [1; 2; 3].
Proof.
  split; [simpl; lia | apply (vals2coeffs2_recovers_coefficients [1; 2; 3]); simpl; lia].
Defined.
End EvaluationAtChebpts.

(** ** coeffmult multiplies the series *)

Section CoeffMultProduct.
Local Open Scope R_scope.

(** The array [append(2*a[:1], (a[1:], a[:0:-1]))] of [coeffmult], for
    real coefficients. *)
Lemma even_extension_length (a : list (@cplx R)) (c2 : @cplx R) :
  (1 <= length a)%nat ->
  length (map (@cmul R exactR c2) (firstn 1 a) ++ skipn 1 a ++ rev (skipn 1 a))
  = (2 * length a - 1)%nat.
Proof.
  intro H. destruct a as [|a0 t]; [simpl in H; lia|].
  cbn [firstn skipn map app length]. rewrite length_app, length_rev. lia.
Qed.

Lemma even_extension_nth (a : list (@cplx R)) (c2 : @cplx R) (j : nat) :
  (1 <= length a)%nat -> (j < 2 * length a - 1)%nat ->
  nth j (map (@cmul R exactR c2) (firstn 1 a) ++ skipn 1 a ++ rev (skipn 1 a)) 0c
  = if (j =? 0)%nat then c2 *c nth 0 a 0c
    else nth (if (j <? length a)%nat then j else 2 * length a - 1 - j)%nat a 0c.
Proof.
  intros H Hj. destruct a as [|a0 t]; [simpl in H; lia|].
  cbn [firstn skipn map app length] in *.
  destruct j as [|j]; [reflexivity|]. cbn [Nat.eqb nth].
  destruct (Nat.ltb_spec (S j) (S (length t))) as [Hlt|Hge].
  - rewrite app_nth1 by lia. reflexivity.
  - rewrite app_nth2 by lia. rewrite rev_nth by lia.
    replace (2 * S (length t) - 1 - S j)%nat
      with (S (length t - S (j - length t))) by lia.
    reflexivity.
Qed.

Lemma ang_mul_nat (N j m : nat) :
  ang N (Z.of_nat j * Z.of_nat m) = INR j * ang N (Z.of_nat m).
Proof.
  unfold ang. rewrite mult_IZR, <- (INR_IZR_INZ j). unfold Rdiv. ring.
Qed.

(** Its transform holds twice the values of the series at the points
    [cos (2 pi m / (2n - 1))]. *)
Lemma fft_even_extension (f : list R) (m : nat) :
  (1 <= length f)%nat -> (m < 2 * length f - 1)%nat ->
  nth m (@fft R exactR
           (map (@cmul R exactR (cofR (ofZ 2%Z)))
                (firstn 1 (map (@cofR R exactR) f))
            ++ skipn 1 (map (@cofR R exactR) f)
            ++ rev (skipn 1 (map (@cofR R exactR) f)))) 0c
  = @cofR R exactR
      (2 * cheb_series f (cos (ang (2 * length f - 1) (Z.of_nat m)))).
Proof.
  intros Hn Hm.
  set (n := length f) in *.
  set (a := map (@cofR R exactR) f).
  assert (Ha : length a = n) by apply length_map.
  set (c2 := @cofR R exactR (ofZ 2%Z)).
  set (Fc := map (@cmul R exactR c2) (firstn 1 a) ++ skipn 1 a ++ rev (skipn 1 a)).
  assert (HF : length Fc = (2 * n - 1)%nat)
    by (unfold Fc; rewrite even_extension_length, Ha by lia; reflexivity).
  set (th := ang (2 * n - 1) (Z.of_nat m)).
  unfold fft. rewrite dft_nth by lia. rewrite HF.
  set (g := fun j : nat =>
              nth j Fc 0c *c cis (ang (2 * n - 1) (-1 * Z.of_nat j * Z.of_nat m))).
  replace (seq 0 (2 * n - 1)) with (seq 0 (n + (n - 1))) by (f_equal; lia).
  rewrite seq_app, map_app, csum_app. cbn [Nat.add].
  replace (seq n (n - 1)) with (seq (1 + (n - 1)) (n - 1)) by (f_equal; lia).
  rewrite csum_shift, csum_reflect.
  replace (seq 0 n) with (seq 0 (1 + (n - 1))) by (f_equal; lia).
  rewrite seq_app, map_app, csum_app. cbn [seq map Nat.add].
  unfold cheb_series. fold n.
  replace (seq 0 n) with (seq 0 (1 + (n - 1))) by (f_equal; lia).
  rewrite seq_app, map_app. cbn [seq map Nat.add app].
  unfold rsum. cbn [fold_right]. fold (rsum (map (fun k => nth k f 0 * Tcheb k (cos th)) (seq 1 (n - 1)))).
  assert (Hmid :
    @csum R exactR (map g (seq 1 (n - 1)))
    +c @csum R exactR
         (map (fun i => g (S (n - 1) - i + (n - 1))%nat) (seq 1 (n - 1)))
    = @cofR R exactR (2 * rsum (map (fun k => nth k f 0 * Tcheb k (cos th)) (seq 1 (n - 1))))).
  { rewrite <- csum_add.
    transitivity
      (@csum R exactR
         (map (fun k => @cofR R exactR (2 * (nth k f 0 * Tcheb k (cos th))))
              (seq 1 (n - 1)))).
    - apply csum_ext. intros p Hp. unfold g, Fc.
      rewrite !even_extension_nth by (rewrite Ha; lia). rewrite Ha.
      replace (p =? 0)%nat with false by (symmetry; apply Nat.eqb_neq; lia).
      replace (S (n - 1) - p + (n - 1) =? 0)%nat with false
        by (symmetry; apply Nat.eqb_neq; lia).
      replace (p <? n)%nat with true by (symmetry; apply Nat.ltb_lt; lia).
      replace (S (n - 1) - p + (n - 1) <? n)%nat with false
        by (symmetry; apply Nat.ltb_ge; lia).
      replace (2 * n - 1 - (S (n - 1) - p + (n - 1)))%nat with p by lia.
      replace (-1 * Z.of_nat (S (n - 1) - p + (n - 1)) * Z.of_nat m)%Z
        with (Z.of_nat p * Z.of_nat m + (- Z.of_nat m) * Z.of_nat (2 * n - 1))%Z by lia.
      rewrite cis_ang_shift by lia.
      replace (-1 * Z.of_nat p * Z.of_nat m)%Z with (- (Z.of_nat p * Z.of_nat m))%Z by lia.
      rewrite <- cconj_cis_ang. rewrite ang_mul_nat. fold th.
      rewrite Tcheb_cos. unfold a. rewrite nth_map_cofR.
      unfold cofR, cmul, cadd, cconj, cis. cbn. f_equal; ring.
    - rewrite csum_cofR. f_equal. unfold rsum.
      induction (seq 1 (n - 1)) as [|k l IH]; cbn [map fold_right]; [ring|].
      rewrite IH. ring. }
  match goal with
  | |- ?X +c ?Y +c ?Z = _ => transitivity (X +c (Y +c Z)); [ring|]
  end.
  rewrite Hmid.
  unfold g at 1. unfold Fc. rewrite even_extension_nth by (rewrite Ha; lia).
  cbn [Nat.eqb]. unfold a. rewrite nth_map_cofR.
  replace (ang (2 * n - 1) (-1 * Z.of_nat 0 * Z.of_nat m)) with 0
    by (unfold ang; simpl; unfold Rdiv; ring).
  rewrite cis_0, Tcheb_0.
  unfold c2, cofR, cmul, cadd, cone, csum. cbn. f_equal; ring.
Qed.

(** The last steps of [coeffmult] undo the extension. *)
Lemma fold_even_extension (h : list R) :
  (1 <= length h)%nat ->
  let Hc := map (@cmul R exactR (cofR (ofZ 2%Z)))
                (firstn 1 (map (@cofR R exactR) h))
            ++ skipn 1 (map (@cofR R exactR) h)
            ++ rev (skipn 1 (map (@cofR R exactR) h)) in
  let ak := map (fun z => (2, 0) *c z) Hc in
  firstn (length h)
    (map (fun z => z *c @cofR R exactR (lit 25 100))
         (firstn 1 ak ++ map2 (@cadd R exactR) (skipn 1 ak) (rev (skipn 1 ak))))
  = map (@cofR R exactR) h.
Proof.
  intros Hn. destruct h as [|h0 t]; [simpl in Hn; lia|].
  cbn [map firstn skipn app length].
  set (tc := map (@cofR R exactR) t).
  assert (Hrev : rev (map (fun z => (2, 0) *c z) (tc ++ rev tc))
                 = map (fun z => (2, 0) *c z) (tc ++ rev tc)).
  { now rewrite <- map_rev, rev_app_distr, rev_involutive. }
  rewrite Hrev, map2_diag, !map_map. f_equal.
  - unfold cofR, cmul, lit; cbn. f_equal; lra.
  - assert (Htail : map (fun z => ((2, 0) *c z +c (2, 0) *c z) *c @cofR R exactR (lit 25 100))
                        (tc ++ rev tc) = tc ++ rev tc).
    { transitivity (map (fun z : @cplx R => z) (tc ++ rev tc)); [|apply map_id].
      apply map_ext. intros [x y]. unfold cofR, cmul, cadd, lit; cbn. f_equal; lra. }
    rewrite Htail.
    rewrite firstn_app. replace (length tc) with (length t) by (unfold tc; now rewrite length_map).
    rewrite firstn_all2 by (unfold tc; rewrite length_map; lia).
    rewrite Nat.sub_diag. cbn [firstn]. apply app_nil_r.
Qed.

Lemma isreal_all_map_cofR (l : list R) :
  @isreal_all R exactR (map (@cofR R exactR) l) = true.
Proof.
  apply isreal_all_iff. apply Forall_map. apply Forall_forall. intros x _. reflexivity.
Qed.

Lemma real_projection_map_cofR (l : list R) :
  map (fun z => @cofR R exactR (creal z)) (map (@cofR R exactR) l)
  = map (@cofR R exactR) l.
Proof. rewrite map_map. apply map_ext. intro x. reflexivity. Qed.

Lemma isreal_all_iff_true_app (f g : list R) :
  @isreal_all R exactR (map (@cofR R exactR) f ++ map (@cofR R exactR) g) = true.
Proof. rewrite <- map_app. apply isreal_all_map_cofR. Qed.

(** X8. In exact arithmetic, for real series [f] and [g] of one length
    [n >= 1] whose product is again a series of [n] coefficients [h] (the
    caller pads [f] and [g] with zeros for this), [coeffmult(f, g)] is
    [h]: the coefficients of the product of the two functions. *)
Theorem coeffmult_is_product (f g h : list R) :
  (1 <= length f)%nat -> length g = length f -> length h = length f ->
  (forall x, cheb_series h x = cheb_series f x * cheb_series g x) ->
  @coeffmult R exactR (map (@cofR R exactR) f) (map (@cofR R exactR) g)
  = map (@cofR R exactR) h.
Proof.
  intros Hn Hg Hh Hprod. unfold coeffmult.
  set (Fc := map (@cmul R exactR (cofR (ofZ 2%Z))) (firstn 1 (map (@cofR R exactR) f))
             ++ skipn 1 (map (@cofR R exactR) f)
             ++ rev (skipn 1 (map (@cofR R exactR) f))).
  set (Gc := map (@cmul R exactR (cofR (ofZ 2%Z))) (firstn 1 (map (@cofR R exactR) g))
             ++ skipn 1 (map (@cofR R exactR) g)
             ++ rev (skipn 1 (map (@cofR R exactR) g))).
  set (Hc := map (@cmul R exactR (cofR (ofZ 2%Z)))
                 (firstn 1 (map (@cofR R exactR) h))
             ++ skipn 1 (map (@cofR R exactR) h)
             ++ rev (skipn 1 (map (@cofR R exactR) h))).
  assert (HF : length Fc = (2 * length f - 1)%nat).
  { unfold Fc. rewrite (even_extension_length (map (@cofR R exactR) f));
      rewrite length_map; [reflexivity|lia]. }
  assert (HG : length Gc = (2 * length f - 1)%nat).
  { unfold Gc. rewrite (even_extension_length (map (@cofR R exactR) g));
      rewrite length_map; [now rewrite Hg|lia]. }
  assert (HH : length Hc = (2 * length f - 1)%nat).
  { unfold Hc. rewrite (even_extension_length (map (@cofR R exactR) h));
      rewrite length_map; [now rewrite Hh|lia]. }
  assert (Hmul : map2 (@cmul R exactR) (@fft R exactR Fc) (@fft R exactR Gc)
                 = map (fun z => (2, 0) *c z) (@fft R exactR Hc)).
  { apply nth_ext with (d := 0c) (d' := 0c).
    - rewrite map2_length, length_map, !fft_length. lia.
    - intros m Hm. rewrite map2_length, !fft_length in Hm.
      rewrite nth_map2 by (rewrite fft_length; lia).
      rewrite (nth_map_in _ _ 0c 0c) by (rewrite fft_length; lia).
      unfold Fc, Gc, Hc.
      rewrite (fft_even_extension f m) by lia.
      rewrite (fft_even_extension g m) by lia.
      rewrite (fft_even_extension h m) by lia.
      rewrite Hg, Hh, Hprod.
      unfold cofR, cmul. cbn. f_equal; ring. }
  rewrite Hmul, ifft_scal, ifft_fft.
  rewrite length_map.
  rewrite isreal_all_iff_true_app.
  rewrite <- Hh. unfold Hc. rewrite (fold_even_extension h) by lia.
  apply real_projection_map_cofR.
Qed.

Lemma coeffmult_is_product_witness :
  (forall x, cheb_series [5 / 2; 3; 1 / 2] x
             = cheb_series [1; 1; 0] x * cheb_series [2; 1; 0] x) /\
  @coeffmult R exactR (map (@cofR R exactR) [1; 1; 0]) (map (@cofR R exactR) [2; 1; 0])
  = map (@cofR R exactR) [5 / 2; 3; 1 / 2].
Proof.
  assert (H : forall x, cheb_series [5 / 2; 3; 1 / 2] x
                        = cheb_series [1; 1; 0] x * cheb_series [2; 1; 0] x).
  { intro x. unfold cheb_series, Tcheb, rsum. simpl. field. }
  split; [exact H|].
  apply (coeffmult_is_product [1; 1; 0] [2; 1; 0] [5 / 2; 3; 1 / 2]);
    [simpl; lia | reflexivity | reflexivity | exact H].
Defined.

Lemma map2_cmul_comm (X Y : list (@cplx R)) :
  map2 (@cmul R exactR) X Y = map2 (@cmul R exactR) Y X.
Proof.
  revert Y. induction X as [|x X IH]; intros [|y Y]; try reflexivity.
  cbn [map2]. rewrite IH. f_equal. ring.
Qed.

(** X9. In exact arithmetic [coeffmult] is commutative on real or complex
    arrays of one length [n >= 1]: [coeffmult(f, g)] is [coeffmult(g, f)]. *)
Theorem coeffmult_commutative (fc gc : list (@cplx R)) :
  (1 <= length fc)%nat -> length fc = length gc ->
  @coeffmult R exactR fc gc = @coeffmult R exactR gc fc.
Proof.
  intros _ Hlen. unfold coeffmult.
  rewrite (map2_cmul_comm (@fft R exactR _) (@fft R exactR _)).
  rewrite Hlen.
  replace (@isreal_all R exactR (fc ++ gc)) with (@isreal_all R exactR (gc ++ fc)).
  - reflexivity.
  - unfold isreal_all. rewrite !forallb_app. apply andb_comm.
Qed.

Lemma coeffmult_commutative_witness :
  @coeffmult R exactR [(1, 2); (3, 4)] [(0, 1); (5, 0)]
  = @coeffmult R exactR [(0, 1); (5, 0)] [(1, 2); (3, 4)].
Proof.
  apply (coeffmult_commutative [(1, 2); (3, 4)] [(0, 1); (5, 0)]);
    [simpl; lia | reflexivity].
Defined.
End CoeffMultProduct.

(** ** The colleague matrix *)

Section Colleague.
Local Open Scope R_scope.

Lemma rsum_plus (f g : nat -> R) (l : list nat) :
  rsum (map (fun j => f j + g j) l) = rsum (map f l) + rsum (map g l).
Proof.
  induction l as [|j l IH]; cbn [map rsum fold_right]; [ring|].
  fold (rsum (map (fun j => f j + g j) l)). fold (rsum (map f l)). fold (rsum (map g l)).
  rewrite IH. ring.
Qed.

Lemma rsum_scal (c : R) (f : nat -> R) (l : list nat) :
  rsum (map (fun j => c * f j) l) = c * rsum (map f l).
Proof.
  induction l as [|j l IH]; cbn [map rsum fold_right]; [ring|].
  fold (rsum (map (fun j => c * f j) l)). fold (rsum (map f l)).
  rewrite IH. ring.
Qed.

Lemma rsum_zero (l : list nat) : rsum (map (fun _ => 0) l) = 0.
Proof.
  induction l as [|j l IH]; cbn [map rsum fold_right]; [reflexivity|].
  fold (rsum (map (fun _ : nat => 0) l)). rewrite IH. ring.
Qed.

(** A sum with one term that is not zero. *)
Lemma rsum_indicator (f : nat -> R) (k a m : nat) :
  rsum (map (fun j => if (j =? k)%nat then f j else 0) (seq a m))
  = if ((a <=? k) && (k <? a + m))%nat then f k else 0.
Proof.
  revert a. induction m as [|m IH]; intro a.
  - rewrite Nat.add_0_r. cbn [seq map rsum fold_right].
    destruct (Nat.leb_spec a k); destruct (Nat.ltb_spec k a); cbn [andb];
      try reflexivity; lia.
  - cbn [seq map rsum fold_right].
    fold (rsum (map (fun j => if (j =? k)%nat then f j else 0) (seq (S a) m))).
    rewrite IH.
    destruct (Nat.eqb_spec a k) as [->|Hne].
    + replace (S k <=? k)%nat with false by (symmetry; apply Nat.leb_gt; lia).
      replace (k <=? k)%nat with true by (symmetry; apply Nat.leb_le; lia).
      replace (k <? k + S m)%nat with true by (symmetry; apply Nat.ltb_lt; lia).
      cbn [andb]. ring.
    + destruct (Nat.leb_spec (S a) k); destruct (Nat.leb_spec a k);
        destruct (Nat.ltb_spec k (S a + m)); destruct (Nat.ltb_spec k (a + S m));
        cbn [andb]; try ring; lia.
Qed.

Lemma cheb_series_last (ak : list R) (x : R) :
  (1 <= length ak)%nat ->
  cheb_series ak x
  = rsum (map (fun j => nth j ak 0 * Tcheb j x) (seq 0 (length ak - 1)))
    + nth (length ak - 1) ak 0 * Tcheb (length ak - 1) x.
Proof.
  intro Hn. unfold cheb_series.
  replace (length ak) with (S (length ak - 1)) at 1 by lia.
  rewrite seq_S, map_app. cbn [map Nat.add].
  generalize (seq 0 (length ak - 1)). intro l.
  induction l as [|j l IH]; cbn [map app rsum fold_right]; [ring|].
  fold (rsum (map (fun k => nth k ak 0 * Tcheb k x) l
              ++ [nth (length ak - 1) ak 0 * Tcheb (length ak - 1) x])).
  fold (rsum (map (fun j => nth j ak 0 * Tcheb j x) l)).
  rewrite IH. ring.
Qed.

(** The row [i] of the colleague matrix applied to the vector of
    [T_0(x), ..., T_(n-2)(x)]. *)
Lemma colleague_row (ak : list R) (x : R) (i : nat) :
  (3 <= length ak)%nat -> (i < length ak - 1)%nat ->
  nth (length ak - 1) ak 0 <> 0 ->
  rsum (map (fun j =>
               (((if ((i =? 0) && (j =? 1))%nat then 1
                  else (if (i =? j + 1)%nat then 5 / 10 * 1 else 0)
                       + (if (j =? i + 1)%nat then 5 / 10 * 1 else 0))
                 - 5 / 10 * 1 / nth (length ak - 1) ak 0
                   * (if (i =? length ak - 2)%nat then nth j ak 0 else 0))
                * Tcheb j x))
            (seq 0 (length ak - 1)))
  = x * Tcheb i x
    - (if (i =? length ak - 2)%nat
       then 5 / 10 * 1 / nth (length ak - 1) ak 0 * cheb_series ak x else 0).
Proof.
  intros Hn Hi Hlast.
  set (n := length ak) in *. set (an := nth (n - 1) ak 0) in *.
  rewrite (rsum_ext_seq _
    (fun j => ((if (j =? (if (i =? 0)%nat then 1 else i - 1))%nat
                then (if (i =? 0)%nat then 1 else 5 / 10) * Tcheb j x else 0)
               + (if (j =? i + 1)%nat
                  then (if (i =? 0)%nat then 0 else 5 / 10) * Tcheb j x else 0))
              + - (5 / 10 / an) * ((if (i =? n - 2)%nat then 1 else 0)
                                  * (nth j ak 0 * Tcheb j x)))).
  2:{ intros j Hj.
      destruct (Nat.eqb_spec i (n - 2)) as [En|En];
        destruct (Nat.eqb_spec i 0) as [E0|E0]; cbn [andb];
        destruct (Nat.eqb_spec j 1); cbn [andb];
        destruct (Nat.eqb_spec i (j + 1)); destruct (Nat.eqb_spec j (i + 1));
        destruct (Nat.eqb_spec j (i - 1)); try lia; try (field; exact Hlast). }
  rewrite rsum_plus, rsum_plus, rsum_scal, rsum_scal, !rsum_indicator.
  cbn [Nat.add Nat.leb andb].
  destruct (Nat.eqb_spec i 0) as [->|Hi0].
  - replace (1 <? n - 1)%nat with true by (symmetry; apply Nat.ltb_lt; lia).
    destruct (Nat.eqb_spec 0 (n - 2)); [lia|].
    destruct (0 + 1 <? n - 1)%nat; rewrite Tcheb_1, Tcheb_0; ring.
  - replace (i - 1 <? n - 1)%nat with true by (symmetry; apply Nat.ltb_lt; lia).
    destruct (Nat.eqb_spec i (n - 2)) as [E|NE].
    + replace (i + 1 <? n - 1)%nat with false by (symmetry; apply Nat.ltb_ge; lia).
      rewrite (cheb_series_last ak x) by (fold n; lia). fold n. fold an.
      replace (n - 1)%nat with (S (S (i - 1))) at 3 by lia.
      rewrite Tcheb_SS. replace (S (i - 1)) with i by lia.
      field. exact Hlast.
    + replace (i + 1 <? n - 1)%nat with true by (symmetry; apply Nat.ltb_lt; lia).
      replace (i + 1)%nat with (S (S (i - 1))) by lia.
      rewrite Tcheb_SS. replace (S (i - 1)) with i by lia.
      field. exact Hlast.
Qed.

Lemma colleague_matvec (ak : list R) (x : R) :
  (3 <= length ak)%nat -> nth (length ak - 1) ak 0 <> 0 ->
  matvec (@colleague R exactR (length ak) ak)
         (map (fun j => Tcheb j x) (seq 0 (length ak - 1)))
  = map (fun i =>
           x * Tcheb i x
           - (if (i =? length ak - 2)%nat
              then 5 / 10 * 1 / nth (length ak - 1) ak 0 * cheb_series ak x
              else 0))
        (seq 0 (length ak - 1)).
Proof.
  intros Hn Hlast. unfold matvec, colleague. rewrite map_map.
  apply map_ext_in. intros i Hi. apply in_seq in Hi.
  rewrite map2_map_map.
  cbn [fone fzero lit ofZ mul div sub add exactR].
  apply (colleague_row ak x i Hn); [lia | exact Hlast].
Qed.

(** X10. In exact arithmetic, for [n >= 3] coefficients [ak] with a last
    one that is not zero, a number [x] is a zero of the series, as
    [clenshaw] evaluates it, exactly when the colleague matrix that
    [rootsunit] passes to [eigvals] maps the vector of [T_0(x)], ...,
    [T_(n-2)(x)] to [x] times itself: the zeros of the series are
    eigenvalues of the matrix. *)
Theorem colleague_eigenvector_iff_root (ak : list R) (x : R) :
  (3 <= length ak)%nat -> nth (length ak - 1) ak 0 <> 0 ->
  (matvec (@colleague R exactR (length ak) ak)
          (map (fun j => Tcheb j x) (seq 0 (length ak - 1)))
   = map (fun t => x * t) (map (fun j => Tcheb j x) (seq 0 (length ak - 1))))
  <-> @clenshaw1 R exactR ak x = 0.
Proof.
  intros Hn Hlast.
  rewrite clenshaw1_cheb_series by lia.
  rewrite colleague_matvec by assumption. rewrite map_map.
  split.
  - intro H.
    apply (f_equal (fun l => nth (length ak - 2) l 0)) in H.
    rewrite !(nth_map_in _ _ 0 0%nat) in H by (rewrite length_seq; lia).
    rewrite seq_nth in H by lia. cbn [Nat.add] in H.
    rewrite Nat.eqb_refl in H.
    assert (Hz : 5 / 10 * 1 / nth (length ak - 1) ak 0 * cheb_series ak x = 0) by lra.
    assert (Hf : 5 / 10 * 1 / nth (length ak - 1) ak 0 <> 0).
    { unfold Rdiv. apply Rmult_integral_contrapositive_currified;
        [lra | apply Rinv_neq_0_compat; exact Hlast]. }
    destruct (Rmult_integral _ _ Hz) as [Hz'|Hz']; [contradiction|exact Hz'].
  - intro H. rewrite H. apply map_ext. intro i.
    destruct (i =? length ak - 2)%nat; ring.
Qed.

Lemma colleague_eigenvector_iff_root_witness :
  (matvec (@colleague R exactR (length [-1; 0; 2]) [-1; 0; 2])
          (map (fun j => Tcheb j (/ 2)) (seq 0 (length [-1; 0; 2] - 1)))
   = map (fun t => / 2 * t)
         (map (fun j => Tcheb j (/ 2)) (seq 0 (length [-1; 0; 2] - 1))))
  <-> @clenshaw1 R exactR [-1; 0; 2] (/ 2) = 0.
Proof.
  apply (colleague_eigenvector_iff_root [-1; 0; 2] (/ 2)); simpl; [lia | lra].
Defined.
End Colleague.

(** ** rootsunit: what the filters and the clamp guarantee *)

Section SelectRootsGeneric.
Context {F : Type} {SF : Scalar F}.

Lemma Forall_set_nth {A : Type} (P : A -> Prop) (i : nat) (l : list A) (v : A) :
  Forall P l -> P v -> Forall P (set_nth i l v).
Proof.
  intros Hl Hv. revert i. induction Hl as [|x t Hx Ht IH]; intros [|i]; simpl;
    constructor; auto.
Qed.

Lemma Forall_insert_sorted (P : F -> Prop) (x : F) (l : list F) :
  P x -> Forall P l -> Forall P (insert_sorted x l).
Proof.
  intros Hx Hl. induction Hl as [|y t Hy Ht IH]; simpl.
  - constructor; [exact Hx|constructor].
  - destruct (fleb x y); constructor; auto.
Qed.

Lemma Forall_sort (P : F -> Prop) (l : list F) : Forall P l -> Forall P (sort l).
Proof.
  intros Hl. induction Hl as [|y t Hy Ht IH]; simpl; [constructor|].
  apply Forall_insert_sorted; assumption.
Qed.

Lemma last_as_nth {A : Type} (l : list A) (d : A) :
  last l d = nth (length l - 1) l d.
Proof.
  induction l as [|x t IH]; [reflexivity|].
  destruct t as [|y t']; [reflexivity|].
  change (last (x :: y :: t') d) with (last (y :: t') d). rewrite IH.
  cbn [length]. replace (S (S (length t')) - 1) with (S (S (length t') - 1)) by lia.
  reflexivity.
Qed.

(** Whatever the filter [abs(rts) <= 1 + htol] establishes and the two
    clamps keep holds of every value returned. *)
Lemma select_roots_Forall (P : F -> Prop) (htol : F) (rts : list (@cplx F)) :
  (forall r, fleb (fabs r) (add fone htol) = true -> P r) ->
  (forall r, P r -> P (pymax2 r (ofZ (-1)%Z))) ->
  (forall r, P r -> P (pymin2 r (ofZ 1%Z))) ->
  Forall P (select_roots htol rts).
Proof.
  intros Hfilter Hmax Hmin. unfold select_roots.
  set (l0 := map creal (filter (fun z => fltb (fabs (cimag z)) htol) rts)).
  set (l := sort (filter (fun r => fleb (fabs r) (add fone htol)) l0)).
  assert (Hl : Forall P l).
  { unfold l. apply Forall_sort. apply Forall_forall. intros r Hr.
    apply filter_In in Hr. apply Hfilter, Hr. }
  destruct (2 <=? length l) eqn:H2; [|exact Hl].
  apply Nat.leb_le in H2.
  assert (Hl' : Forall P (set_nth 0 l (pymax2 (nth 0 l fzero) (ofZ (-1)%Z)))).
  { apply Forall_set_nth; [exact Hl|]. apply Hmax.
    rewrite Forall_forall in Hl. apply Hl, nth_In. lia. }
  unfold set_last. apply Forall_set_nth; [exact Hl'|]. apply Hmin.
  rewrite Forall_forall in Hl'. rewrite last_as_nth. apply Hl', nth_In.
  rewrite set_nth_length. lia.
Qed.

(** Without subdivision [rootsunit] returns nothing or what the filters
    and the clamp leave. *)
Lemma rootsunit_no_split (Interval : F -> F -> F -> F)
      (eigvals : list (list F) -> option (list (@cplx F)))
      (fuel : nat) (ak : list F) (htol : F) (n : nat) (out : list F) :
  standard_chop ak eps = Some n -> n <= 50 ->
  rootsunit Interval eigvals fuel ak htol = Some out ->
  out = [] \/ exists rts, out = select_roots htol rts.
Proof.
  intros Hchop Hn Hout. destruct fuel as [|fuel]; [discriminate|].
  cbn [rootsunit] in Hout. rewrite Hchop in Hout.
  replace (50 <? n) with false in Hout by (symmetry; apply Nat.ltb_ge; lia).
  destruct (n <=? 1).
  - injection Hout as <-. now left.
  - destruct (if n =? 2 then _ else _) as [rts|]; [|discriminate].
    injection Hout as <-. right. now exists rts.
Qed.
End SelectRootsGeneric.

Section SelectRootsExact.
Local Open Scope R_scope.

Lemma select_roots_exact_Forall (htol : R) (rts : list (@cplx R)) :
  Forall (fun r => Rabs r <= 1 + htol) (@select_roots R exactR htol rts).
Proof.
  apply select_roots_Forall.
  - intros r H. apply Rleb_true in H. exact H.
  - intros r H. unfold pymax2. cbn [fltb ofZ exactR].
    destruct (Rltb r (IZR (-1))) eqn:E; [|exact H].
    apply Rltb_true in E. rewrite Rabs_left in H by lra.
    rewrite Rabs_left by lra. lra.
  - intros r H. unfold pymin2. cbn [fltb ofZ exactR].
    destruct (Rltb (IZR 1) r) eqn:E; [|exact H].
    apply Rltb_true in E. rewrite Rabs_right in H by lra.
    rewrite Rabs_right by lra. lra.
Qed.

Lemma select_roots_exact_ends (htol : R) (rts : list (@cplx R)) :
  (2 <= length (@select_roots R exactR htol rts))%nat ->
  -1 <= nth 0 (@select_roots R exactR htol rts) 0
  /\ last (@select_roots R exactR htol rts) 0 <= 1.
Proof.
  unfold select_roots.
  set (l := @sort R exactR _).
  destruct (2 <=? length l)%nat eqn:H2.
  - apply Nat.leb_le in H2. intros _.
    set (v0 := @pymax2 R exactR (nth 0 l fzero) (ofZ (-1)%Z)).
    set (l' := set_nth 0 l v0).
    assert (Hl' : length l' = length l) by apply set_nth_length.
    split.
    + unfold set_last. rewrite nth_set_nth_other by lia.
      unfold l'. rewrite nth_set_nth_same by lia.
      unfold v0. rewrite pymax2_exact. apply Rmax_r.
    + unfold set_last. rewrite last_as_nth, set_nth_length.
      rewrite nth_set_nth_same by lia.
      unfold pymin2. cbn [fltb ofZ exactR].
      destruct (Rltb (IZR 1) (last l' fzero)) eqn:E; [lra|].
      apply Rltb_false in E. exact E.
  - intros H. apply Nat.leb_gt in H2. lia.
Qed.

(** X11. In exact arithmetic, when the chopped series has at most 50
    coefficients (no subdivision), every root [rootsunit] returns is
    within [1 + htol] of 0, and when it returns two or more, the first is
    at least -1 and the last at most 1. *)
Theorem rootsunit_roots_within_tolerance
        (Interval : R -> R -> R -> R)
        (eigvals : list (list R) -> option (list (@cplx R)))
        (fuel : nat) (ak : list R) (htol : R) (n : nat) (out : list R) :
  @standard_chop R exactR ak (@eps R exactR) = Some n -> (n <= 50)%nat ->
  @rootsunit R exactR Interval eigvals fuel ak htol = Some out ->
  Forall (fun r => Rabs r <= 1 + htol) out
  /\ ((2 <= length out)%nat -> -1 <= nth 0 out 0 /\ last out 0 <= 1).
Proof.
  intros Hchop Hn Hout.
  destruct (rootsunit_no_split Interval eigvals fuel ak htol n out Hchop Hn Hout)
    as [->|[rts ->]].
  - split; [constructor|]. simpl. lia.
  - split; [apply select_roots_exact_Forall|apply select_roots_exact_ends].
Qed.

Lemma rootsunit_roots_within_tolerance_witness :
  Forall (fun r => Rabs r <= 1 + 1)
         (@select_roots R exactR 1 [@cofR R exactR (- 1 / 2)])
  /\ (le 2 (length (@select_roots R exactR 1 [@cofR R exactR (- 1 / 2)])) ->
      -1 <= nth 0 (@select_roots R exactR 1 [@cofR R exactR (- 1 / 2)]) 0
      /\ last (@select_roots R exactR 1 [@cofR R exactR (- 1 / 2)]) 0 <= 1).
Proof.
  apply (rootsunit_roots_within_tolerance
           (fun _ _ x => x) (fun _ => None) 1%nat [1; 2] 1 2%nat
           (@select_roots R exactR 1 [@cofR R exactR (- 1 / 2)]));
    [reflexivity | lia | reflexivity].
Defined.

(** X12. In exact arithmetic, for the two coefficients [a0, a1] of a
    line, with [a1] not zero and a positive [htol], [rootsunit] returns the
    zero [-a0/a1] of the series when it is within [1 + htol] of 0 and
    nothing otherwise; [clenshaw] evaluates the series to 0 there. *)
Theorem rootsunit_linear
        (Interval : R -> R -> R -> R)
        (eigvals : list (list R) -> option (list (@cplx R)))
        (fuel : nat) (a0 a1 htol : R) :
  a1 <> 0 -> 0 < htol ->
  @rootsunit R exactR Interval eigvals (S fuel) [a0; a1] htol
  = Some (if Rle_dec (Rabs (- a0 / a1)) (1 + htol) then [- a0 / a1] else [])
  /\ @clenshaw1 R exactR [a0; a1] (- a0 / a1) = 0.
Proof.
  intros Ha1 Hh. split.
  - cbn [rootsunit]. change (@standard_chop R exactR [a0; a1] eps) with (Some 2%nat).
    cbn [Nat.ltb Nat.leb Nat.eqb firstn nth].
    f_equal. unfold select_roots.
    cbn [filter cimag cofR snd fabs fltb fzero exactR].
    replace (Rltb (Rabs 0) htol) with true
      by (symmetry; apply Rltb_true; rewrite Rabs_R0; exact Hh).
    cbn [map creal cofR fst filter fleb fone add neg div exactR].
    unfold Rleb. destruct (Rle_dec (Rabs (- a0 / a1)) (1 + htol)); reflexivity.
  - unfold clenshaw1, clenshaw_ks, lit. cbn. field. exact Ha1.
Qed.

Lemma rootsunit_linear_witness :
  @rootsunit R exactR (fun _ _ x => x) (fun _ => None) 1%nat [1; 2] 1
  = Some (if Rle_dec (Rabs (- 1 / 2)) (1 + 1) then [- 1 / 2] else [])
  /\ @clenshaw1 R exactR [1; 2] (- 1 / 2) = 0.
Proof.
  apply (rootsunit_linear (fun _ _ x => x) (fun _ => None) 0%nat 1 2 1); lra.
Defined.
End SelectRootsExact.

(** X13. In binary64, when the chopped series has at most 50
    coefficients (no subdivision), [rootsunit] never returns a NaN,
    whatever the eigenvalue routine returned and whatever [htol] is. *)
Theorem rootsunit_returns_no_nan
        (L : Libm) (Interval : float -> float -> float -> float)
        (eigvals : list (list float) -> option (list (float * float)))
        (fuel : nat) (ak : list float) (htol : float) (n : nat) (out : list float) :
  @standard_chop float (binary64 L) ak (@eps float (binary64 L)) = Some n ->
  n <= 50 ->
  @rootsunit float (binary64 L) Interval eigvals fuel ak htol = Some out ->
  Forall (fun r => is_nan r = false) out.
Proof.
  intros Hchop Hn Hout.
  destruct (@rootsunit_no_split float (binary64 L) Interval eigvals fuel ak htol n out
              Hchop Hn Hout) as [->|[rts ->]]; [constructor|].
  apply (@select_roots_Forall float (binary64 L)).
  - intros r. cbn [fleb fabs binary64]. rewrite is_nan_SF, leb_spec, abs_spec.
    unfold SFleb. destruct (Prim2SF r); simpl; try reflexivity. discriminate.
  - intros r H. unfold pymax2. cbn [fltb ofZ binary64].
    destruct (PrimFloat.ltb r _); [reflexivity|exact H].
  - intros r H. unfold pymin2. cbn [fltb ofZ binary64].
    destruct (PrimFloat.ltb _ r); [reflexivity|exact H].
Qed.

Lemma rootsunit_returns_no_nan_witness :
  Forall (fun r => is_nan r = false) [(-0.5)%float].
Proof.
  apply (rootsunit_returns_no_nan no_libm (fun _ _ x => x) (fun _ => None) 1
           [1%float; 2%float] (@htol_default float (binary64 no_libm)) 2
           [(-0.5)%float]);
    [reflexivity | lia | vm_compute; reflexivity].
Defined.

Section ClampBinary64.
Variable L : Libm.

Lemma select_roots_binary64_ends (htol : float) (rts : list (float * float)) :
  2 <= length (@select_roots float (binary64 L) htol rts) ->
  (nth 0 (@select_roots float (binary64 L) htol rts) 0 <? -1)%float = false
  /\ (1 <? last (@select_roots float (binary64 L) htol rts) 0)%float = false.
Proof.
  unfold select_roots.
  set (l := @sort float (binary64 L) _).
  destruct (2 <=? length l) eqn:H2.
  - apply Nat.leb_le in H2. intros _.
    set (v0 := @pymax2 float (binary64 L) (nth 0 l fzero) (ofZ (-1)%Z)).
    set (l' := set_nth 0 l v0).
    assert (Hl' : length l' = length l) by apply set_nth_length.
    split.
    + unfold set_last. rewrite nth_set_nth_other by lia.
      unfold l'. rewrite nth_set_nth_same by lia.
      unfold v0, pymax2. cbn [fltb ofZ fzero binary64].
      change (float_of_Z (-1)) with (-1)%float.
      match goal with
      | |- context [if ?b then _ else _] => destruct b eqn:E
      end; [reflexivity|exact E].
    + unfold set_last. rewrite last_as_nth, set_nth_length.
      rewrite nth_set_nth_same by lia.
      unfold pymin2. cbn [fltb ofZ fzero binary64].
      change (float_of_Z 1) with 1%float.
      match goal with
      | |- context [if ?b then _ else _] => destruct b eqn:E
      end; [reflexivity|exact E].
  - intros H. apply Nat.leb_gt in H2. lia.
Qed.

(** X25. In binary64, when the chopped series has at most 50
    coefficients (no subdivision) and [rootsunit] returns two or more
    roots, the first is not below -1 and the last is not above 1: the
    clamp holds at both ends. *)
Theorem rootsunit_clamps_both_ends
        (Interval : float -> float -> float -> float)
        (eigvals : list (list float) -> option (list (float * float)))
        (fuel : nat) (ak : list float) (htol : float) (n : nat) (out : list float) :
  @standard_chop float (binary64 L) ak (@eps float (binary64 L)) = Some n ->
  n <= 50 ->
  @rootsunit float (binary64 L) Interval eigvals fuel ak htol = Some out ->
  2 <= length out ->
  (nth 0 out 0 <? -1)%float = false /\ (1 <? last out 0)%float = false.
Proof.
  intros Hchop Hn Hout Hlen.
  destruct (@rootsunit_no_split float (binary64 L) Interval eigvals fuel ak htol n out
              Hchop Hn Hout) as [->|[rts ->]].
  - simpl in Hlen. lia.
  - apply select_roots_binary64_ends. exact Hlen.
Qed.
End ClampBinary64.

Lemma rootsunit_clamps_both_ends_witness :
  (nth 0 [(-1)%float; 1%float] 0 <? -1)%float = false
  /\ (1 <? last [(-1)%float; 1%float] 0)%float = false.
Proof.
  apply (rootsunit_clamps_both_ends no_libm (fun _ _ x => x)
           (fun _ => Some [(-0x1.0000000000010p+0, 0)%float; (0x1.0000000000010p+0, 0)%float])
           1 [1%float; 0%float; (-2)%float]
           (@htol_default float (binary64 no_libm)) 3 [(-1)%float; 1%float]);
    [reflexivity | lia | vm_compute; reflexivity | simpl; lia].
Defined.

(** ** standard_chop: further facts *)

(** X14. In every arithmetic, on every array, NaN and infinite entries
    included, [standard_chop] raises no exception, its result is at most
    the length [n] of the array, and an array of fewer than 17
    coefficients is never chopped. *)
Theorem standard_chop_never_raises {F : Type} {SF : Scalar F}
        (coeffs : list F) (tol : F) :
  exists c, standard_chop coeffs tol = Some c
            /\ c <= length coeffs
            /\ (length coeffs < 17 -> c = length coeffs).
Proof.
  destruct (standard_chop_total coeffs tol) as (c & Hc & Hle).
  exists c. split; [exact Hc|]. split; [exact Hle|].
  intro Hn. unfold standard_chop in Hc.
  replace (length coeffs <? 17) with true in Hc by (symmetry; apply Nat.ltb_lt; exact Hn).
  congruence.
Qed.

Section ChopZeroBinary64.
Variable L : Libm.

Lemma abs_zero_pos (c : float) : (c =? 0)%float = true -> is_pos_zero (abs c).
Proof.
  unfold is_pos_zero. rewrite eqb_spec, abs_spec. unfold SFeqb.
  replace (Prim2SF 0) with (S754_zero false) by reflexivity.
  destruct (Prim2SF c) as [s|s| |s m e]; simpl; try discriminate;
    try reflexivity; destruct s; discriminate.
Qed.

Lemma pymax2_pos_zero (x y : float) :
  is_pos_zero x -> is_pos_zero y -> is_pos_zero (@pymax2 float (binary64 L) x y).
Proof.
  unfold pymax2. cbn [fltb binary64]. intros Hx Hy.
  destruct (PrimFloat.ltb x y); assumption.
Qed.

Lemma mul_one_pos_zero (x : float) : is_pos_zero x -> is_pos_zero (x * 1)%float.
Proof.
  unfold is_pos_zero. intro Hx. rewrite mul_spec, Hx. reflexivity.
Qed.

Lemma running_max_pos_zero (b : list float) :
  Forall is_pos_zero b -> Forall is_pos_zero (@running_max float (binary64 L) b).
Proof.
  induction 1 as [|x rest Hx Hrest IH]; [constructor|].
  destruct rest as [|y rest'].
  - constructor; [|constructor]. apply mul_one_pos_zero, Hx.
  - change (@running_max float (binary64 L) (x :: y :: rest'))
      with (@pymax2 float (binary64 L) x
              (hd (@fzero float (binary64 L)) (@running_max float (binary64 L) (y :: rest')))
            :: @running_max float (binary64 L) (y :: rest')).
    constructor; [|exact IH].
    apply pymax2_pos_zero; [exact Hx|].
    destruct (@running_max float (binary64 L) (y :: rest')) as [|h t] eqn:E.
    + reflexivity.
    + inversion IH; assumption.
Qed.
End ChopZeroBinary64.

(** X15. In binary64, on an array of 17 or more coefficients that are
    all zero (of either sign), [standard_chop] returns 1, whatever the
    tolerance. *)
Theorem standard_chop_zero_array (L : Libm) (coeffs : list float) (tol : float) :
  17 <= length coeffs ->
  Forall (fun c => (c =? 0)%float = true) coeffs ->
  @standard_chop float (binary64 L) coeffs tol = Some 1.
Proof.
  intros Hn Hz. unfold standard_chop.
  replace (length coeffs <? 17) with false by (symmetry; apply Nat.ltb_ge; exact Hn).
  set (m := @running_max float (binary64 L) (map (@fabs float (binary64 L)) coeffs)).
  assert (Hm : Forall is_pos_zero m).
  { unfold m. apply running_max_pos_zero. apply Forall_map.
    revert Hz. apply Forall_impl. intros c Hc. apply abs_zero_pos, Hc. }
  assert (Hlen : length m = length coeffs).
  { unfold m. now rewrite running_max_length, length_map. }
  assert (H0 : is_pos_zero (nth 0 m (@fzero float (binary64 L)))).
  { rewrite Forall_forall in Hm. apply Hm, nth_In. lia. }
  replace (@feqb float (binary64 L) (nth 0 m (@fzero float (binary64 L)))
             (@fzero float (binary64 L))) with true; [reflexivity|].
  symmetry. cbn [feqb binary64]. rewrite eqb_spec. unfold is_pos_zero in H0.
  rewrite H0. reflexivity.
Qed.

Lemma standard_chop_zero_array_witness :
  @standard_chop float (binary64 no_libm)
    (repeat 0%float 9 ++ repeat (-0)%float 9) 1%float = Some 1.
Proof.
  apply (standard_chop_zero_array no_libm (repeat 0%float 9 ++ repeat (-0)%float 9) 1%float).
  - simpl. lia.
  - repeat constructor.
Defined.

Section ChopScaling.
Local Open Scope R_scope.

Lemma running_max_scale (k : R) (b : list R) :
  0 <= k ->
  @running_max R exactR (map (fun x => k * x) b)
  = map (fun x => k * x) (@running_max R exactR b).
Proof.
  intro Hk. induction b as [|x rest IH]; [reflexivity|].
  destruct rest as [|y rest'].
  - cbn. f_equal. ring.
  - change (map (fun x => k * x) (x :: y :: rest'))
      with (k * x :: map (fun x => k * x) (y :: rest')).
    change (@running_max R exactR (k * x :: map (fun x => k * x) (y :: rest')))
      with (@pymax2 R exactR (k * x)
              (hd 0 (@running_max R exactR (map (fun x => k * x) (y :: rest'))))
            :: @running_max R exactR (map (fun x => k * x) (y :: rest'))).
    change (@running_max R exactR (x :: y :: rest'))
      with (@pymax2 R exactR x (hd 0 (@running_max R exactR (y :: rest')))
            :: @running_max R exactR (y :: rest')).
    rewrite IH. cbn [map]. f_equal.
    rewrite !pymax2_exact.
    replace (hd 0 (map (fun x => k * x) (@running_max R exactR (y :: rest'))))
      with (k * hd 0 (@running_max R exactR (y :: rest'))).
    + apply RmaxRmult. exact Hk.
    + destruct (@running_max R exactR (y :: rest')); cbn [map hd]; ring.
Qed.

(** X16. In exact arithmetic the result of [standard_chop] does not
    change when every coefficient is multiplied by one constant that is
    not zero: the cutoff depends on the relative sizes of the
    coefficients only. *)
Theorem standard_chop_scale_invariant (c : R) (coeffs : list R) (tol : R) :
  c <> 0 ->
  @standard_chop R exactR (map (fun x => c * x) coeffs) tol
  = @standard_chop R exactR coeffs tol.
Proof.
  intro Hc. unfold standard_chop. rewrite length_map.
  destruct (length coeffs <? 17)%nat; [reflexivity|].
  assert (Hk : 0 < Rabs c) by (apply Rabs_pos_lt; exact Hc).
  assert (Hb : map (@fabs R exactR) (map (fun x => c * x) coeffs)
               = map (fun x => Rabs c * x) (map (@fabs R exactR) coeffs)).
  { rewrite !map_map. apply map_ext. intro x. apply Rabs_mult. }
  rewrite Hb, running_max_scale by lra.
  set (m := @running_max R exactR (map (@fabs R exactR) coeffs)).
  assert (H0 : nth 0 (map (fun x => Rabs c * x) m) (@fzero R exactR)
               = Rabs c * nth 0 m (@fzero R exactR)).
  { destruct m; cbn [map nth fzero exactR]; ring. }
  rewrite H0. cbn [feqb fzero exactR].
  destruct (Reqb (nth 0 m 0) 0) eqn:E.
  - apply Reqb_true in E. rewrite E, Rmult_0_r.
    replace (Reqb 0 0) with true by (symmetry; apply Reqb_true; reflexivity).
    reflexivity.
  - apply Reqb_false in E.
    replace (Reqb (Rabs c * nth 0 m 0) 0) with false.
    2:{ symmetry. apply Reqb_false. apply Rmult_integral_contrapositive_currified; lra. }
    assert (Henv : map (fun x => @div R exactR x (Rabs c * nth 0 m 0))
                       (map (fun x => Rabs c * x) m)
                   = map (fun x => @div R exactR x (nth 0 m 0)) m).
    { rewrite map_map. apply map_ext. intro x. cbn [div exactR]. field. lra. }
    rewrite Henv. reflexivity.
Qed.

Lemma standard_chop_scale_invariant_witness :
  @standard_chop R exactR (map (fun x => 3 * x) [1; 2]) 1
  = @standard_chop R exactR [1; 2] 1.
Proof. apply (standard_chop_scale_invariant 3 [1; 2] 1). lra. Defined.
End ChopScaling.

(** ** newtonroots: termination, and estimates that are exactly zero *)

Section NewtonTermination.
Context {F : Type} {SF : Scalar F}.
Variable fun_ dfun : list F -> list F.
Variable inf : F.
Hypothesis Hfun :
  forall l, length (fun_ l) = length l /\ length (dfun l) = length l.

Lemma newton_while_length (fuel : nat) (tol : F) (maxiter : nat) :
  forall (rts prv : list F) (count : nat) (r : list F) (c : nat),
    newton_while fun_ dfun fuel tol maxiter rts prv count = Some (r, c) ->
    length r = length rts.
Proof.
  induction fuel as [|fuel IH]; intros rts prv count r c; simpl;
    destruct (norm_inf (map2 sub rts prv)) as [nrm|]; try discriminate;
    destruct (fltb tol nrm && (count <=? maxiter)); try discriminate;
    try (intros H; injection H as <- <-; reflexivity).
  intros H. apply IH in H. rewrite H.
  destruct (Hfun rts) as [H1 H2]. rewrite !map2_length, H1, H2. lia.
Qed.

(** X17. When the function and its derivative return arrays of the
    length of their argument, the loop of [newtonroots] ends: with
    [maxiter + 1] or more unrollings allowed it returns an array of the
    length of [rts], after at most [maxiter + 1] updates. *)
Theorem newtonroots_terminates (fuel : nat) (rts : list F) (tol : F)
        (maxiter : nat) :
  S maxiter <= fuel ->
  exists r c,
    newtonroots fun_ dfun inf fuel rts tol maxiter = Some (r, c)
    /\ c <= S maxiter /\ length r = length rts.
Proof.
  intro Hfuel.
  destruct (newtonroots fun_ dfun inf fuel rts tol maxiter) as [[r c]|] eqn:E.
  - exists r, c. split; [reflexivity|]. split.
    + apply (newtonroots_count_bound fun_ dfun inf fuel rts tol maxiter r c E).
    + unfold newtonroots in E. destruct (0 <? length rts).
      * apply newton_while_length in E. exact E.
      * injection E as <- <-. reflexivity.
  - exfalso. unfold newtonroots in E.
    destruct (0 <? length rts) eqn:Hlen; [|discriminate].
    apply Nat.ltb_lt in Hlen. revert E.
    apply (newton_while_fuel fun_ dfun fuel tol maxiter Hfun); [lia| |].
    + destruct rts; [simpl in Hlen; lia|discriminate].
    + apply length_map.
Qed.
End NewtonTermination.

Lemma newtonroots_terminates_witness :
  exists r c,
    @newtonroots float (binary64 no_libm)
      (map (fun x => x * x - 2)%float) (map (fun x => 2 * x)%float)
      infinity 11 [1.5%float] 0%float 10 = Some (r, c)
    /\ c <= 11 /\ length r = length [1.5%float].
Proof.
  apply (@newtonroots_terminates float (binary64 no_libm)
           (map (fun x => x * x - 2)%float) (map (fun x => 2 * x)%float) infinity).
  - intro l. rewrite !length_map. split; reflexivity.
  - lia.
Defined.

Section NewtonZeroEstimate.
Variable L : Libm.

Lemma npmax_nan_l (a b : float) :
  is_nan a = true -> is_nan (@npmax float (binary64 L) a b) = true.
Proof. intro H. unfold npmax. cbn [isnan binary64]. rewrite H. exact H. Qed.

Lemma npmax_nan_r (a b : float) :
  is_nan b = true -> is_nan (@npmax float (binary64 L) a b) = true.
Proof.
  intro H. unfold npmax. cbn [isnan binary64].
  destruct (is_nan a) eqn:Ha; [exact Ha|]. rewrite H. exact H.
Qed.

Lemma fold_npmax_nan (l : list float) :
  forall a, is_nan a = true \/ Exists (fun x => is_nan x = true) l ->
            is_nan (fold_left (@npmax float (binary64 L)) l a) = true.
Proof.
  induction l as [|x l IH]; intros a [Ha|Hex]; cbn [fold_left].
  - exact Ha.
  - inversion Hex.
  - apply IH. left. apply npmax_nan_l, Ha.
  - apply IH. inversion Hex as [? ? Hx|? ? Hl]; subst.
    + left. apply npmax_nan_r, Hx.
    + right. exact Hl.
Qed.

Lemma zero_step_nan (r : float) :
  (r =? 0)%float = true -> is_nan (abs (r - infinity * r))%float = true.
Proof.
  rewrite eqb_spec, is_nan_SF, abs_spec, sub_spec, mul_spec.
  replace (Prim2SF 0) with (S754_zero false) by reflexivity.
  replace (Prim2SF infinity) with (S754_infinity false) by reflexivity.
  unfold SFeqb. destruct (Prim2SF r) as [s|s| |s m e]; simpl; try discriminate;
    try reflexivity; destruct s; discriminate.
Qed.

Lemma ltb_nan_r (t x : float) : is_nan x = true -> (t <? x)%float = false.
Proof.
  rewrite is_nan_SF, ltb_spec. unfold SFltb.
  destruct (Prim2SF x); try discriminate. intros _.
  destruct (Prim2SF t); reflexivity.
Qed.

Lemma norm_inf_zero_estimate (rts : list float) :
  Exists (fun r => (r =? 0)%float = true) rts ->
  exists nrm,
    @norm_inf float (binary64 L)
      (map2 (@sub float (binary64 L)) rts (map (@mul float (binary64 L) infinity) rts))
    = Some nrm /\ is_nan nrm = true.
Proof.
  intro Hex.
  assert (Hmap : map (@fabs float (binary64 L))
                   (map2 (@sub float (binary64 L)) rts
                         (map (@mul float (binary64 L) infinity) rts))
                 = map (fun r => abs (r - infinity * r)%float) rts).
  { clear Hex. induction rts as [|r t IH]; [reflexivity|].
    cbn [map map2]. rewrite IH. reflexivity. }
  unfold norm_inf. rewrite Hmap.
  destruct rts as [|r t]; [inversion Hex|]. cbn [map].
  eexists. split; [reflexivity|]. apply fold_npmax_nan.
  inversion Hex as [? ? Hr|? ? Ht]; subst.
  - left. apply zero_step_nan, Hr.
  - right. apply Exists_exists. apply Exists_exists in Ht.
    destruct Ht as (x & Hin & Hx). exists (abs (x - infinity * x))%float.
    split; [|apply zero_step_nan, Hx].
    apply in_map_iff. exists x. split; [reflexivity|exact Hin].
Qed.

(** X18. In binary64, when one of the estimates in [rts] is exactly zero
    (of either sign), [newtonroots] makes no Newton update at all and
    returns [rts] as it is: [inf * 0] is a NaN, so the first norm is a NaN
    and the loop test fails. *)
Theorem newtonroots_zero_estimate_not_polished
        (fun_ dfun : list float -> list float) (fuel : nat)
        (rts : list float) (tol : float) (maxiter : nat) :
  Exists (fun r => (r =? 0)%float = true) rts ->
  @newtonroots float (binary64 L) fun_ dfun infinity fuel rts tol maxiter
  = Some (rts, 0).
Proof.
  intro Hex. unfold newtonroots.
  destruct (0 <? length rts) eqn:Hlen ; [|reflexivity].
  destruct (norm_inf_zero_estimate rts Hex) as (nrm & Hn & Hnan).
  destruct fuel as [|fuel]; cbn [newton_while]; rewrite Hn;
    cbn [fltb binary64]; rewrite (ltb_nan_r tol nrm Hnan); reflexivity.
Qed.
End NewtonZeroEstimate.

Lemma newtonroots_zero_estimate_not_polished_witness :
  @newtonroots float (binary64 no_libm)
    (map (fun x => x * x - 2)%float) (map (fun x => 2 * x)%float)
    infinity 20 [0%float; 1.5%float] 0x1p-51%float 10
  = Some ([0%float; 1.5%float], 0).
Proof.
  apply (newtonroots_zero_estimate_not_polished no_libm).
  apply Exists_cons_hd. reflexivity.
Defined.

(** ** adaptive: when it raises *)

(** X19. [adaptive] raises an exception exactly when [maxpow2] is below
    4: the loop body then never runs and the name [coeffs] is unbound at
    the [return]; from 4 on it always returns an array. *)
Theorem adaptive_raises_iff_maxpow2_below_4 {F : Type} {SF : Scalar F}
        (cls_chebpts : nat -> list F) (cls_vals2coeffs fun_ : list F -> list F)
        (maxpow2 : nat) :
  adaptive cls_chebpts cls_vals2coeffs fun_ maxpow2 = None <-> maxpow2 < 4.
Proof.
  split.
  - intro H. destruct (Nat.lt_ge_cases maxpow2 4) as [Hlt|Hge]; [exact Hlt|].
    exfalso. unfold adaptive in H.
    pose proof (adaptive_loop_spec cls_chebpts cls_vals2coeffs fun_ maxpow2
                  (maxpow2 + 1 - 4) 4 None ltac:(lia) ltac:(lia)) as Hs.
    destruct (find _ _).
    + destruct Hs as (chplen & _ & _ & Hs). congruence.
    + congruence.
  - apply adaptive_small_maxpow2.
Qed.

(** ** clenshaw on a cosine, bary on a constant, and the shapes of the
    transforms *)

Section ClenshawCosine.
Local Open Scope R_scope.

(** X20. In exact arithmetic [clenshaw], for at least one coefficient,
    returns at the point [cos t] the cosine sum of the coefficients: the
    sum of [ak[k] * cos (k t)]. *)
Theorem clenshaw_cosine_series (ak : list R) (t : R) :
  (1 <= length ak)%nat ->
  @clenshaw R exactR [cos t] ak
  = [rsum (map (fun k => nth k ak 0 * cos (INR k * t)) (seq 0 (length ak)))].
Proof.
  intro Hn. unfold clenshaw. cbn [map]. f_equal.
  rewrite clenshaw1_cheb_series by exact Hn. unfold cheb_series.
  apply rsum_ext_seq. intros k _. rewrite Tcheb_cos. reflexivity.
Qed.

Lemma clenshaw_cosine_series_witness :
  @clenshaw R exactR [cos 1] [1; 2; 3]
  = [rsum (map (fun k => nth k [1; 2; 3] 0 * cos (INR k * 1)) (seq 0 (length [1; 2; 3])))].
Proof. apply (clenshaw_cosine_series [1; 2; 3] 1). simpl. lia. Defined.
End ClenshawCosine.

Section BaryConstant.
Local Open Scope R_scope.

Lemma replace_nans_exact (out xx fk xk : list R) :
  @replace_nans R exactR out xx fk xk = out.
Proof.
  unfold replace_nans. cbn [isnan exactR]. symmetry. apply list_as_map_nth.
Qed.

Lemma map2_mul_repeat (tt : list R) (c : R) :
  map2 (@mul R exactR) tt (repeat c (length tt)) = map (fun t => t * c) tt.
Proof.
  induction tt as [|t tt IH]; [reflexivity|].
  cbn [length repeat map2 map]. rewrite IH. reflexivity.
Qed.

Lemma vsum_scale (l : list R) (c : R) :
  @vsum R exactR loop_order (map (fun t => t * c) l)
  = @vsum R exactR loop_order l * c.
Proof.
  unfold vsum. rewrite !tree_sum_loop_order. cbn [add fzero exactR].
  induction l as [|x l IH]; cbn [map fold_left]; [ring|].
  rewrite (vsum_exact_from (map _ l)), (vsum_exact_from l), IH. ring.
Qed.

(** X21. In exact arithmetic, in whatever order [sum] and [dot] add the
    entries (each once), for nodes and weights of one length, evaluation
    points that hit no node and at which the weights [vk / (x - xk)] do
    not sum to zero, [bary] applied to the values of a constant function
    returns that constant at every point, whatever the nodes and the
    weights. *)
Theorem bary_reproduces_constants (sum_order dot_order : nat -> sumtree)
        (xx xk vk : list R) (c : R) :
  (forall n, adds_each_once (sum_order n) n) ->
  (forall n, adds_each_once (dot_order n) n) ->
  length vk = length xk ->
  (forall x xj, In x xx -> In xj xk -> x <> xj) ->
  (forall x, In x xx ->
     @vsum R exactR sum_order
       (map2 (@div R exactR) vk (map (fun xj => x - xj) xk)) <> 0) ->
  @bary R exactR sum_order dot_order xx (repeat c (length xk)) xk vk
  = map (fun _ => c) xx.
Proof.
  intros Hso Hdo Hv _ Hsum. unfold bary. rewrite replace_nans_exact.
  assert (Hpoint : @bary_point_outer R exactR sum_order dot_order
                     xx (repeat c (length xk)) xk vk
                   = map (fun _ => c) xx).
  { unfold bary_point_outer. apply map_ext_in. intros x Hx. cbv zeta.
    specialize (Hsum x Hx). cbn [sub exactR] in *.
    set (tt := map2 (@div R exactR) vk (map (fun xj => x - xj) xk)) in *.
    assert (Htt : length tt = length xk).
    { unfold tt. rewrite map2_length, length_map, Hv. apply Nat.min_id. }
    rewrite (vsum_exact_order sum_order Hso) in *.
    rewrite (dot_exact_order dot_order Hdo).
    unfold dot. rewrite <- Htt, map2_mul_repeat.
    replace (@tree_sum R exactR (loop_order (length tt)) (map (fun t => t * c) tt))
      with (@vsum R exactR loop_order (map (fun t => t * c) tt))
      by (unfold vsum; now rewrite length_map).
    rewrite vsum_scale.
    cbn [div exactR]. field. exact Hsum. }
  destruct (length xx <? 4 * length xk)%nat; [exact Hpoint|].
  rewrite (bary_loops_agree sum_order dot_order Hso Hdo);
    [exact Hpoint|apply repeat_length|exact Hv].
Qed.

Lemma bary_reproduces_constants_witness :
  @bary R exactR numpy_sum_order loop_order
    [0] (repeat 5 (length [1; 2])) [1; 2] [1; -1] = map (fun _ => 5) [0].
Proof.
  apply (bary_reproduces_constants numpy_sum_order loop_order [0] [1; 2] [1; -1] 5).
  - exact numpy_sum_order_adds_each_once.
  - exact loop_order_adds_each_once.
  - reflexivity.
  - intros x xj [<-|[]] [<-|[<-|[]]]; lra.
  - intros x [<-|[]]. unfold vsum. cbn. lra.
Defined.
End BaryConstant.

Section TransformShapes.
Context {F : Type} {SF : Scalar F}.

Lemma dft_length_any (s : Z) (a : list (@cplx F)) : length (dft s a) = length a.
Proof. unfold dft. now rewrite length_map, length_seq. Qed.

Lemma ifft_length_any (a : list (@cplx F)) : length (ifft a) = length a.
Proof. unfold ifft. now rewrite length_map, dft_length_any. Qed.

Lemma scale_interior_length_any (c : @cplx F) (n : nat) (a : list (@cplx F)) :
  length (scale_interior c n a) = length a.
Proof. unfold scale_interior. now rewrite length_map, length_seq. Qed.

Lemma slice_length_any {A : Type} (i j : nat) (a : list A) :
  j <= length a -> length (slice i j a) = j - i.
Proof. intros H. unfold slice. rewrite length_firstn, length_skipn. lia. Qed.

(** X22. In every arithmetic, and whichever of their three branches is
    taken, [vals2coeffs2] and [coeffs2vals2] return an array of the length
    of their argument. *)
Theorem transforms_keep_length (a : list (@cplx F)) :
  length (vals2coeffs2 a) = length a /\ length (coeffs2vals2 a) = length a.
Proof.
  split.
  - unfold vals2coeffs2. destruct (Nat.leb_spec (length a) 1) as [H|H]; [reflexivity|].
    rewrite scale_interior_length_any, length_firstn.
    assert (Ht : length (rev a ++ slice 1 (length a - 1) a) = 2 * length a - 2).
    { rewrite length_app, length_rev, slice_length_any by lia. lia. }
    destruct (isreal_all a); [|destruct (isreal_all _)];
      rewrite ?length_map, ifft_length_any, ?length_map, Ht; lia.
  - unfold coeffs2vals2. destruct (Nat.leb_spec (length a) 1) as [H|H]; [reflexivity|].
    rewrite length_rev, length_firstn.
    set (c := scale_interior _ (length a) a).
    assert (Hc : length c = length a) by apply scale_interior_length_any.
    assert (Ht : length (c ++ rev (slice 1 (length a - 1) c)) = 2 * length a - 2).
    { rewrite length_app, length_rev, slice_length_any by lia. lia. }
    destruct (isreal_all c); [|destruct (isreal_all _)];
      rewrite ?length_map; unfold fft; rewrite dft_length_any, ?length_map, Ht; lia.
Qed.
End TransformShapes.

(** ** standard_chop on coefficients that do not decay *)

Section ChopNoDecay.
Local Open Scope R_scope.

Lemma last_of_map {A B : Type} (f : A -> B) (l : list A) (d : A) :
  last (map f l) (f d) = f (last l d).
Proof.
  induction l as [|x t IH]; [reflexivity|].
  destruct t as [|y t']; [reflexivity|]. exact IH.
Qed.

Lemma running_max_flat (b : list R) :
  b <> [] -> (forall x, In x b -> x <= last b 0) ->
  @running_max R exactR b = repeat (last b 0) (length b).
Proof.
  induction b as [|x rest IH]; intros Hne Hle; [congruence|].
  destruct rest as [|y rest'].
  - cbn. f_equal. ring.
  - change (@running_max R exactR (x :: y :: rest'))
      with (@pymax2 R exactR x (hd 0 (@running_max R exactR (y :: rest')))
            :: @running_max R exactR (y :: rest')).
    change (last (x :: y :: rest') 0) with (last (y :: rest') 0) in *.
    rewrite IH; [|discriminate|intros z Hz; apply Hle; now right].
    cbn [length repeat hd]. f_equal.
    rewrite pymax2_exact. apply Rmax_right. apply Hle. now left.
Qed.

(** X23. In exact arithmetic, when no coefficient is larger in
    magnitude than the last one and the last one is not zero (the series
    shows no decay), [standard_chop] returns the length of the array,
    whatever the tolerance: nothing is chopped. *)
Theorem standard_chop_no_decay (coeffs : list R) (tol : R) :
  coeffs <> [] -> last coeffs 0 <> 0 ->
  (forall c, In c coeffs -> Rabs c <= Rabs (last coeffs 0)) ->
  @standard_chop R exactR coeffs tol = Some (length coeffs).
Proof.
  intros Hne Hlast Hle. unfold standard_chop.
  destruct (Nat.ltb_spec (length coeffs) 17) as [Hn|Hn]; [reflexivity|].
  set (M := Rabs (last coeffs 0)).
  assert (HM : 0 < M) by (apply Rabs_pos_lt; exact Hlast).
  assert (Hb : @running_max R exactR (map (@fabs R exactR) coeffs)
               = repeat M (length coeffs)).
  { assert (Hl : last (map (@fabs R exactR) coeffs) 0 = M).
    { unfold M. rewrite <- Rabs_R0 at 1. apply (last_of_map Rabs). }
    rewrite running_max_flat.
    - rewrite Hl, length_map. reflexivity.
    - destruct coeffs; [congruence|discriminate].
    - intros x Hx. rewrite Hl. apply in_map_iff in Hx.
      destruct Hx as (c & <- & Hc). apply Hle, Hc. }
  rewrite Hb.
  assert (H0 : nth 0 (repeat M (length coeffs)) (@fzero R exactR) = M)
    by (apply nth_repeat_lt; lia).
  rewrite H0. cbn [feqb fzero exactR].
  replace (Reqb M 0) with false by (symmetry; apply Reqb_false; lra).
  set (envelope := map (fun x => @div R exactR x M) (repeat M (length coeffs))).
  assert (Henv : forall j, (j < length coeffs)%nat -> nth j envelope 0 = 1).
  { intros j Hj. unfold envelope. rewrite envelope_nth, nth_repeat_lt by exact Hj.
    field. lra. }
  pose proof (plateau_scan_seq envelope tol (length coeffs) (length coeffs - 1) 1) as Hscan.
  pose proof (@plateau_scan_not_exhausted R exactR envelope tol (length coeffs)
                ltac:(lia)) as Hex.
  destruct (plateau_scan envelope tol (length coeffs) (seq 1 (length coeffs - 1)))
    as [|j j2|]; [reflexivity| |congruence].
  exfalso. destruct Hscan as (Hj & Hj2 & Hj2le & Hp & _).
  unfold plateau in Hp. cbn [fzero feqb fltb div mul sub fone ofZ flog exactR] in Hp.
  rewrite (Henv j), (Henv j2) in Hp by lia.
  rewrite ln_1 in Hp.
  replace (Reqb 1 0) with false in Hp by (symmetry; apply Reqb_false; lra).
  replace (Rltb (IZR 3 * (1 - 0 / ln tol)) (1 / 1)) with false in Hp; [discriminate|].
  symmetry. apply Rltb_false. unfold Rdiv. rewrite Rmult_0_l. lra.
Qed.

Lemma standard_chop_no_decay_witness :
  @standard_chop R exactR (repeat 1 17) 1 = Some (length (repeat 1 17)).
Proof.
  apply (standard_chop_no_decay (repeat 1 17) 1).
  - discriminate.
  - simpl. lra.
  - intros c Hc. apply repeat_spec in Hc. subst c. simpl. lra.
Defined.
End ChopNoDecay.

(** ** barywts2 in binary64 *)

Section WeightsGeneric.
Context {F : Type} {SF : Scalar F}.

(** Which entry each step of [barywts2] writes, in any arithmetic. *)
Lemma barywts2_nth (n i : nat) :
  2 <= n -> i < n ->
  nth i (barywts2 n) fzero
  = let w := if (i =? n - 1) then lit 5 10
             else if Nat.even (n - 2 - i) then ofZ (-1)%Z else fone in
    if (i =? 0) then mul (lit 5 10) w else w.
Proof.
  intros Hn Hi. unfold barywts2.
  destruct (Nat.eqb_spec n 0) as [E|_]; [lia|].
  destruct (Nat.eqb_spec n 1) as [E|_]; [lia|].
  assert (Hlen : length (repeat fone (n - 1) ++ [lit 5 10]) = n)
    by (rewrite length_app, repeat_length; simpl; lia).
  assert (Hw : forall k, k < n ->
             nth k (fold_left (fun w j => set_nth j w (ofZ (-1)%Z)) (stride_down (n - 2))
                      (repeat fone (n - 1) ++ [lit 5 10])) fzero
             = if (k =? n - 1) then lit 5 10
               else if Nat.even (n - 2 - k) then ofZ (-1)%Z else fone).
  { intros k Hk. rewrite nth_fold_set_nth by (rewrite Hlen; exact Hk).
    rewrite existsb_stride_down.
    destruct (Nat.eqb_spec k (n - 1)) as [->|Hne].
    - replace (n - 1 <=? n - 2) with false by (symmetry; apply Nat.leb_gt; lia).
      cbn [andb]. rewrite app_nth2 by (rewrite repeat_length; lia).
      rewrite repeat_length, Nat.sub_diag. reflexivity.
    - replace (k <=? n - 2) with true by (symmetry; apply Nat.leb_le; lia).
      cbn [andb]. destruct (Nat.even (n - 2 - k)); [reflexivity|].
      rewrite app_nth1 by (rewrite repeat_length; lia).
      apply nth_repeat_lt. lia. }
  cbv zeta. destruct (Nat.eqb_spec i 0) as [->|Hi0].
  - rewrite nth_set_nth_same by (rewrite length_fold_set_nth, Hlen; lia).
    rewrite Hw by lia. reflexivity.
  - rewrite nth_set_nth_other by lia. apply Hw, Hi.
Qed.
End WeightsGeneric.

(** X24. In binary64, for [n >= 2], the entries of [barywts2(n)] are
    exactly 1 and -1 in alternation, the last one positive, with the first
    and the last halved to 0.5 or -0.5: no rounding occurs. *)
Theorem barywts2_binary64 (L : Libm) (n i : nat) :
  2 <= n -> i < n ->
  nth i (@barywts2 float (binary64 L) n) 0%float
  = if Nat.even (n - 1 - i)
    then (if (i =? 0) || (i =? n - 1) then 0.5%float else 1%float)
    else (if (i =? 0) || (i =? n - 1) then (-0.5)%float else (-1)%float).
Proof.
  intros Hn Hi.
  change 0%float with (@fzero float (binary64 L)) at 1.
  rewrite barywts2_nth by assumption. cbv zeta.
  change (@lit float (binary64 L) 5 10) with 0.5%float.
  change (@ofZ float (binary64 L) (-1)) with (-1)%float.
  change (@fone float (binary64 L)) with 1%float.
  cbn [mul binary64].
  destruct (Nat.eqb_spec i (n - 1)) as [E|NE].
  - subst i. replace (n - 1 - (n - 1)) with 0 by lia.
    destruct (Nat.eqb_spec (n - 1) 0); [lia|]. reflexivity.
  - replace (n - 1 - i) with (S (n - 2 - i)) by lia.
    rewrite Nat.even_succ, <- Nat.negb_even.
    destruct (Nat.even (n - 2 - i)); destruct (i =? 0); reflexivity.
Qed.

Lemma barywts2_binary64_witness :
  nth 1 (@barywts2 float (binary64 no_libm) 4) 0%float
  = if Nat.even (4 - 1 - 1)
    then (if (1 =? 0) || (1 =? 4 - 1) then 0.5%float else 1%float)
    else (if (1 =? 0) || (1 =? 4 - 1) then (-0.5)%float else (-1)%float).
Proof. apply (barywts2_binary64 no_libm 4 1); lia. Defined.

(** ** bary with the Chebyshev points and weights reproduces the series *)

Section Quotient.
Local Open Scope R_scope.

Lemma clen_list_length (l : list R) (x : R) : length (clen_list l x) = length l.
Proof. induction l as [|a t IH]; [reflexivity|]. cbn [clen_list length]. now rewrite IH. Qed.

Lemma clen_list_nth (l : list R) (x : R) (k : nat) :
  (k < length l)%nat -> nth k (clen_list l x) 0 = fst (clen_pair (skipn k l) x).
Proof.
  revert k. induction l as [|a t IH]; intros k Hk; [simpl in Hk; lia|].
  destruct k as [|k]; [reflexivity|].
  cbn [clen_list nth skipn]. apply IH. simpl in Hk. lia.
Qed.

Lemma useries_cons (a : R) (t : list R) (U : nat -> R) :
  useries (a :: t) U = a * U 0%nat + useries t (fun k => U (S k)).
Proof.
  unfold useries. cbn [length seq map rsum fold_right nth].
  fold (rsum (map (fun k => nth k (a :: t) 0 * U k) (seq 1 (length t)))).
  rewrite rsum_shift. reflexivity.
Qed.

Lemma useries_nil (U : nat -> R) : useries [] U = 0.
Proof. reflexivity. Qed.

Lemma cheb_series_useries (l : list R) (y : R) :
  cheb_series l y = useries l (fun k => Tcheb k y).
Proof. reflexivity. Qed.

(** The terms of the backward recurrence at [x] are the coefficients of
    the quotient by [y - x]. *)
Lemma clen_quotient_sum (x y : R) (l : list R) :
  forall U : nat -> R,
    (forall k, U (S (S k)) = 2 * y * U (S k) - U k) ->
    useries l U
    = fst (clen_pair l x) * U 0%nat
      + snd (clen_pair l x) * (U 1%nat - 2 * x * U 0%nat)
      + 2 * (y - x) * (useries (clen_list (tl l) x) U - snd (clen_pair l x) * U 0%nat).
Proof.
  induction l as [|a t IH]; intros U HU.
  - cbn [tl clen_list clen_pair fst snd]. rewrite useries_nil. ring.
  - rewrite useries_cons. rewrite (IH (fun k => U (S k))) by (intro k; apply HU).
    rewrite clen_pair_snd, clen_pair_fst. cbn [tl].
    assert (HG : useries (clen_list t x) U - fst (clen_pair t x) * U 0%nat
                 = useries (clen_list (tl t) x) (fun k => U (S k))).
    { destruct t as [|b t']; [cbn [tl clen_list clen_pair fst]; rewrite !useries_nil; ring|].
      cbn [clen_list tl]. rewrite useries_cons. ring. }
    rewrite HG. rewrite (HU 0%nat).
    destruct t as [|b t'].
    + cbn [tl clen_list clen_pair fst snd]. rewrite !useries_nil. ring.
    + rewrite clen_pair_snd. cbn [tl]. ring.
Qed.

Lemma cheb_quotient (c : list R) (x y : R) :
  cheb_series c y - cheb_series c x
  = (y - x) * (2 * cheb_series (clen_list (tl c) x) y - snd (clen_pair c x)).
Proof.
  rewrite (cheb_series_useries c y).
  rewrite (clen_quotient_sum x y c (fun k => Tcheb k y)) by (intro k; apply Tcheb_SS).
  rewrite cheb_series_clen_pair, Tcheb_0, Tcheb_1.
  rewrite <- cheb_series_useries. ring.
Qed.
End Quotient.

Section WeightedSums.
Local Open Scope R_scope.

Lemma rsum_app (l1 l2 : list R) : rsum (l1 ++ l2) = rsum l1 + rsum l2.
Proof.
  unfold rsum. induction l1 as [|x l1 IH]; cbn [app fold_right]; [ring|].
  rewrite IH. ring.
Qed.

Lemma rsum_seq_head (f : nat -> R) (n : nat) :
  rsum (map f (seq 0 (S n))) = f 0%nat + rsum (map (fun k => f (S k)) (seq 0 n)).
Proof.
  rewrite <- rsum_shift. reflexivity.
Qed.

Lemma rsum_seq_last (f : nat -> R) (n : nat) :
  rsum (map f (seq 0 (S n))) = rsum (map f (seq 0 n)) + f n.
Proof.
  rewrite seq_S, map_app, rsum_app. cbn [map Nat.add]. unfold rsum at 2.
  cbn [fold_right]. ring.
Qed.

Lemma rsum_seq_rev (g : nat -> R) (n : nat) :
  rsum (map (fun j => g (n - 1 - j)%nat) (seq 0 n)) = rsum (map g (seq 0 n)).
Proof.
  induction n as [|n IH]; [reflexivity|].
  rewrite rsum_seq_head, (rsum_seq_last g).
  rewrite (rsum_ext_seq (fun k => g (S n - 1 - S k)%nat) (fun j => g (n - 1 - j)%nat))
    by (intros k _; f_equal; lia).
  rewrite IH. replace (S n - 1 - 0)%nat with n by lia. ring.
Qed.

Lemma rsum_shift_by (f : nat -> R) (s a k : nat) :
  rsum (map f (seq (a + s) k)) = rsum (map (fun p => f (p + s)%nat) (seq a k)).
Proof.
  revert a. induction k as [|k IH]; intro a; [reflexivity|].
  cbn [seq map]. unfold rsum in *. cbn [fold_right]. f_equal.
  change (S (a + s)) with (S a + s)%nat. apply IH.
Qed.

Lemma rsum_inner (h : nat -> R) (n : nat) :
  (2 <= n)%nat -> h 0%nat = 0 -> h (n - 1)%nat = 0 ->
  rsum (map h (seq 0 n)) = rsum (map h (seq 1 (n - 2))).
Proof.
  intros Hn H0 Hl.
  replace (seq 0 n) with (seq 0 (S (S (n - 2)))) by (f_equal; lia).
  rewrite rsum_seq_last, rsum_seq_head.
  replace (S (n - 2)) with (n - 1)%nat by lia.
  rewrite H0, Hl, <- rsum_shift. ring.
Qed.

Lemma fst_csum (l : list (@cplx R)) :
  fst (@csum R exactR l) = rsum (map fst l).
Proof.
  induction l as [|z l IH]; [reflexivity|].
  rewrite csum_cons. cbn [map rsum fold_right]. fold (rsum (map fst l)).
  rewrite <- IH. reflexivity.
Qed.

Lemma cos_nat_PI (j : nat) : cos (INR j * PI) = (-1) ^ j.
Proof.
  induction j as [|j IH].
  - simpl. rewrite Rmult_0_l. apply cos_0.
  - rewrite S_INR. replace ((INR j + 1) * PI) with (INR j * PI + PI) by ring.
    rewrite neg_cos, IH. simpl. ring.
Qed.

Lemma pow_m1_shift (a p : nat) : (-1) ^ (a + 2 * p) = (-1) ^ a.
Proof. rewrite pow_add, pow_m1_even. ring. Qed.

(** The last coefficient [vals2coeffs2] returns is the sum of the values
    with the barycentric weights, over [n - 1]. *)
Lemma vals2coeffs2_last (v : list R) :
  (2 <= length v)%nat ->
  fst (nth (length v - 1) (@vals2coeffs2 R exactR (map (@cofR R exactR) v)) 0c)
  = rsum (map (fun i => nth i (@barywts2 R exactR (length v)) 0 * nth i v 0)
              (seq 0 (length v)))
    / INR (length v - 1).
Proof.
  intro Hn. set (n := length v) in *.
  set (V := map (@cofR R exactR) v).
  assert (HV : length V = n) by apply length_map.
  assert (Hpos : 0 < INR (n - 1)) by (apply lt_0_INR; lia).
  rewrite vals2coeffs2_exact by (fold V; rewrite HV; exact Hn).
  fold V. rewrite HV.
  set (tmp := rev V ++ slice 1 (n - 1) V).
  assert (Ht : length tmp = (2 * n - 2)%nat).
  { unfold tmp. rewrite <- HV. apply tmp_vals_length. rewrite HV. exact Hn. }
  rewrite scale_interior_nth by (rewrite length_firstn, ifft_length, Ht; lia).
  replace (n - 1 <? n - 1)%nat with false by (symmetry; apply Nat.ltb_ge; lia).
  rewrite andb_false_r. rewrite nth_firstn.
  replace (n - 1 <? n)%nat with true by (symmetry; apply Nat.ltb_lt; lia).
  unfold ifft. rewrite (nth_map_in _ _ 0c 0c) by (rewrite dft_length, Ht; lia).
  rewrite dft_nth by (rewrite Ht; lia). rewrite Ht.
  set (N := (2 * n - 2)%nat).
  transitivity (1 / INR N * fst (@csum R exactR
      (map (fun j => nth j tmp 0c *c cis (ang N (1 * Z.of_nat j * Z.of_nat (n - 1))))
           (seq 0 N)))).
  { unfold cmul, cofR. cbn [fst snd fone ofZ div mul sub fzero exactR].
    rewrite <- INR_IZR_INZ. ring. }
  rewrite fst_csum, map_map.
  set (g := fun i : nat => nth i v 0 * (-1) ^ (n - 1 - i)).
  assert (Hterm : forall j, (j < N)%nat ->
            fst (nth j tmp 0c *c cis (ang N (1 * Z.of_nat j * Z.of_nat (n - 1))))
            = nth (if (j <? n)%nat then n - 1 - j else j - n + 1)%nat v 0 * (-1) ^ j).
  { intros j Hj. unfold tmp. rewrite <- HV at 1 2.
    rewrite tmp_vals_nth by (rewrite HV; unfold N in Hj; lia). rewrite HV.
    unfold V. rewrite nth_map_cofR.
    unfold N. rewrite ang_half by exact Hn.
    replace (IZR (1 * Z.of_nat j * Z.of_nat (n - 1)) * (PI / INR (n - 1)))
      with (INR j * PI).
    2:{ rewrite !mult_IZR, <- !INR_IZR_INZ. field. lra. }
    unfold cmul, cofR, cis. cbn [fst snd mul sub fzero exactR].
    rewrite cos_nat_PI. ring. }
  rewrite (rsum_ext_seq _
     (fun j => nth (if (j <? n)%nat then n - 1 - j else j - n + 1)%nat v 0 * (-1) ^ j))
    by (intros j Hj; apply Hterm; lia).
  unfold N. replace (seq 0 (2 * n - 2)) with (seq 0 (n + (n - 2))) by (f_equal; lia).
  rewrite seq_app, map_app, rsum_app. cbn [Nat.add].
  (* the first half, read backwards *)
  rewrite (rsum_ext_seq _ (fun j => g (n - 1 - j)%nat) 0 n).
  2:{ intros j Hj. replace (j <? n)%nat with true by (symmetry; apply Nat.ltb_lt; lia).
      unfold g. replace (n - 1 - (n - 1 - j))%nat with j by lia. reflexivity. }
  rewrite rsum_seq_rev.
  (* the second half, shifted *)
  replace (seq n (n - 2)) with (seq (S (n - 1)) (n - 2)) by (f_equal; lia).
  change (S (n - 1)) with (1 + (n - 1))%nat. rewrite rsum_shift_by.
  rewrite (rsum_ext_seq _ (fun p => if ((1 <=? p) && (p <? n - 1))%nat then g p else 0) 1 (n - 2)).
  2:{ intros p Hp.
      replace (p + (n - 1) <? n)%nat with false by (symmetry; apply Nat.ltb_ge; lia).
      replace ((1 <=? p) && (p <? n - 1))%nat with true.
      2:{ symmetry. apply andb_true_iff. split; [apply Nat.leb_le|apply Nat.ltb_lt]; lia. }
      unfold g. replace (p + (n - 1) - n + 1)%nat with p by lia.
      replace (p + (n - 1))%nat with (n - 1 - p + 2 * p)%nat by lia.
      rewrite pow_m1_shift. reflexivity. }
  rewrite <- (rsum_inner (fun p => if ((1 <=? p) && (p <? n - 1))%nat then g p else 0) n Hn).
  2:{ reflexivity. }
  2:{ replace (n - 1 <? n - 1)%nat with false by (symmetry; apply Nat.ltb_ge; lia).
      now rewrite andb_false_r. }
  rewrite <- rsum_plus.
  rewrite (rsum_ext_seq _ (fun i => 2 * (nth i (@barywts2 R exactR n) 0 * nth i v 0)) 0 n).
  2:{ intros i Hi. rewrite barywts2_exact_nth by lia. unfold g.
      destruct (Nat.eqb_spec i 0) as [->|Hi0]; [cbn [Nat.leb andb orb]; field|].
      replace (1 <=? i)%nat with true by (symmetry; apply Nat.leb_le; lia).
      cbn [orb andb].
      destruct (Nat.eqb_spec i (n - 1)) as [E|NE].
      - replace (i <? n - 1)%nat with false by (symmetry; apply Nat.ltb_ge; lia). field.
      - replace (i <? n - 1)%nat with true by (symmetry; apply Nat.ltb_lt; lia). field. }
  rewrite rsum_scal. replace (INR (2 * n - 2)) with (2 * INR (n - 1)).
  - field. lra.
  - replace (2 * n - 2)%nat with (2 * (n - 1))%nat by lia. rewrite mult_INR. simpl. ring.
Qed.
End WeightedSums.

Section Interpolation.
Local Open Scope R_scope.

Lemma wsum_ext (n : nat) (f g : R -> R) :
  (forall y, f y = g y) -> wsum n f = wsum n g.
Proof.
  intro H. unfold wsum. apply rsum_ext_seq. intros i _. now rewrite H.
Qed.

Lemma wsum_linear (n : nat) (a b : R) (f g : R -> R) :
  wsum n (fun y => a * f y + b * g y) = a * wsum n f + b * wsum n g.
Proof.
  unfold wsum. rewrite <- !rsum_scal, <- rsum_plus.
  apply rsum_ext_seq. intros i _. ring.
Qed.

(** On the samples of a series of [n] coefficients the weighted sum
    picks the last coefficient. *)
Lemma wsum_series (l : list R) :
  (2 <= length l)%nat ->
  wsum (length l) (cheb_series l) = INR (length l - 1) * nth (length l - 1) l 0.
Proof.
  intro Hn. set (n := length l) in *.
  assert (Hpos : 0 < INR (n - 1)) by (apply lt_0_INR; lia).
  set (v := map (cheb_series l) (@chebpts2 R exactR n)).
  assert (Hv : length v = n) by (unfold v; rewrite length_map; apply chebpts2_length).
  pose proof (vals2coeffs2_last v) as H. rewrite Hv in H. specialize (H Hn).
  assert (Hsamples : @vals2coeffs2 R exactR (map (@cofR R exactR) v)
                     = map (@cofR R exactR) l).
  { assert (Hc : v = @clenshaw R exactR (@chebpts2 R exactR (length l)) l).
    { unfold v, clenshaw. fold n. apply map_ext. intro y. symmetry.
      apply clenshaw1_cheb_series. fold n. lia. }
    rewrite Hc, <- coeffs2vals2_clenshaw by (fold n; lia). apply roundtrip_back. }
  rewrite Hsamples, nth_map_cofR in H. cbn [cofR fst] in H.
  unfold wsum.
  rewrite (rsum_ext_seq _
     (fun i => nth i (@barywts2 R exactR n) 0 * nth i v 0) 0 n).
  2:{ intros i Hi. unfold v.
      rewrite (nth_map_in _ _ 0 0) by (rewrite chebpts2_length; lia). reflexivity. }
  rewrite H. field. lra.
Qed.

Lemma nth_repeat_R0 (m j : nat) : nth j (repeat 0 m) 0 = 0.
Proof.
  destruct (lt_dec j m); [now apply nth_repeat_lt|].
  apply nth_overflow. rewrite repeat_length. lia.
Qed.

Lemma cheb_series_pad (l : list R) (m : nat) (y : R) :
  cheb_series (l ++ repeat 0 m) y = cheb_series l y.
Proof.
  unfold cheb_series. rewrite length_app, repeat_length, seq_app, map_app, rsum_app.
  cbn [Nat.add].
  rewrite (rsum_ext_seq _ (fun k => nth k l 0 * Tcheb k y) 0 (length l))
    by (intros k Hk; rewrite app_nth1 by lia; reflexivity).
  rewrite (rsum_ext_seq _ (fun _ => 0) (length l) m).
  - rewrite rsum_zero. ring.
  - intros k Hk. rewrite app_nth2 by lia. rewrite nth_repeat_R0. ring.
Qed.

(** It vanishes on the samples of a series of fewer than [n]
    coefficients. *)
Lemma wsum_low (n : nat) (l : list R) :
  (2 <= n)%nat -> (length l <= n - 1)%nat -> wsum n (cheb_series l) = 0.
Proof.
  intros Hn Hl.
  set (l' := l ++ repeat 0 (n - length l)).
  assert (Hl' : length l' = n) by (unfold l'; rewrite length_app, repeat_length; lia).
  rewrite (wsum_ext n (cheb_series l) (cheb_series l'))
    by (intro y; unfold l'; symmetry; apply cheb_series_pad).
  rewrite <- Hl' at 1. rewrite wsum_series by lia. rewrite Hl'.
  unfold l'. rewrite app_nth2 by lia. rewrite nth_repeat_R0. ring.
Qed.

Lemma wsum_const (n : nat) (a : R) : (2 <= n)%nat -> wsum n (fun _ => a) = 0.
Proof.
  intro Hn.
  rewrite (wsum_ext n (fun _ => a) (cheb_series [a])).
  - apply wsum_low; [exact Hn|simpl; lia].
  - intro y. unfold cheb_series, rsum. simpl. rewrite Tcheb_0. ring.
Qed.

(** The sum of the barycentric formula, for the difference quotient of a
    series. *)
Lemma bary_quotient_sum (n : nat) (c : list R) (x : R) :
  (forall i, (i < n)%nat -> x <> nth i (@chebpts2 R exactR n) 0) ->
  rsum (map (fun i => nth i (@barywts2 R exactR n) 0
                      / (x - nth i (@chebpts2 R exactR n) 0)
                      * (cheb_series c (nth i (@chebpts2 R exactR n) 0)
                         - cheb_series c x))
            (seq 0 n))
  = - wsum n (fun y => 2 * cheb_series (clen_list (tl c) x) y
                       + - snd (clen_pair c x) * 1).
Proof.
  intro Hx. unfold wsum.
  replace (- rsum (map (fun i => nth i (@barywts2 R exactR n) 0
             * (2 * cheb_series (clen_list (tl c) x) (nth i (@chebpts2 R exactR n) 0)
                + - snd (clen_pair c x) * 1)) (seq 0 n)))
    with (-1 * rsum (map (fun i => nth i (@barywts2 R exactR n) 0
             * (2 * cheb_series (clen_list (tl c) x) (nth i (@chebpts2 R exactR n) 0)
                + - snd (clen_pair c x) * 1)) (seq 0 n))) by ring.
  rewrite <- rsum_scal. apply rsum_ext_seq. intros i Hi.
  rewrite cheb_quotient. field.
  specialize (Hx i ltac:(lia)). lra.
Qed.

Lemma bary_numerator (n : nat) (c : list R) (x : R) :
  (2 <= n)%nat -> (length c <= n)%nat ->
  (forall i, (i < n)%nat -> x <> nth i (@chebpts2 R exactR n) 0) ->
  rsum (map (fun i => nth i (@barywts2 R exactR n) 0
                      / (x - nth i (@chebpts2 R exactR n) 0)
                      * cheb_series c (nth i (@chebpts2 R exactR n) 0))
            (seq 0 n))
  = cheb_series c x
    * rsum (map (fun i => nth i (@barywts2 R exactR n) 0
                          / (x - nth i (@chebpts2 R exactR n) 0))
                (seq 0 n)).
Proof.
  intros Hn Hc Hx.
  pose proof (bary_quotient_sum n c x Hx) as H.
  rewrite wsum_linear, wsum_const, wsum_low in H by
    (try exact Hn; rewrite clen_list_length; destruct c; simpl in *; lia).
  rewrite <- rsum_scal.
  assert (Hsplit :
    rsum (map (fun i => nth i (@barywts2 R exactR n) 0
                        / (x - nth i (@chebpts2 R exactR n) 0)
                        * (cheb_series c (nth i (@chebpts2 R exactR n) 0)
                           - cheb_series c x)) (seq 0 n))
    = rsum (map (fun i => nth i (@barywts2 R exactR n) 0
                          / (x - nth i (@chebpts2 R exactR n) 0)
                          * cheb_series c (nth i (@chebpts2 R exactR n) 0)) (seq 0 n))
      + -1 * rsum (map (fun i => cheb_series c x
                          * (nth i (@barywts2 R exactR n) 0
                             / (x - nth i (@chebpts2 R exactR n) 0))) (seq 0 n))).
  { rewrite <- rsum_scal, <- rsum_plus. apply rsum_ext_seq. intros i _.
    unfold Rdiv. ring. }
  rewrite Hsplit in H. lra.
Qed.

Lemma cheb_series_shifted (m : nat) (l : list R) (y : R) :
  cheb_series (repeat 0 m ++ l) y
  = rsum (map (fun k => nth k l 0 * Tcheb (m + k) y) (seq 0 (length l))).
Proof.
  unfold cheb_series. rewrite length_app, repeat_length, seq_app, map_app, rsum_app.
  cbn [Nat.add].
  rewrite (rsum_ext_seq _ (fun _ => 0) 0 m).
  2:{ intros k Hk. rewrite app_nth1 by (rewrite repeat_length; lia).
      rewrite nth_repeat_R0. ring. }
  rewrite rsum_zero, Rplus_0_l.
  replace (seq m (length l)) with (seq (0 + m) (length l)) by reflexivity.
  rewrite rsum_shift_by. apply rsum_ext_seq. intros k Hk.
  rewrite app_nth2 by (rewrite repeat_length; lia). rewrite repeat_length.
  replace (k + m - m)%nat with k by lia. replace (k + m)%nat with (m + k)%nat by lia.
  reflexivity.
Qed.

(** The series [T_n - T_(n-2)] vanishes at the [n] Chebyshev points. *)
Lemma node_series_vanishes (n i : nat) :
  (2 <= n)%nat -> (i < n)%nat ->
  cheb_series (repeat 0 (n - 2) ++ [-1; 0; 1]) (nth i (@chebpts2 R exactR n) 0) = 0.
Proof.
  intros Hn Hi.
  assert (Hpos : 0 < INR (n - 1)) by (apply lt_0_INR; lia).
  rewrite cheb_series_shifted, chebpts2_nth by lia.
  set (a := INR (n - 1 - i) * (PI / INR (n - 1))).
  unfold rsum. cbn [length seq map fold_right nth]. rewrite !Tcheb_cos.
  replace (INR (n - 2 + 0) * a) with (INR (n - 1 - i) * PI - a).
  2:{ unfold a. replace (n - 2 + 0)%nat with (n - 1 - 1)%nat by lia.
      rewrite (minus_INR (n - 1) 1) by lia. simpl (INR 1). field. lra. }
  replace (INR (n - 2 + 2) * a) with (INR (n - 1 - i) * PI + a).
  2:{ unfold a. replace (n - 2 + 2)%nat with (S (n - 1)) by lia.
      rewrite S_INR. field. lra. }
  rewrite cos_plus, cos_minus, sin_nat_PI. ring.
Qed.

Lemma bary_denominator (n : nat) (x : R) :
  (2 <= n)%nat ->
  (forall i, (i < n)%nat -> x <> nth i (@chebpts2 R exactR n) 0) ->
  rsum (map (fun i => nth i (@barywts2 R exactR n) 0
                      / (x - nth i (@chebpts2 R exactR n) 0))
            (seq 0 n)) <> 0.
Proof.
  intros Hn Hx.
  set (c := repeat 0 (n - 2) ++ [-1; 0; 1]).
  assert (Hlen : length c = S n) by (unfold c; rewrite length_app, repeat_length; simpl; lia).
  pose proof (bary_quotient_sum n c x Hx) as H.
  assert (Hb : length (clen_list (tl c) x) = n).
  { rewrite clen_list_length. destruct c; simpl in *; lia. }
  rewrite wsum_linear, wsum_const in H by exact Hn.
  pose proof (wsum_series (clen_list (tl c) x)) as Hw. rewrite Hb in Hw.
  rewrite (Hw Hn) in H. clear Hw.
  rewrite clen_list_nth in H by (destruct c; simpl in *; lia).
  replace (skipn (n - 1) (tl c)) with [1] in H.
  2:{ unfold c. destruct (n - 2)%nat as [|m] eqn:E.
      - replace (n - 1)%nat with 1%nat by lia. reflexivity.
      - replace (n - 1)%nat with (S (S m)) by lia. cbn [repeat app tl].
        clear. induction m as [|m IH]; [reflexivity|]. exact IH. }
  cbn [clen_pair fst] in H.
  rewrite (rsum_ext_seq _
     (fun i => - cheb_series c x
               * (nth i (@barywts2 R exactR n) 0
                  / (x - nth i (@chebpts2 R exactR n) 0))) 0 n) in H.
  2:{ intros i Hi. unfold c. rewrite node_series_vanishes by lia. unfold Rdiv. ring. }
  rewrite rsum_scal in H.
  assert (Hpos : 0 < INR (n - 1)) by (apply lt_0_INR; lia).
  intro Hz. rewrite Hz in H. lra.
Qed.
End Interpolation.

Section InterpolationTheorem.
Local Open Scope R_scope.

Lemma fold_left_rsum (g : nat -> R) (l : list nat) (a : R) :
  fold_left (fun acc j => acc + g j) l a = a + rsum (map g l).
Proof.
  revert a. induction l as [|j l IH]; intro a; cbn [fold_left map].
  - unfold rsum. cbn [fold_right]. ring.
  - rewrite IH. unfold rsum. cbn [fold_right]. ring.
Qed.

Section ChebyshevOrders.
Variable sum_order dot_order : nat -> sumtree.
Hypothesis sum_order_ok : forall n, adds_each_once (sum_order n) n.
Hypothesis dot_order_ok : forall n, adds_each_once (dot_order n) n.

Lemma bary_point_chebyshev (n : nat) (c : list R) (x : R) :
  (2 <= n)%nat -> (1 <= length c <= n)%nat ->
  (forall xj, In xj (@chebpts2 R exactR n) -> x <> xj) ->
  (let tt := map2 (@div R exactR) (@barywts2 R exactR n)
                  (map (fun xj => @sub R exactR x xj) (@chebpts2 R exactR n)) in
   @div R exactR
     (@dot R exactR dot_order tt (@clenshaw R exactR (@chebpts2 R exactR n) c))
     (@vsum R exactR sum_order tt))
  = @clenshaw1 R exactR c x.
Proof.
  intros Hn Hc Hx. cbv zeta.
  set (xk := @chebpts2 R exactR n). set (vk := @barywts2 R exactR n).
  set (fk := @clenshaw R exactR xk c).
  assert (Hxk : length xk = n) by apply chebpts2_length.
  assert (Hvk : length vk = n) by apply barywts2_length.
  assert (Hfk : length fk = n) by (unfold fk, clenshaw; rewrite length_map; exact Hxk).
  assert (Hx' : forall i, (i < n)%nat -> x <> nth i xk 0).
  { intros i Hi. apply Hx. apply nth_In. fold xk. rewrite Hxk. exact Hi. }
  destruct (point_sums_exact sum_order dot_order sum_order_ok dot_order_ok
              x fk xk vk) as [Hd Hs]; [lia|lia|].
  cbv zeta in Hd, Hs. cbn [sub exactR]. rewrite Hd, Hs. rewrite Hxk.
  rewrite (fold_left_rsum (fun j => nth j vk 0 / (x - nth j xk 0) * nth j fk 0)).
  rewrite (fold_left_rsum (fun j => nth j vk 0 / (x - nth j xk 0))).
  cbn [div exactR].
  rewrite !Rplus_0_l.
  rewrite (rsum_ext_seq _
     (fun i => nth i vk 0 / (x - nth i xk 0) * cheb_series c (nth i xk 0)) 0 n).
  2:{ intros i Hi. f_equal. unfold fk, clenshaw.
      rewrite (nth_map_in _ _ 0 0) by lia.
      apply clenshaw1_cheb_series. lia. }
  unfold vk, xk. rewrite bary_numerator by (try exact Hx'; lia).
  rewrite clenshaw1_cheb_series by lia.
  pose proof (bary_denominator n x Hn Hx') as Hden.
  field. exact Hden.
Qed.

(** X26. In exact arithmetic, in whatever order [sum] and [dot] add the
    entries (each once), for [n >= 2], a real series [c] of at least one
    and at most [n] coefficients and evaluation points that hit none of
    the points [chebpts2(n)], [bary] applied to the values of the series
    at [chebpts2(n)], with those points as nodes and [barywts2(n)] as
    weights, returns the values [clenshaw(xx, c)] of the series at the
    evaluation points: the barycentric formula with these nodes and
    weights reproduces every polynomial of degree below [n], and never
    divides by a zero sum. *)
Theorem bary_reproduces_chebyshev_series (n : nat) (xx c : list R) :
  (2 <= n)%nat -> (1 <= length c <= n)%nat ->
  (forall x xj, In x xx -> In xj (@chebpts2 R exactR n) -> x <> xj) ->
  @bary R exactR sum_order dot_order
        xx (@clenshaw R exactR (@chebpts2 R exactR n) c)
        (@chebpts2 R exactR n) (@barywts2 R exactR n)
  = @clenshaw R exactR xx c
  /\ forall x, In x xx ->
       @vsum R exactR sum_order
         (map2 (@div R exactR) (@barywts2 R exactR n)
               (map (fun xj => @sub R exactR x xj) (@chebpts2 R exactR n))) <> 0.
Proof.
  intros Hn Hc Hx. split.
  - unfold bary. rewrite replace_nans_exact.
    assert (Hpoint :
      @bary_point_outer R exactR sum_order dot_order
         xx (@clenshaw R exactR (@chebpts2 R exactR n) c)
         (@chebpts2 R exactR n) (@barywts2 R exactR n)
      = @clenshaw R exactR xx c).
    { unfold bary_point_outer. unfold clenshaw at 2. apply map_ext_in. intros x Hin.
      apply (bary_point_chebyshev n c x Hn Hc). intros xj Hxj. apply (Hx x xj Hin Hxj). }
    destruct (length xx <? 4 * length (@chebpts2 R exactR n))%nat; [exact Hpoint|].
    rewrite (bary_loops_agree sum_order dot_order sum_order_ok dot_order_ok);
      [exact Hpoint| |].
    + unfold clenshaw. now rewrite length_map.
    + now rewrite barywts2_length, chebpts2_length.
  - intros x Hin.
    assert (Hx' : forall i, (i < n)%nat -> x <> nth i (@chebpts2 R exactR n) 0).
    { intros i Hi. apply (Hx x _ Hin). apply nth_In. rewrite chebpts2_length. exact Hi. }
    pose proof (bary_denominator n x Hn Hx') as Hden.
    destruct (point_sums_exact sum_order dot_order sum_order_ok dot_order_ok
                x (@chebpts2 R exactR n) (@chebpts2 R exactR n)
                (@barywts2 R exactR n)) as [_ Hs];
      [reflexivity | now rewrite barywts2_length, chebpts2_length |].
    cbv zeta in Hs. cbn [sub exactR]. rewrite Hs, chebpts2_length.
    rewrite (fold_left_rsum (fun j => nth j (@barywts2 R exactR n) 0
                                      / (x - nth j (@chebpts2 R exactR n) 0))).
    rewrite Rplus_0_l. exact Hden.
Qed.
End ChebyshevOrders.

Lemma bary_reproduces_chebyshev_series_witness :
  @bary R exactR numpy_sum_order loop_order
        [0] (@clenshaw R exactR (@chebpts2 R exactR 2) [3; 4])
        (@chebpts2 R exactR 2) (@barywts2 R exactR 2)
  = @clenshaw R exactR [0] [3; 4]
  /\ forall x, In x [0] ->
       @vsum R exactR numpy_sum_order
         (map2 (@div R exactR) (@barywts2 R exactR 2)
               (map (fun xj => @sub R exactR x xj) (@chebpts2 R exactR 2))) <> 0.
Proof.
  apply (bary_reproduces_chebyshev_series numpy_sum_order loop_order
           numpy_sum_order_adds_each_once loop_order_adds_each_once 2 [0] [3; 4]).
  - lia.
  - simpl. lia.
  - intros x xj [<-|[]] Hxj.
    destruct (In_nth _ _ 0 Hxj) as (i & Hi & <-).
    rewrite chebpts2_length in Hi. rewrite chebpts2_nth by lia.
    destruct i as [|[|i]]; [| |lia].
    + replace (INR (2 - 1 - 0) * (PI / INR (2 - 1))) with PI by (simpl; field).
      rewrite cos_PI. lra.
    + replace (INR (2 - 1 - 1) * (PI / INR (2 - 1))) with 0 by (simpl; field).
      rewrite cos_0. lra.
Defined.
End InterpolationTheorem.

(** ** standard_chop on a zero tail, in binary64 *)

Section ChopTailBinary64.
Variable L : Libm.

Lemma pos_zero_not_nan (x : float) : is_pos_zero x -> is_nan x = false.
Proof. unfold is_pos_zero. intros H. now rewrite is_nan_SF, H. Qed.

Lemma abs_not_nan (x : float) : is_nan x = false -> is_nan (abs x) = false.
Proof.
  rewrite !is_nan_SF, abs_spec. destruct (Prim2SF x); simpl; congruence.
Qed.

Lemma pymax2_not_nan (x y : float) :
  is_nan x = false -> is_nan y = false ->
  is_nan (@pymax2 float (binary64 L) x y) = false.
Proof.
  unfold pymax2. cbn [fltb binary64]. intros Hx Hy.
  destruct (PrimFloat.ltb x y); assumption.
Qed.

(** The running maximum of an array without NaN that ends in a zero has
    no NaN: [max] returns one of its two arguments, and the product
    [b[-1] * 1] that starts it is a zero. *)
Lemma running_max_not_nan (b : list float) :
  Forall (fun x => is_nan x = false) b ->
  is_pos_zero (last b 0%float) ->
  Forall (fun x => is_nan x = false) (@running_max float (binary64 L) b).
Proof.
  induction 1 as [|x rest Hx Hrest IH]; intros Hlast; [constructor|].
  destruct rest as [|y rest'].
  - constructor; [|constructor].
    apply pos_zero_not_nan. apply mul_one_pos_zero. exact Hlast.
  - change (@running_max float (binary64 L) (x :: y :: rest'))
      with (@pymax2 float (binary64 L) x
              (hd (@fzero float (binary64 L)) (@running_max float (binary64 L) (y :: rest')))
            :: @running_max float (binary64 L) (y :: rest')).
    specialize (IH Hlast).
    constructor; [|exact IH].
    apply pymax2_not_nan; [exact Hx|].
    destruct (@running_max float (binary64 L) (y :: rest')) as [|h t] eqn:E.
    + reflexivity.
    + inversion IH; assumption.
Qed.

(** A zero divided by a number that is neither a NaN nor a zero is a
    zero. *)
Lemma zero_div_is_zero (z m0 : float) :
  is_pos_zero z -> is_nan m0 = false -> (m0 =? 0)%float = false ->
  exists s, Prim2SF (z / m0) = S754_zero s.
Proof.
  unfold is_pos_zero. rewrite is_nan_SF, eqb_spec, div_spec. intros ->.
  replace (Prim2SF 0) with (S754_zero false) by reflexivity.
  unfold SF64div, SFdiv, SFeqb.
  destruct (Prim2SF m0) as [s|s| |s m e]; simpl; try discriminate; intros _ _;
    eexists; reflexivity.
Qed.

Lemma zero_eqb_zero (e : float) (s : bool) :
  Prim2SF e = S754_zero s -> (e =? 0)%float = true.
Proof.
  intros H. rewrite eqb_spec, H.
  replace (Prim2SF 0) with (S754_zero false) by reflexivity. reflexivity.
Qed.

Lemma leb_zero_any_sign (thr e : float) (s : bool) :
  Prim2SF e = S754_zero s -> (thr <=? e)%float = (thr <=? 0)%float.
Proof.
  intros H. rewrite !leb_spec, H.
  replace (Prim2SF 0) with (S754_zero false) by reflexivity.
  unfold SFleb. destruct (Prim2SF thr) as [s'|s'| |s' m' e']; reflexivity.
Qed.

(** Beyond the index [k] the running maximum of the absolute values is
    the zero [+0.0]. *)
Lemma running_max_tail_pos_zero (coeffs : list float) (k i : nat) :
  (forall i, k < i -> (nth i coeffs 0 =? 0)%float = true) ->
  k < i -> i < length coeffs ->
  is_pos_zero
    (nth i (@running_max float (binary64 L) (map (@fabs float (binary64 L)) coeffs))
       0%float).
Proof.
  intros Hz Hi Hl.
  rewrite (@nth_skipn_hd float (binary64 L)), running_max_skipn_any.
  assert (Hall : Forall is_pos_zero (skipn i (map (@fabs float (binary64 L)) coeffs))).
  { apply Forall_forall. intros x Hx.
    destruct (In_nth _ _ 0%float Hx) as (p & Hp & <-).
    rewrite nth_skipn.
    rewrite length_skipn, length_map in Hp.
    rewrite (nth_map_in _ _ 0%float 0%float) by lia.
    apply abs_zero_pos, Hz. lia. }
  apply (running_max_pos_zero L) in Hall.
  assert (Hne : length (@running_max float (binary64 L)
                          (skipn i (map (@fabs float (binary64 L)) coeffs))) <> 0).
  { rewrite running_max_length, length_skipn, length_map. lia. }
  destruct (@running_max float (binary64 L)
              (skipn i (map (@fabs float (binary64 L)) coeffs))) as [|m0 m'];
    [simpl in Hne; lia|].
  now inversion Hall.
Qed.

(** C4, amended. In binary64, for coefficients of length [n >= 17] none
    of which is a NaN, that are zero (of either sign) at every index above
    [k], with a nonzero entry, and granted that the C library's
    [eps**(7/6)] is not [<= 0], [standard_chop] at the default tolerance
    returns [n] itself (no plateau is found before the lookahead index
    leaves the array) or a cutoff of at most [k + 1]; it returns at most
    [k + 1] whenever the lookahead index [round(1.25*(k+1)+5)] of the
    index [k + 1] is at most [n - 1]. *)
Theorem standard_chop_zero_tail (coeffs : list float) (k : nat) :
  17 <= length coeffs ->
  (forall i, is_nan (nth i coeffs 0%float) = false) ->
  (forall i, k < i -> (nth i coeffs 0 =? 0)%float = true) ->
  (exists i, (nth i coeffs 0 =? 0)%float = false) ->
  @fleb float (binary64 L)
    (@fpow float (binary64 L) (@eps float (binary64 L))
       (@div float (binary64 L) (@ofZ float (binary64 L) 7%Z)
          (@ofZ float (binary64 L) 6%Z)))
    (@fzero float (binary64 L)) = false ->
  exists c,
    @standard_chop float (binary64 L) coeffs (@eps float (binary64 L)) = Some c
    /\ (c = length coeffs \/ c <= k + 1)
    /\ (@lookahead (k + 1) <= length coeffs - 1 -> c <= k + 1).
Proof.
  intros Hn Hnan Hz _ Hthr.
  destruct (le_lt_dec (length coeffs) (k + 1)) as [Hshort|Hlong].
  { destruct (@standard_chop_total float (binary64 L) coeffs
                (@eps float (binary64 L))) as (c & Hc & Hle).
    exists c. split; [exact Hc|]. split; [right|]; lia. }
  destruct (@chop_zero_tail_envelope float (binary64 L) coeffs
              (@eps float (binary64 L)) k) as (c & Hc & Hor & Hle).
  { cbv zeta. intros Hm0 i Hi Hl.
    set (m := @running_max float (binary64 L) (map (@fabs float (binary64 L)) coeffs)) in *.
    assert (Hlen : length m = length coeffs).
    { unfold m. now rewrite running_max_length, length_map. }
    assert (Hmnan : Forall (fun x => is_nan x = false) m).
    { unfold m. apply running_max_not_nan.
      - apply Forall_forall. intros x Hx.
        destruct (In_nth _ _ 0%float Hx) as (p & Hp & <-).
        rewrite length_map in Hp.
        rewrite (nth_map_in _ _ 0%float 0%float) by exact Hp.
        apply abs_not_nan, Hnan.
      - rewrite last_as_nth, length_map.
        rewrite (nth_map_in _ _ 0%float 0%float) by lia.
        apply abs_zero_pos, Hz. lia. }
    assert (Hm0nan : is_nan (nth 0 m 0%float) = false).
    { rewrite Forall_forall in Hmnan. apply Hmnan, nth_In. lia. }
    destruct (zero_div_is_zero (nth i m 0%float) (nth 0 m 0%float)) as (s & Hs).
    - unfold m. now apply running_max_tail_pos_zero with k.
    - exact Hm0nan.
    - exact Hm0.
    - change (@fzero float (binary64 L)) with 0%float.
      rewrite (nth_map_in _ _ 0%float 0%float) by lia.
      change (@div float (binary64 L) (nth i m 0%float) (nth 0 m 0%float))
        with (nth i m 0 / nth 0 m 0)%float.
      split.
      + exact (zero_eqb_zero _ s Hs).
      + change (@fleb float (binary64 L)) with PrimFloat.leb.
        rewrite (leb_zero_any_sign _ _ s Hs). exact Hthr. }
  exists c. split; [exact Hc|]. split; [exact Hor|]. intros Hl. now apply Hle.
Qed.

Lemma div_nan_r (x y : float) : is_nan y = true -> is_nan (x / y) = true.
Proof.
  rewrite !is_nan_SF, div_spec. unfold SF64div, SFdiv.
  destruct (Prim2SF y); try discriminate. intros _.
  destruct (Prim2SF x); reflexivity.
Qed.

(** A NaN among the coefficients is outside the amended claim: a NaN in
    front of sixteen zeros makes every entry of the envelope a NaN, no
    test for a plateau succeeds, and the length 17 is returned although
    the entries are zero beyond [k = 0]. *)
Example standard_chop_nan_head :
  @standard_chop float (binary64 L) (nan :: repeat 0%float 16)
    (@eps float (binary64 L)) = Some 17.
Proof.
  unfold standard_chop.
  change (length (nan :: repeat 0%float 16) <? 17) with false. cbv iota zeta.
  replace (@running_max float (binary64 L)
             (map (@fabs float (binary64 L)) (nan :: repeat 0%float 16)))
    with (nan :: repeat 0%float 16) by (vm_compute; reflexivity).
  change (nth 0 (nan :: repeat 0%float 16) (@fzero float (binary64 L))) with nan.
  change (@feqb float (binary64 L) nan (@fzero float (binary64 L))) with false.
  cbv iota.
  replace (map (fun x => @div float (binary64 L) x nan) (nan :: repeat 0%float 16))
    with (repeat nan 17) by (vm_compute; reflexivity).
  change (length (nan :: repeat 0%float 16)) with 17.
  pose proof (@plateau_scan_seq float (binary64 L) (repeat nan 17)
                (@eps float (binary64 L)) 17 (17 - 1) 1) as Hscan.
  pose proof (@plateau_scan_not_exhausted float (binary64 L) (repeat nan 17)
                (@eps float (binary64 L)) 17 ltac:(lia)) as Hne.
  destruct (plateau_scan (repeat nan 17) (@eps float (binary64 L)) 17 (seq 1 (17 - 1)))
    as [|j j2|]; [reflexivity| |congruence].
  exfalso. destruct Hscan as (Hj & Hj2 & Hle & Hpl & _).
  unfold plateau in Hpl. cbv zeta in Hpl.
  change (@fzero float (binary64 L)) with 0%float in Hpl.
  rewrite (@nth_repeat_lt float nan 17 j 0%float) in Hpl by lia.
  change (@feqb float (binary64 L) nan 0%float) with false in Hpl.
  cbn [orb fltb binary64] in Hpl.
  rewrite ltb_nan_r in Hpl; [discriminate|].
  apply div_nan_r. reflexivity.
Qed.
End ChopTailBinary64.

Lemma standard_chop_zero_tail_witness :
  exists c,
    @standard_chop float (binary64 no_libm) (1%float :: repeat 0%float 16)
      (@eps float (binary64 no_libm)) = Some c
    /\ (c = length (1%float :: repeat 0%float 16) \/ c <= 0 + 1)
    /\ (@lookahead (0 + 1) <= length (1%float :: repeat 0%float 16) - 1 -> c <= 0 + 1).
Proof.
  apply (standard_chop_zero_tail no_libm (1%float :: repeat 0%float 16) 0).
  - simpl. lia.
  - intros i. do 18 (destruct i as [|i]; [reflexivity|]). destruct i; reflexivity.
  - intros i Hi. destruct i as [|i]; [lia|].
    do 17 (destruct i as [|i]; [reflexivity|]). destruct i; reflexivity.
  - exists 0. reflexivity.
  - reflexivity.
Defined.

(** The branch "there is no plateau: exit" on binary64: sixteen ones
    followed by one zero ([n = 17], zero beyond [k = 15]) are not chopped,
    and [17 > k + 1 = 16]. *)
Example standard_chop_ones_zero_binary64 :
  @standard_chop float (binary64 libm_logs) (repeat 1%float 16 ++ [0%float])
    (@eps float (binary64 libm_logs)) = Some 17.
Proof. vm_compute. reflexivity. Qed.
